(** * The per-shard reliable message writer of m3 (src/msg/producer/writer)

    A shallow embedding of [message_writer.go]: the writer's queue and ack
    table, admission of writes, the scan loop's per-element classification,
    the lifecycle ([Close]) and the two retry schedulers, followed by the
    properties stated about them.

    Conventions.
    - Go's fixed-width integers are [Z] with the wrap-around written out
      ([wrap64] for [int64] and [int], [wrapu64] for [uint64], [wrap32] for
      [int32]).
    - Go pointers ([*message], [*list.Element], [*RefCountedMessage]) are
      handles into explicit stores, so that the ack table and the queue
      alias the same envelope as they do in the source.
    - A run-time panic (index out of range) is [None]. *)

From Stdlib Require Import ZArith Lia Bool List.
From Stdlib Require Import SpecFloat.
From stdpp Require Import base option list gmap strings.

Local Open Scope Z_scope.

(** ** Machine integers *)

Module Int.

Definition wrapu64 (z : Z) : Z := z mod 2 ^ 64.
Definition wrap64 (z : Z) : Z := (z + 2 ^ 63) mod 2 ^ 64 - 2 ^ 63.
Definition wrap32 (z : Z) : Z := (z + 2 ^ 31) mod 2 ^ 32 - 2 ^ 31.
Definition wrapu32 (z : Z) : Z := z mod 2 ^ 32.

Definition min_int64 : Z := - 2 ^ 63.
Definition max_int64 : Z := 2 ^ 63 - 1.
Definition max_uint64 : Z := 2 ^ 64 - 1.
Definition max_uint32 : Z := 2 ^ 32 - 1.

Definition in_int64 (z : Z) : Prop := min_int64 <= z <= max_int64.
Definition in_uint64 (z : Z) : Prop := 0 <= z <= max_uint64.

End Int.

Import Int.

(** ** Handles *)

(** A [*message]; the [*list.Element] holding it is identified with it, as
    every element is created by one [Write] for one fresh envelope. *)
Definition handle := nat.

(** A [*producer.RefCountedMessage]. *)
Definition payloadRef := nat.

(** ** Message envelope and payload *)

Record metadata := Metadata {
  shard : Z;   (* uint64 *)
  id : Z       (* uint64 *)
}.

(** Modelled from the spec: the [message] type ([message.go] is not among the
    sources). The spec (section 3) lists its attributes: metadata, payload
    reference, init-nanos, expected-process-at-nanos (equal to init-nanos),
    retry-at-nanos (initially 0), write-times (count of send attempts),
    sent-at-nanos, the ack flag and the reads-in-flight counter. *)
Record message := Message {
  meta : metadata;
  rm : option payloadRef;
  initNanos : Z;
  expectedProcessAtNanos : Z;
  retryAtNanos : Z;
  writeTimes : Z;
  sentAtNanos : Z;
  isAcked : bool;
  readsInFlight : Z
}.

(** The state of an envelope as the pool hands it out. *)
Definition zeroMessage : message :=
  Message (Metadata 0 0) None 0 0 0 0 0 false 0.

(** Modelled from the spec: [message.Set(meta, rm, nowNanos)]; init-nanos is
    the wall clock at Write and expected-process-at-nanos equals it. *)
Definition message_Set (mt : metadata) (r : payloadRef) (nowNanos : Z)
    (m : message) : message :=
  Message mt (Some r) nowNanos nowNanos (retryAtNanos m) (writeTimes m)
          (sentAtNanos m) (isAcked m) (readsInFlight m).

(** Modelled from the spec: [message.Ack()] sets the ack flag. *)
Definition message_Ack (m : message) : message :=
  Message (meta m) (rm m) (initNanos m) (expectedProcessAtNanos m)
          (retryAtNanos m) (writeTimes m) (sentAtNanos m) true
          (readsInFlight m).

(** Modelled from the spec: [message.IncWriteTimes()]. *)
Definition message_IncWriteTimes (m : message) : message :=
  Message (meta m) (rm m) (initNanos m) (expectedProcessAtNanos m)
          (retryAtNanos m) (wrap64 (writeTimes m + 1)) (sentAtNanos m)
          (isAcked m) (readsInFlight m).

(** Modelled from the spec: [message.SetRetryAtNanos(n)]. *)
Definition message_SetRetryAtNanos (n : Z) (m : message) : message :=
  Message (meta m) (rm m) (initNanos m) (expectedProcessAtNanos m)
          n (writeTimes m) (sentAtNanos m) (isAcked m) (readsInFlight m).

(** Modelled from the spec: the payload capability (section 9): a reference
    count and a separate validity flag that the producer may set at any
    time. *)
Record refCountedMessage := RefCounted {
  refCount : Z;
  droppedOrConsumed : bool
}.

Definition zeroRefCounted : refCountedMessage := RefCounted 0 false.

(** ** The ack table *)

(** [acks.acks] is the Go map from message id to envelope. The three
    [hist_] fields are history counters: they record how often each method
    changed the table and are never read by the program. *)
Record acks := Acks {
  acks_map : gmap Z handle;
  hist_added : nat;      (* calls of [add] *)
  hist_acked : nat;      (* calls of [ack] that returned true *)
  hist_removed : nat     (* entries deleted by [remove] *)
}.

(** [newAckHelper] *)
Definition newAckHelper : acks := Acks ∅ 0 0 0.

(** [acks.add]: [a.acks[meta.metadataKey.id] = m] *)
Definition acks_add (mt : metadata) (m : handle) (a : acks) : acks :=
  Acks (<[id mt := m]> (acks_map a)) (S (hist_added a)) (hist_acked a)
       (hist_removed a).

(** [acks.remove]: [delete(a.acks, meta.metadataKey.id)] *)
Definition acks_remove (mt : metadata) (a : acks) : acks :=
  Acks (delete (id mt) (acks_map a)) (hist_added a) (hist_acked a)
       (match acks_map a !! id mt with
        | Some _ => S (hist_removed a)
        | None => hist_removed a
        end).

(** [acks.size] *)
Definition acks_size (a : acks) : Z := Z.of_nat (size (acks_map a)).

(** ** Retry functions, options, metrics *)

(** [MessageRetryNanosFn]: [func(writeTimes int) int64]; [None] is a panic. *)
Definition MessageRetryNanosFn := Z -> option Z.

(** The part of [Options] that the modelled code reads. *)
Record Options := MkOptions {
  IgnoreCutoffCutover : bool;
  MessageQueueScanBatchSize : Z;
  MessageQueueFullScanInterval : Z;
  GetMessageRetryNanosFn : MessageRetryNanosFn
}.

(** The counters of [messageWriterMetrics] that are incremented outside the
    per-scan [scanBatchMetrics]. *)
Record messageWriterMetrics := Metrics {
  writeAfterCutoff : Z;
  writeBeforeCutover : Z;
  messageAcked : Z;
  enqueuedMessages : Z;
  dequeuedMessages : Z
}.

Definition newMessageWriterMetrics : messageWriterMetrics :=
  Metrics 0 0 0 0 0.

(** [metricIdx] and [scanBatchMetrics] ([[_lastMetricIdx]int32]) *)
Inductive metricIdx :=
  | _messageClosed
  | _messageDroppedBufferFull
  | _messageDroppedTTLExpire
  | _messageRetry
  | _processedAck
  | _processedClosed
  | _processedDrop
  | _processedNotReady
  | _processedTTL
  | _processedWrite.

Definition metricIdx_nat (i : metricIdx) : nat :=
  match i with
  | _messageClosed => 0
  | _messageDroppedBufferFull => 1
  | _messageDroppedTTLExpire => 2
  | _messageRetry => 3
  | _processedAck => 4
  | _processedClosed => 5
  | _processedDrop => 6
  | _processedNotReady => 7
  | _processedTTL => 8
  | _processedWrite => 9
  end%nat.

Definition _lastMetricIdx : nat := 10.

Abbreviation scanBatchMetrics := (list Z) (only parsing).

Definition zeroScanBatchMetrics : scanBatchMetrics := replicate _lastMetricIdx 0.

Definition sm_get (i : metricIdx) (sm : scanBatchMetrics) : Z :=
  default 0 (sm !! metricIdx_nat i).

(** [scanMetrics[i]++] *)
Definition sm_inc (i : metricIdx) (sm : scanBatchMetrics) : scanBatchMetrics :=
  alter (fun v => wrap32 (v + 1)) (metricIdx_nat i) sm.

(** ** The writer and the stores it points into *)

(** Modelled from the spec: the message pool, which recycles envelopes
    ([message_pool.go] is not among the sources). [Get] hands out an envelope
    in its zero state; [poolPut] lists the envelopes given back by [Put]. *)
Record messagePool := Pool {
  poolNext : handle;
  poolPut : list handle
}.

(** The fields of [messageWriter] that the modelled methods read or write. *)
Record messageWriter := MessageWriter {
  replicatedShardID : Z;
  opts : Options;
  nextRetryAfterNanos : MessageRetryNanosFn;
  msgID : Z;
  queue : list handle;
  mw_acks : acks;
  cutOffNanos : Z;
  cutOverNanos : Z;
  messageTTLNanos : Z;
  isClosed : bool;
  nextFullScan : Z;
  lastNewWrite : option handle
}.

Record world := World {
  mw : messageWriter;
  heap : gmap handle message;
  payloads : gmap payloadRef refCountedMessage;
  mPool : messagePool;
  metrics : messageWriterMetrics
}.

(** The zero [time.Time] (January 1, year 1) in Unix nanoseconds. *)
Definition zeroTime : Z := -62135596800 * 10 ^ 9.

(** [newMessageWriter] *)
Definition newMessageWriter (replicatedShardID : Z) (o : Options)
  : messageWriter :=
  MessageWriter replicatedShardID o (GetMessageRetryNanosFn o)
                0 [] newAckHelper 0 0 0 false zeroTime None.

Definition newWorld (replicatedShardID : Z) (o : Options) : world :=
  World (newMessageWriter replicatedShardID o) ∅ ∅ (Pool 0%nat [])
        newMessageWriterMetrics.

(** Field updates. *)
Definition set_mw (f : messageWriter -> messageWriter) (s : world) : world :=
  World (f (mw s)) (heap s) (payloads s) (mPool s) (metrics s).
Definition set_heap (f : gmap handle message -> gmap handle message)
    (s : world) : world :=
  World (mw s) (f (heap s)) (payloads s) (mPool s) (metrics s).
Definition set_payloads
    (f : gmap payloadRef refCountedMessage -> gmap payloadRef refCountedMessage)
    (s : world) : world :=
  World (mw s) (heap s) (f (payloads s)) (mPool s) (metrics s).
Definition set_mPool (f : messagePool -> messagePool) (s : world) : world :=
  World (mw s) (heap s) (payloads s) (f (mPool s)) (metrics s).
Definition set_metrics (f : messageWriterMetrics -> messageWriterMetrics)
    (s : world) : world :=
  World (mw s) (heap s) (payloads s) (mPool s) (f (metrics s)).

Definition with_msgID (v : Z) (w : messageWriter) : messageWriter :=
  MessageWriter (replicatedShardID w) (opts w) (nextRetryAfterNanos w) v
    (queue w) (mw_acks w) (cutOffNanos w) (cutOverNanos w)
    (messageTTLNanos w) (isClosed w) (nextFullScan w) (lastNewWrite w).
Definition with_queue (v : list handle) (w : messageWriter) : messageWriter :=
  MessageWriter (replicatedShardID w) (opts w) (nextRetryAfterNanos w)
    (msgID w) v (mw_acks w) (cutOffNanos w) (cutOverNanos w)
    (messageTTLNanos w) (isClosed w) (nextFullScan w) (lastNewWrite w).
Definition with_acks (v : acks) (w : messageWriter) : messageWriter :=
  MessageWriter (replicatedShardID w) (opts w) (nextRetryAfterNanos w)
    (msgID w) (queue w) v (cutOffNanos w) (cutOverNanos w)
    (messageTTLNanos w) (isClosed w) (nextFullScan w) (lastNewWrite w).
Definition with_cutOffNanos (v : Z) (w : messageWriter) : messageWriter :=
  MessageWriter (replicatedShardID w) (opts w) (nextRetryAfterNanos w)
    (msgID w) (queue w) (mw_acks w) v (cutOverNanos w)
    (messageTTLNanos w) (isClosed w) (nextFullScan w) (lastNewWrite w).
Definition with_cutOverNanos (v : Z) (w : messageWriter) : messageWriter :=
  MessageWriter (replicatedShardID w) (opts w) (nextRetryAfterNanos w)
    (msgID w) (queue w) (mw_acks w) (cutOffNanos w) v
    (messageTTLNanos w) (isClosed w) (nextFullScan w) (lastNewWrite w).
Definition with_messageTTLNanos (v : Z) (w : messageWriter) : messageWriter :=
  MessageWriter (replicatedShardID w) (opts w) (nextRetryAfterNanos w)
    (msgID w) (queue w) (mw_acks w) (cutOffNanos w) (cutOverNanos w)
    v (isClosed w) (nextFullScan w) (lastNewWrite w).
Definition with_isClosed (v : bool) (w : messageWriter) : messageWriter :=
  MessageWriter (replicatedShardID w) (opts w) (nextRetryAfterNanos w)
    (msgID w) (queue w) (mw_acks w) (cutOffNanos w) (cutOverNanos w)
    (messageTTLNanos w) v (nextFullScan w) (lastNewWrite w).
Definition with_nextFullScan (v : Z) (w : messageWriter) : messageWriter :=
  MessageWriter (replicatedShardID w) (opts w) (nextRetryAfterNanos w)
    (msgID w) (queue w) (mw_acks w) (cutOffNanos w) (cutOverNanos w)
    (messageTTLNanos w) (isClosed w) v (lastNewWrite w).
Definition with_lastNewWrite (v : option handle) (w : messageWriter)
  : messageWriter :=
  MessageWriter (replicatedShardID w) (opts w) (nextRetryAfterNanos w)
    (msgID w) (queue w) (mw_acks w) (cutOffNanos w) (cutOverNanos w)
    (messageTTLNanos w) (isClosed w) (nextFullScan w) v.

(** Pointer dereference: every handle denotes an envelope; one that was
    never written is in its zero state. *)
Definition getMsg (h : handle) (s : world) : message :=
  default zeroMessage (heap s !! h).
Definition setMsg (h : handle) (m : message) (s : world) : world :=
  set_heap (fun hp => <[h := m]> hp) s.
Definition getPayload (r : payloadRef) (s : world) : refCountedMessage :=
  default zeroRefCounted (payloads s !! r).

(** Modelled from the spec: [RefCountedMessage.IncRef] and [DecRef]. *)
Definition IncRef (r : payloadRef) (s : world) : world :=
  let p := getPayload r s in
  set_payloads (fun ps => <[r := RefCounted (refCount p + 1) (droppedOrConsumed p)]> ps) s.
Definition DecRef (r : payloadRef) (s : world) : world :=
  let p := getPayload r s in
  set_payloads (fun ps => <[r := RefCounted (refCount p - 1) (droppedOrConsumed p)]> ps) s.

(** Modelled from the spec: the producer drops or consumes a payload. *)
Definition payload_Drop (r : payloadRef) (s : world) : world :=
  let p := getPayload r s in
  set_payloads (fun ps => <[r := RefCounted (refCount p) true]> ps) s.

(** Modelled from the spec: [message.IsDroppedOrConsumed], the validity probe
    of the envelope's payload; an envelope without payload has none to
    probe (a nil dereference). *)
Definition IsDroppedOrConsumed (h : handle) (s : world) : option bool :=
  match rm (getMsg h s) with
  | Some r => Some (droppedOrConsumed (getPayload r s))
  | None => None
  end.

(** Modelled from the spec: [message.Close], which releases the payload
    reference (section 9: decRef via message close) and resets the
    envelope. *)
Definition message_Close (h : handle) (s : world) : world :=
  let s1 := match rm (getMsg h s) with
            | Some r => DecRef r s
            | None => s
            end in
  setMsg h zeroMessage s1.

(** [messageWriter.newMessage]: [w.mPool.Get()] *)
Definition newMessage (s : world) : handle * world :=
  let h := poolNext (mPool s) in
  (h, setMsg h zeroMessage
        (set_mPool (fun p => Pool (S (poolNext p)) (poolPut p)) s)).

(** [messageWriter.close]: [m.Close(); w.mPool.Put(m)] *)
Definition close (h : handle) (s : world) : world :=
  set_mPool (fun p => Pool (poolNext p) (h :: poolPut p)) (message_Close h s).

(** ** container/list on handles *)

(** [l.InsertAfter(v, mark)]: [None] when [mark] is not an element of [l]
    (the list is then left as it is and the Go method returns nil). *)
Fixpoint InsertAfter (v mark : handle) (l : list handle)
  : option (list handle) :=
  match l with
  | [] => None
  | x :: l' =>
      if decide (x = mark) then Some (x :: v :: l')
      else match InsertAfter v mark l' with
           | Some r => Some (x :: r)
           | None => None
           end
  end.

(** [l.PushFront(v)] *)
Definition PushFront (v : handle) (l : list handle) : list handle := v :: l.

(** [l.Remove(e)] *)
Definition Remove (e : handle) (l : list handle) : list handle :=
  filter (fun x => x ≠ e) l.

(** The elements reached from [start] by [e.Next()]. An element that is no
    longer in the list has no successor. *)
Fixpoint elementsFrom (start : handle) (l : list handle) : list handle :=
  match l with
  | [] => [start]
  | x :: l' => if decide (x = start) then l else elementsFrom start l'
  end.

(** ** Write and Ack *)

(** [messageWriter.isValidWriteWithLock]; the second component is the metrics
    after the call. *)
Definition isValidWriteWithLock (nowNanos : Z) (w : messageWriter)
    (mt : messageWriterMetrics) : bool * messageWriterMetrics :=
  if IgnoreCutoffCutover (opts w) then (true, mt)
  else if (cutOffNanos w >? 0) && (nowNanos >=? cutOffNanos w) then
    (false, Metrics (writeAfterCutoff mt + 1) (writeBeforeCutover mt)
              (messageAcked mt) (enqueuedMessages mt) (dequeuedMessages mt))
  else if (cutOverNanos w >? 0) && (nowNanos <? cutOverNanos w) then
    (false, Metrics (writeAfterCutoff mt) (writeBeforeCutover mt + 1)
              (messageAcked mt) (enqueuedMessages mt) (dequeuedMessages mt))
  else (true, mt).

(** [messageWriter.Write]; [nowNanos] is the clock reading the method takes
    first. *)
Definition Write (r : payloadRef) (nowNanos : Z) (s : world) : world :=
  let '(msg, s) := newMessage s in
  let '(ok, mt) := isValidWriteWithLock nowNanos (mw s) (metrics s) in
  let s := set_metrics (fun _ => mt) s in
  if negb ok then close msg s
  else
    let s := IncRef r s in
    let s := set_mw (fun w => with_msgID (wrapu64 (msgID w + 1)) w) s in
    let mt := Metadata (replicatedShardID (mw s)) (msgID (mw s)) in
    let s := setMsg msg (message_Set mt r nowNanos (getMsg msg s)) s in
    let s := set_mw (fun w => with_acks (acks_add mt msg (mw_acks w)) w) s in
    let s := set_metrics (fun m =>
               Metrics (writeAfterCutoff m) (writeBeforeCutover m)
                       (messageAcked m) (enqueuedMessages m + 1)
                       (dequeuedMessages m)) s in
    match lastNewWrite (mw s) with
    | Some mark =>
        match InsertAfter msg mark (queue (mw s)) with
        | Some q =>
            set_mw (fun w => with_lastNewWrite (Some msg) (with_queue q w)) s
        | None => set_mw (with_lastNewWrite None) s
        end
    | None =>
        set_mw (fun w => with_lastNewWrite (Some msg)
                           (with_queue (PushFront msg (queue w)) w)) s
    end.

(** [acks.ack]: look the id up; if present delete it and flip the
    envelope's ack flag. Returns [(acked, expectedProcessAtNanos)]. *)
Definition acks_ack (mt : metadata) (s : world) : (bool * Z) * world :=
  let a := mw_acks (mw s) in
  match acks_map a !! id mt with
  | None => ((false, 0), s)
  | Some m =>
      let s := set_mw (with_acks
                 (Acks (delete (id mt) (acks_map a)) (hist_added a)
                       (S (hist_acked a)) (hist_removed a))) s in
      let expectedProcessAt := expectedProcessAtNanos (getMsg m s) in
      ((true, expectedProcessAt), setMsg m (message_Ack (getMsg m s)) s)
  end.

(** [messageWriter.Ack] (the consume-latency timer is not modelled). *)
Definition Ack (mt : metadata) (s : world) : bool * world :=
  let '((acked, _), s') := acks_ack mt s in
  if acked then
    (true, set_metrics (fun m =>
             Metrics (writeAfterCutoff m) (writeBeforeCutover m)
                     (messageAcked m + 1) (enqueuedMessages m)
                     (dequeuedMessages m)) s')
  else (false, s').

(** [messageWriter.QueueSize] *)
Definition QueueSize (s : world) : Z := acks_size (mw_acks (mw s)).

(** [SetCutoffNanos], [SetCutoverNanos], [SetMessageTTLNanos] *)
Definition SetCutoffNanos (nanos : Z) (s : world) : world :=
  set_mw (with_cutOffNanos nanos) s.
Definition SetCutoverNanos (nanos : Z) (s : world) : world :=
  set_mw (with_cutOverNanos nanos) s.
Definition SetMessageTTLNanos (nanos : Z) (s : world) : world :=
  set_mw (with_messageTTLNanos nanos) s.

(** ** The scan loop *)

(** [messageWriter.removeFromQueueWithLock] *)
Definition removeFromQueueWithLock (e : handle) (s : world) : world :=
  let s := set_mw (fun w => with_queue (Remove e (queue w)) w) s in
  let s := set_metrics (fun m =>
             Metrics (writeAfterCutoff m) (writeBeforeCutover m)
                     (messageAcked m) (enqueuedMessages m)
                     (dequeuedMessages m + 1)) s in
  close e s.

(** How one pass through the body of the loop in [scanBatchWithLock] ends. *)
Inductive control := Continue | Break.

(** What the loop carries: the stores, the per-scan counters and
    [w.msgsToWrite]. *)
Record scanAcc := ScanAcc {
  sa_world : world;
  sa_metrics : scanBatchMetrics;
  sa_msgsToWrite : list handle
}.

(** The body of the [for] loop of [scanBatchWithLock], from the line that
    reads the element's message on, for the element [e]. *)
Definition scanElement (e : handle) (nowNanos : Z) (fullScan : bool)
    (a : scanAcc) : option (control * scanAcc) :=
  let s := sa_world a in
  let sm := sa_metrics a in
  let msgs := sa_msgsToWrite a in
  let m := getMsg e s in
  if isClosed (mw s) then
    let sm := sm_inc _processedClosed sm in
    let '(_, s) := acks_ack (meta m) s in
    let s := removeFromQueueWithLock e s in
    let sm := sm_inc _messageClosed sm in
    Some (Continue, ScanAcc s sm msgs)
  else if retryAtNanos m >=? nowNanos then
    let sm := sm_inc _processedNotReady sm in
    if negb fullScan then Some (Break, ScanAcc s sm msgs)
    else Some (Continue, ScanAcc s sm msgs)
  else if (messageTTLNanos (mw s) >? 0)
          && (wrap64 (initNanos m + messageTTLNanos (mw s)) <=? nowNanos) then
    let sm := sm_inc _processedTTL sm in
    let '((acked, _), s) := acks_ack (meta m) s in
    let sm := if acked then sm_inc _messageDroppedTTLExpire sm else sm in
    let s := removeFromQueueWithLock e s in
    Some (Continue, ScanAcc s sm msgs)
  else if isAcked m then
    let sm := sm_inc _processedAck sm in
    let s := removeFromQueueWithLock e s in
    Some (Continue, ScanAcc s sm msgs)
  else
    match IsDroppedOrConsumed e s with
    | None => None
    | Some true =>
        let sm := sm_inc _processedDrop sm in
        if isAcked (getMsg e s) then Some (Continue, ScanAcc s sm msgs)
        else
          let s := set_mw (fun w => with_acks (acks_remove (meta m) (mw_acks w)) w) s in
          let s := removeFromQueueWithLock e s in
          let sm := sm_inc _messageDroppedBufferFull sm in
          Some (Continue, ScanAcc s sm msgs)
    | Some false =>
        let s := setMsg e (message_IncWriteTimes (getMsg e s)) s in
        let writeTimes := writeTimes (getMsg e s) in
        match nextRetryAfterNanos (mw s) writeTimes with
        | None => None
        | Some backoff =>
            let s := setMsg e (message_SetRetryAtNanos
                                 (wrap64 (backoff + nowNanos)) (getMsg e s)) s in
            let sm := if writeTimes >? 1 then sm_inc _messageRetry sm else sm in
            let sm := sm_inc _processedWrite sm in
            Some (Continue, ScanAcc s sm (msgs ++ [e]))
        end
    end.

(** The [for] loop of [scanBatchWithLock] over the elements [es] still to
    visit; [next] is the loop's variable of that name. *)
Fixpoint scanLoop (es : list handle) (iterated : Z) (next : option handle)
    (nowNanos batchSize : Z) (fullScan : bool) (a : scanAcc)
  : option (option handle * scanAcc) :=
  match es with
  | [] => Some (next, a)
  | e :: rest =>
      let iterated := wrap64 (iterated + 1) in
      if iterated >? batchSize then Some (next, a)
      else
        let next := head rest in
        match scanElement e nowNanos fullScan a with
        | None => None
        | Some (Break, a') => Some (next, a')
        | Some (Continue, a') =>
            scanLoop rest iterated next nowNanos batchSize fullScan a'
        end
  end.

(** [messageWriter.scanBatchWithLock]: returns the element to resume from,
    the messages to write, the counters and the stores. *)
Definition scanBatchWithLock (start : option handle) (nowNanos batchSize : Z)
    (fullScan : bool) (sm : scanBatchMetrics) (s : world)
  : option (option handle * scanAcc) :=
  let es := match start with
            | Some e => elementsFrom e (queue (mw s))
            | None => []
            end in
  scanLoop es 0 None nowNanos batchSize fullScan (ScanAcc s sm []).

(** ** Sending a batch *)

(** What the environment decides about the network writes of one batch:
    whether the writer has consumer writers at all, whether the consumer's
    [Write] of a given message fails, and the clock read when a message is
    sent (encoding and the choice among the replicas do not touch the
    writer's state and are not modelled). *)
Record ioEnv := IoEnv {
  io_noWriters : bool;
  io_writeFails : handle -> bool;
  io_sentAt : handle -> Z
}.

(** [messageWriter.write] for one message; the boolean is [err != nil]. The
    envelope's reads-in-flight counter goes up and down again and its
    sent-at time is set; an invalid payload is skipped without error. *)
Definition write (io : ioEnv) (h : handle) (s : world)
  : option (bool * world) :=
  let m := getMsg h s in
  let s := setMsg h (Message (meta m) (rm m) (initNanos m)
                       (expectedProcessAtNanos m) (retryAtNanos m)
                       (writeTimes m) (io_sentAt io h) (isAcked m)
                       (readsInFlight m)) s in
  match IsDroppedOrConsumed h s with
  | None => None
  | Some true => Some (false, s)
  | Some false => Some (io_writeFails io h, s)
  end.

(** The loop of [messageWriter.writeBatch]: stops at the first failing
    write. *)
Fixpoint writeMessages (io : ioEnv) (messages : list handle) (s : world)
  : option (bool * world) :=
  match messages with
  | [] => Some (false, s)
  | h :: rest =>
      match write io h s with
      | None => None
      | Some (true, s) => Some (true, s)
      | Some (false, s) => writeMessages io rest s
      end
  end.

(** [messageWriter.writeBatch] *)
Definition writeBatch (io : ioEnv) (messages : list handle) (s : world)
  : option (bool * world) :=
  if io_noWriters io then Some (true, s) else writeMessages io messages s.

(** ** One scan, section by section *)

(** The local variables of [scanMessageQueue] that live across the batches.
    [sc_e = None] once the [for e != nil] loop is over. *)
Record scanner := Scanner {
  sc_e : option handle;
  sc_fullScan : bool;
  sc_beforeBatchNanos : Z;
  sc_skipWrites : bool;
  sc_scanMetrics : scanBatchMetrics
}.

(** The head of [scanMessageQueue]: the section under [RLock] and the
    declarations after it. *)
Definition scanStart (beforeScan : Z) (s : world) : scanner * world :=
  let e := head (queue (mw s)) in
  let s := set_mw (with_lastNewWrite None) s in
  let closed := isClosed (mw s) in
  (Scanner e (closed || (beforeScan >? nextFullScan (mw s))) beforeScan false
           zeroScanBatchMetrics, s).

(** One pass through the body of [for e != nil] in [scanMessageQueue]:
    a batch under the lock, then the writes without it. [nowNanos] is the
    clock reading after the writes. [None] is a panic. *)
Definition scanIteration (io : ioEnv) (nowNanos : Z) (sc : scanner)
    (s : world) : option (scanner * world) :=
  match scanBatchWithLock (sc_e sc) (sc_beforeBatchNanos sc)
          (MessageQueueScanBatchSize (opts (mw s))) (sc_fullScan sc)
          (sc_scanMetrics sc) s with
  | None => None
  | Some (e, a) =>
      let s := sa_world a in
      let sm := sa_metrics a in
      let msgsToWrite := sa_msgsToWrite a in
      if negb (sc_fullScan sc) && (length msgsToWrite =? 0)%nat then
        Some (Scanner None (sc_fullScan sc) (sc_beforeBatchNanos sc)
                (sc_skipWrites sc) sm, s)
      else if sc_skipWrites sc then
        Some (Scanner e (sc_fullScan sc) (sc_beforeBatchNanos sc) true sm, s)
      else
        match writeBatch io msgsToWrite s with
        | None => None
        | Some (err, s) => Some (Scanner e (sc_fullScan sc) nowNanos err sm, s)
        end
  end.

(** The tail of [scanMessageQueue], after the loop. *)
Definition scanEnd (afterScan : Z) (sc : scanner) (s : world) : world :=
  if sc_fullScan sc then
    set_mw (with_nextFullScan
              (afterScan + MessageQueueFullScanInterval (opts (mw s)))) s
  else s.

(** [scanMessageQueue] run without anything interleaved: [io k] and
    [clock k] are the environment of the [k]-th batch and the reading of
    the clock after it. The loop leaves at least one element behind it in
    every pass, so [fuel] beyond the length of the queue is never used up. *)
Fixpoint scanIterations (fuel : nat) (io : nat -> ioEnv) (clock : nat -> Z)
    (k : nat) (sc : scanner) (s : world) : option (scanner * world) :=
  match sc_e sc with
  | None => Some (sc, s)
  | Some _ =>
      match fuel with
      | O => Some (sc, s)
      | S fuel' =>
          match scanIteration (io k) (clock k) sc s with
          | None => None
          | Some (sc', s') => scanIterations fuel' io clock (S k) sc' s'
          end
      end
  end.

Definition scanMessageQueue (io : nat -> ioEnv) (beforeScan : Z)
    (clock : nat -> Z) (afterScan : Z) (s : world) : option world :=
  let '(sc, s) := scanStart beforeScan s in
  match scanIterations (S (length (queue (mw s)))) io clock 0%nat sc s with
  | None => None
  | Some (sc', s') => Some (scanEnd afterScan sc' s')
  end.

(** ** The writer with its worker and the callers of Close *)

(** The goroutine started by [Init], running
    [scanMessageQueueUntilClose]. *)
Inductive workerState :=
  | WNotStarted
  | WIdle                       (* in the [select] *)
  | WScanning (sc : scanner)    (* inside [scanMessageQueue] *)
  | WExited.

(** Where a call of [Close] stands once its locked section is over. *)
Inductive closePc :=
  | PcWaiting                   (* in [waitUntilAllMessageRemoved] *)
  | PcClosingDone               (* before [close(w.doneCh)] *)
  | PcJoining                   (* in [w.wg.Wait()] *)
  | PcReturned (early : bool).  (* [early]: returned from the locked section *)

Record system := System {
  sys_world : world;
  sys_doneCh : bool;            (* [w.doneCh] is closed *)
  sys_worker : workerState;
  sys_closers : list closePc    (* the calls of [Close], oldest first *)
}.

Inductive panic :=
  | PanicCloseOfClosedChannel
  | PanicInScan.

Inductive outcome :=
  | Ok (σ : system)
  | NotEnabled
  | Panics (p : panic).

(** The atomic sections of the methods, as the writer's lock and the ack
    table's mutex delimit them. *)
Inductive action :=
  | ActWrite (r : payloadRef) (nowNanos : Z)
  | ActAck (mt : metadata)
  | ActDrop (r : payloadRef)
  | ActSetCutoffNanos (nanos : Z)
  | ActSetCutoverNanos (nanos : Z)
  | ActSetMessageTTLNanos (nanos : Z)
  | ActInit
  | ActScanStart (beforeScan : Z)
  | ActScanBatch (io : ioEnv) (nowNanos : Z)
  | ActScanEnd (afterScan : Z)
  | ActWorkerExit
  | ActCloseLock
  | ActCloseStep (i : nat).

Definition set_world (f : world -> world) (σ : system) : system :=
  System (f (sys_world σ)) (sys_doneCh σ) (sys_worker σ) (sys_closers σ).
Definition set_worker (v : workerState) (σ : system) : system :=
  System (sys_world σ) (sys_doneCh σ) v (sys_closers σ).
Definition set_closers (v : list closePc) (σ : system) : system :=
  System (sys_world σ) (sys_doneCh σ) (sys_worker σ) v.

(** The locked section of [Close]: a call that finds the flag set returns;
    the call that sets it goes on to wait. *)
Definition closeLock (σ : system) : system :=
  if isClosed (mw (sys_world σ)) then
    set_closers (sys_closers σ ++ [PcReturned true]) σ
  else
    set_closers (sys_closers σ ++ [PcWaiting])
      (set_world (set_mw (with_isClosed true)) σ).

(** [messageWriter.isEmpty] *)
Definition isEmpty (s : world) : bool := (length (queue (mw s)) =? 0)%nat.

(** The rest of [Close] for the [i]-th call, one step at a time: a poll of
    [isEmpty], [close(w.doneCh)], [w.wg.Wait()]. *)
Definition closeStep (i : nat) (σ : system) : outcome :=
  match sys_closers σ !! i with
  | Some PcWaiting =>
      if isEmpty (sys_world σ) then
        Ok (set_closers (<[i := PcClosingDone]> (sys_closers σ)) σ)
      else Ok σ
  | Some PcClosingDone =>
      if sys_doneCh σ then Panics PanicCloseOfClosedChannel
      else Ok (System (sys_world σ) true (sys_worker σ)
                      (<[i := PcJoining]> (sys_closers σ)))
  | Some PcJoining =>
      match sys_worker σ with
      | WNotStarted | WExited =>
          Ok (set_closers (<[i := PcReturned false]> (sys_closers σ)) σ)
      | _ => NotEnabled
      end
  | _ => NotEnabled
  end.

Definition step (a : action) (σ : system) : outcome :=
  match a with
  | ActWrite r nowNanos => Ok (set_world (Write r nowNanos) σ)
  | ActAck mt => Ok (set_world (fun s => snd (Ack mt s)) σ)
  | ActDrop r => Ok (set_world (payload_Drop r) σ)
  | ActSetCutoffNanos n => Ok (set_world (SetCutoffNanos n) σ)
  | ActSetCutoverNanos n => Ok (set_world (SetCutoverNanos n) σ)
  | ActSetMessageTTLNanos n => Ok (set_world (SetMessageTTLNanos n) σ)
  | ActInit =>
      match sys_worker σ with
      | WNotStarted => Ok (set_worker WIdle σ)
      | _ => NotEnabled
      end
  | ActScanStart beforeScan =>
      match sys_worker σ with
      | WIdle =>
          let '(sc, s) := scanStart beforeScan (sys_world σ) in
          Ok (set_worker (WScanning sc) (set_world (fun _ => s) σ))
      | _ => NotEnabled
      end
  | ActScanBatch io nowNanos =>
      match sys_worker σ with
      | WScanning sc =>
          match sc_e sc with
          | None => NotEnabled
          | Some _ =>
              match scanIteration io nowNanos sc (sys_world σ) with
              | None => Panics PanicInScan
              | Some (sc', s) =>
                  Ok (set_worker (WScanning sc') (set_world (fun _ => s) σ))
              end
          end
      | _ => NotEnabled
      end
  | ActScanEnd afterScan =>
      match sys_worker σ with
      | WScanning sc =>
          match sc_e sc with
          | None => Ok (set_worker WIdle (set_world (scanEnd afterScan sc) σ))
          | Some _ => NotEnabled
          end
      | _ => NotEnabled
      end
  | ActWorkerExit =>
      match sys_worker σ with
      | WIdle => if sys_doneCh σ then Ok (set_worker WExited σ) else NotEnabled
      | _ => NotEnabled
      end
  | ActCloseLock => Ok (closeLock σ)
  | ActCloseStep i => closeStep i σ
  end.

(** A trace of actions, run from left to right. *)
Fixpoint run (tr : list action) (σ : system) : outcome :=
  match tr with
  | [] => Ok σ
  | a :: tr' =>
      match step a σ with
      | Ok σ' => run tr' σ'
      | o => o
      end
  end.

(** A writer fresh from [newMessageWriter], before [Init]. *)
Definition newSystem (replicatedShardID : Z) (o : Options) : system :=
  System (newWorld replicatedShardID o) false WNotStarted [].

(** ** Retry schedulers *)

Inductive error :=
  | errInvalidBackoffDuration
  | errFailAllConsumers
  | errNoWriters.

(** A Go result pair [(value, error)]. *)
Inductive result (A : Type) :=
  | Okay (a : A)
  | Err (e : error).
Arguments Okay {A} a.
Arguments Err {A} e.

(** [s[i]] on a slice, with Go's bounds check: [None] is the run-time panic
    "index out of range". *)
Definition index (s : list Z) (i : Z) : option Z :=
  if i <? 0 then None else s !! Z.to_nat i.

(** [StaticRetryNanosFn] *)
Definition StaticRetryNanosFn (backoffDurations : list Z)
  : result MessageRetryNanosFn :=
  if (length backoffDurations =? 0)%nat then Err errInvalidBackoffDuration
  else
    let backoffInt64s := backoffDurations in
    Okay (fun writeTimes =>
            let retry := wrap64 (writeTimes - 1) in
            let l := Z.of_nat (length backoffInt64s) in
            if retry <? l then index backoffInt64s retry
            else index backoffInt64s (l - 1)).

(** IEEE-754 binary64, Go's [float64], on the reference implementation of
    the standard library ([spec_float]). *)
Module F64.

Definition prec : Z := 53.
Definition emax : Z := 1024.

Definition float64 := spec_float.

(** [float64(z)] for an integer [z]: the nearest double, ties to even. *)
Definition of_int (z : Z) : float64 := binary_normalize prec emax z 0 false.

Definition mul (x y : float64) : float64 := SFmul prec emax x y.
Definition eqb (x y : float64) : bool := SFeqb x y.

Definition zero : float64 := S754_zero false.
Definition one : float64 := S754_finite false 4503599627370496 (-52).

(** The integer part of a finite double, towards zero. *)
Definition trunc (x : float64) : option Z :=
  match x with
  | S754_zero _ => Some 0
  | S754_finite s m e =>
      let a := if 0 <=? e then Zpos m * 2 ^ e else Zpos m / 2 ^ (- e) in
      Some (if s then - a else a)
  | _ => None
  end.

End F64.

(** What the Go platform supplies to [NextRetryNanosFn] and this repository
    does not define. *)
Record platform := Platform {
  (** [math.Pow(x, y)] outside the two special cases that [math_Pow] below
      spells out. *)
  math_Pow_rest : F64.float64 -> F64.float64 -> F64.float64;
  (** [int64(x)] for a double that no [int64] represents (too large,
      infinite, not a number): the Go specification leaves the result to the
      implementation. *)
  int64_of_unrepresentable : F64.float64 -> Z;
  (** Modelled from the spec: the draw of [unsafe.Fastrandn(n)], a cheap
      pseudo-random [uint32] used for the jitter ([x/unsafe] is not among
      the sources). *)
  Fastrandn : Z -> Z
}.

(** [math.Pow], with the special cases the library documents first:
    [Pow(x, ±0) = 1] and [Pow(1, y) = 1] for any [x], [y], then
    [Pow(x, 1) = x]. *)
Definition math_Pow (rt : platform) (x y : F64.float64) : F64.float64 :=
  if F64.eqb y F64.zero || F64.eqb x F64.one then F64.one
  else if F64.eqb y F64.one then x
  else math_Pow_rest rt x y.

(** The conversion [int64(x)] of a double. *)
Definition int64_of_float64 (rt : platform) (x : F64.float64) : Z :=
  match F64.trunc x with
  | Some z =>
      if (min_int64 <=? z) && (z <=? max_int64) then z
      else int64_of_unrepresentable rt x
  | None => int64_of_unrepresentable rt x
  end.

(** The part of [retry.Options] that [NextRetryNanosFn] reads; durations are
    nanoseconds. *)
Record retryOptions := RetryOptions {
  Jitter : bool;
  BackoffFactor : F64.float64;
  InitialBackoff : Z;
  MaxBackoff : Z
}.

(** [NextRetryNanosFn]. Go's [/] on integers truncates towards zero
    ([Z.quot]). *)
Definition NextRetryNanosFn (rt : platform) (retryOpts : retryOptions)
  : MessageRetryNanosFn :=
  let jitter := Jitter retryOpts in
  let backoffFactor := BackoffFactor retryOpts in
  let initialBackoff := InitialBackoff retryOpts in
  let maxBackoff := MaxBackoff retryOpts in
  let initialBackoffFloat := F64.of_int initialBackoff in
  fun writeTimes =>
    let backoff := initialBackoff in
    let backoff :=
      if writeTimes >=? 1 then
        let backoffFloat64 :=
          F64.mul initialBackoffFloat
            (math_Pow rt backoffFactor (F64.of_int (wrap64 (writeTimes - 1)))) in
        int64_of_float64 rt backoffFloat64
      else backoff in
    let halfInMicros := Z.quot (Z.quot backoff 2) 1000 in
    let backoff :=
      if jitter && (backoff >=? 2) && (halfInMicros <? max_uint32) then
        let jitterInMicros := Fastrandn rt (wrapu32 halfInMicros) in
        let jitterInNanos := wrap64 (jitterInMicros * 1000) in
        let halfInNanos := wrap64 (halfInMicros * 1000) in
        wrap64 (halfInNanos + jitterInNanos)
      else backoff in
    let backoff := if backoff >? maxBackoff then maxBackoff else backoff in
    Some backoff.


(** ** Sequences of calls and sample states *)

(** A sequence of [Ack] calls, with the result of each. *)
Fixpoint AckAll (mts : list metadata) (s : world) : list bool * world :=
  match mts with
  | [] => ([], s)
  | mt :: rest =>
      let '(b, s1) := Ack mt s in
      let '(bs, s2) := AckAll rest s1 in
      (b :: bs, s2)
  end.

(** How many calls of a sequence were for the id [i] and returned true. *)
Fixpoint ackedTrue (i : Z) (mts : list metadata) (bs : list bool) : nat :=
  match mts, bs with
  | mt :: mts', b :: bs' =>
      ((if b && (id mt =? i)%Z then 1 else 0) + ackedTrue i mts' bs')%nat
  | _, _ => 0%nat
  end.

(** A writer for shard 7 with a constant backoff of 10ns, a scan batch size
    of 16 and cutoff and cutover unset. *)
Definition exRetry : MessageRetryNanosFn := fun _ => Some 10.
Definition exOptions : Options := MkOptions false 16 1000000000 exRetry.
Definition exSystem : system := newSystem 7 exOptions.
Definition exWorld : world := newWorld 7 exOptions.

(** The same writer after [Close] has set the closed flag. *)
Definition exClosed : world := sys_world (closeLock exSystem).

(** One message (envelope 0, id 1) written at time 100 ... *)
Definition exWritten : world := Write 1%nat 100 exWorld.

(** ... and picked for sending by a batch at time 200, which schedules its
    retry at 210. *)
Definition exSent : world :=
  match scanBatchWithLock (Some 0%nat) 200 16 true zeroScanBatchMetrics
          exWritten with
  | Some (_, a) => sa_world a
  | None => exWritten
  end.

(** The queue and the last-new-write cursor after the insertion that ends
    [Write], from the queue and the cursor before it. *)
Definition enqueued (msg : handle) (q : list handle) (lnw : option handle)
  : list handle * option handle :=
  match lnw with
  | Some mark =>
      match InsertAfter msg mark q with
      | Some q' => (q', Some msg)
      | None => (q, None)
      end
  | None => (PushFront msg q, Some msg)
  end.

(** The loop state in which a batch starts on [exSent]. *)
Definition exAcc : scanAcc := ScanAcc exSent zeroScanBatchMetrics [].

(** A network on which every write succeeds, with the clock at 201. *)
Definition exIo : ioEnv := IoEnv false (fun _ => false) (fun _ => 201).

(** A message A written at time 100; one scan, which sends A and leaves it
    in the queue to wait for its ack; then a message B written at 300. *)
Definition exTrace : list action :=
  [ActInit; ActWrite 1%nat 100; ActScanStart 200; ActScanBatch exIo 201;
   ActScanEnd 202; ActWrite 2%nat 300].

(** A is acked and the next scan takes it out of the queue. *)
Definition exTraceAcked : list action :=
  exTrace ++ [ActAck (Metadata 7 1); ActScanStart 400; ActScanBatch exIo 401;
              ActScanEnd 402].

(** A writer whose retry function is the static table 10, 20, 30. *)
Definition exStaticRetry : MessageRetryNanosFn :=
  match StaticRetryNanosFn [10; 20; 30] with
  | Okay f => f
  | Err _ => fun _ => None
  end.
Definition exStaticOptions : Options :=
  MkOptions false 16 1000000000 exStaticRetry.

(** The value [NextRetryNanosFn] computes in floating point for a write
    count of at least 1: [int64(initialBackoffFloat * math.Pow(backoffFactor,
    float64(writeTimes-1)))]. *)
Definition floatBackoff (rt : platform) (retryOpts : retryOptions)
    (writeTimes : Z) : Z :=
  int64_of_float64 rt
    (F64.mul (F64.of_int (InitialBackoff retryOpts))
       (math_Pow rt (BackoffFactor retryOpts)
          (F64.of_int (wrap64 (writeTimes - 1))))).

(** Whether [NextRetryNanosFn] applies the jitter to a backoff. *)
Definition jitterApplies (retryOpts : retryOptions) (backoff : Z) : bool :=
  Jitter retryOpts && (backoff >=? 2)
  && (Z.quot (Z.quot backoff 2) 1000 <? max_uint32).

(** A platform on which every draw is 0 and the conversion of an
    unrepresentable double gives the smallest [int64] (as on amd64); the
    examples below stay within the two special cases of [math.Pow]. *)
Definition exPlatform : platform :=
  Platform (fun _ _ => S754_nan) (fun _ => min_int64) (fun _ => 0).

(** The doubles 2 and 0.5. *)
Definition f64_two : F64.float64 := S754_finite false 4503599627370496 (-51).
Definition f64_half : F64.float64 := S754_finite false 4503599627370496 (-53).

(** Exponential backoff from 10ms, doubling, at most one minute: with and
    without jitter. *)
Definition exJitter : retryOptions :=
  RetryOptions true f64_two 10000000 60000000000.
Definition exNoJitter : retryOptions :=
  RetryOptions false f64_two 10000000 60000000000.

(** A backoff factor of one half, without jitter. *)
Definition exHalving : retryOptions :=
  RetryOptions false f64_half 100 1000.

(** ** What a scan may change, and the invariants of the writer *)

(** The ack table after some deletions, each of them counted by [ack] or
    by [remove]. *)
Definition acks_evolve (a a' : acks) : Prop :=
  hist_added a' = hist_added a /\
  (forall k h, acks_map a' !! k = Some h -> acks_map a !! k = Some h) /\
  (size (acks_map a') + hist_acked a' + hist_removed a' =
   size (acks_map a) + hist_acked a + hist_removed a)%nat.

(** As long as the id counter has not wrapped around: the counter equals the
    number of [add] calls, every id in the table was handed out, and the
    table's size is the number of additions minus the counted deletions. *)
Definition ack_inv (s : world) : Prop :=
  let a := mw_acks (mw s) in
  Z.of_nat (hist_added a) < 2 ^ 64 ->
  msgID (mw s) = Z.of_nat (hist_added a) /\
  (forall k h, acks_map a !! k = Some h -> 0 < k <= msgID (mw s)) /\
  (size (acks_map a) + hist_acked a + hist_removed a = hist_added a)%nat.

(** The fields of an envelope that the invariants speak about. *)
Definition rm_wt (m : message) : option payloadRef * Z := (rm m, writeTimes m).

(** The writer's fields other than the queue and the ack table. *)
Definition same_config (w w' : messageWriter) : Prop :=
  replicatedShardID w' = replicatedShardID w /\
  opts w' = opts w /\
  nextRetryAfterNanos w' = nextRetryAfterNanos w /\
  msgID w' = msgID w /\
  cutOffNanos w' = cutOffNanos w /\
  cutOverNanos w' = cutOverNanos w /\
  messageTTLNanos w' = messageTTLNanos w /\
  isClosed w' = isClosed w /\
  nextFullScan w' = nextFullScan w /\
  lastNewWrite w' = lastNewWrite w.

(** What the loop body of [scanBatchWithLock] may do for the element [e]:
    the queue stays or loses [e]; the ack table only loses counted entries;
    no envelope is allocated; the other envelopes keep their payload and
    write count; [e], if it stays, keeps its payload and has its write count
    left alone or incremented, and only then joins the messages to write. *)
Definition element_effect (e : handle) (a a' : scanAcc) : Prop :=
  let s := sa_world a in
  let s' := sa_world a' in
  same_config (mw s) (mw s') /\
  acks_evolve (mw_acks (mw s)) (mw_acks (mw s')) /\
  poolNext (mPool s') = poolNext (mPool s) /\
  (forall h, h <> e -> rm_wt (getMsg h s') = rm_wt (getMsg h s)) /\
  ((queue (mw s') = Remove e (queue (mw s)) /\
    sa_msgsToWrite a' = sa_msgsToWrite a) \/
   (queue (mw s') = queue (mw s) /\
    rm (getMsg e s') = rm (getMsg e s) /\
    ((writeTimes (getMsg e s') = writeTimes (getMsg e s) /\
      sa_msgsToWrite a' = sa_msgsToWrite a) \/
     (writeTimes (getMsg e s') = wrap64 (writeTimes (getMsg e s) + 1) /\
      rm (getMsg e s) <> None /\
      sa_msgsToWrite a' = sa_msgsToWrite a ++ [e])))).

(** A queued envelope was handed out by the pool, carries a payload and has
    a write count between 0 and [K] (as long as [K] is below the largest
    [int]). *)
Definition msg_ok (K : Z) (s : world) (h : handle) : Prop :=
  (h < poolNext (mPool s))%nat /\
  rm (getMsg h s) <> None /\
  (K < max_int64 -> 0 <= writeTimes (getMsg h s) <= K).

(** The state of the queue between two scans. [block] lists the envelopes
    of the writes admitted since the last scan started, oldest first: they
    are the head of the queue, the last-new-write cursor is on the last of
    them, and the element a running scan resumes from lies behind them. No
    envelope is queued twice, and every queued envelope is [msg_ok] for the
    bound [K], which counts the batches scanned so far. *)
Definition queue_inv (K : Z) (block : list handle) (cursor : option handle)
    (s : world) : Prop :=
  exists old,
    queue (mw s) = block ++ old /\
    lastNewWrite (mw s) = last block /\
    NoDup (block ++ old) /\
    (forall c, cursor = Some c -> c ∈ old) /\
    (forall h, h ∈ queue (mw s) -> msg_ok K s h).

(** The element a running scan resumes from. *)
Definition cursor_of (wk : workerState) : option handle :=
  match wk with
  | WScanning sc => sc_e sc
  | _ => None
  end.

(** The calls of [Close]: none yet and the writer open; or the first one,
    which set the flag and alone goes through the wait, the closing of the
    done channel and the join, followed by calls that returned from the
    locked section. *)
Definition close_inv (σ : system) : Prop :=
  match sys_closers σ with
  | [] => isClosed (mw (sys_world σ)) = false /\ sys_doneCh σ = false
  | first :: others =>
      isClosed (mw (sys_world σ)) = true /\
      first <> PcReturned true /\
      Forall (fun pc => pc = PcReturned true) others /\
      (sys_doneCh σ = true <-> first = PcJoining \/ first = PcReturned false)
  end.

(** The envelopes of the writes admitted since the last scan started, after
    the action [a] taken in [σ], given those before it. *)
Definition next_block (a : action) (σ : system) (block : list handle)
  : list handle :=
  match a with
  | ActWrite r nowNanos =>
      let s := sys_world σ in
      if fst (isValidWriteWithLock nowNanos (mw s) (metrics s))
      then block ++ [poolNext (mPool s)]
      else block
  | ActScanStart _ =>
      match sys_worker σ with
      | WIdle => []
      | _ => block
      end
  | _ => block
  end.

(** The same along a trace. *)
Fixpoint recentWrites (tr : list action) (σ : system) (block : list handle)
  : list handle :=
  match tr with
  | [] => block
  | a :: tr' =>
      match step a σ with
      | Ok σ' => recentWrites tr' σ' (next_block a σ block)
      | _ => block
      end
  end.

(** 1 for a [Write] that passes admission, 0 for any other action. *)
Definition admitted (a : action) (σ : system) : nat :=
  match a with
  | ActWrite r nowNanos =>
      let s := sys_world σ in
      if fst (isValidWriteWithLock nowNanos (mw s) (metrics s))
      then 1%nat else 0%nat
  | _ => 0%nat
  end.

(** How many [Write] calls of a trace passed admission. *)
Fixpoint admittedWrites (tr : list action) (σ : system) : nat :=
  match tr with
  | [] => 0%nat
  | a :: tr' =>
      match step a σ with
      | Ok σ' => (admitted a σ + admittedWrites tr' σ')%nat
      | _ => 0%nat
      end
  end.

(** The invariant of the whole system after [K] steps. *)
Definition sys_inv (K : Z) (block : list handle) (σ : system) : Prop :=
  0 <= K /\
  queue_inv K block (cursor_of (sys_worker σ)) (sys_world σ) /\
  ack_inv (sys_world σ) /\
  close_inv σ.

(** How many [Ack] calls of a trace were for the id [i] and returned true. *)
Fixpoint ackTrueCount (i : Z) (tr : list action) (σ : system) : nat :=
  match tr with
  | [] => 0%nat
  | a :: tr' =>
      match step a σ with
      | Ok σ' =>
          (match a with
           | ActAck mt =>
               if (id mt =? i)%Z && fst (Ack mt (sys_world σ))
               then 1%nat else 0%nat
           | _ => 0%nat
           end + ackTrueCount i tr' σ')%nat
      | _ => 0%nat
      end
  end.

(** ** The ack table against the queue *)

(** Every entry of the ack table points to a queued envelope that carries
    the entry's id and is not flagged acked; as long as the id counter has
    not wrapped around, every queued envelope that is not flagged acked is
    in the table under its id; and the enqueued and dequeued counters differ
    by the length of the queue. *)
Definition table_inv (s : world) : Prop :=
  (forall k h, acks_map (mw_acks (mw s)) !! k = Some h ->
     h ∈ queue (mw s) /\ id (meta (getMsg h s)) = k /\
     isAcked (getMsg h s) = false) /\
  (Z.of_nat (hist_added (mw_acks (mw s))) < 2 ^ 64 ->
   forall h, h ∈ queue (mw s) -> isAcked (getMsg h s) = false ->
     acks_map (mw_acks (mw s)) !! id (meta (getMsg h s)) = Some h) /\
  enqueuedMessages (metrics s) - dequeuedMessages (metrics s) =
    Z.of_nat (length (queue (mw s))).

(** ** The consumer writers and the choice among them *)

(** Modelled from the spec: the [consumerWriter] interface (section 6;
    [consumer_writer.go] is not among the sources), as far as the writer
    reads it: the address of the replica and the buffer it has available on
    a connection. Its [ForcedFlush] and [Write] act on the network; what the
    writer sees of them is in [flushEnv] below. *)
Record consumerWriter := ConsumerWriter {
  Address : string;
  AvailableBuffer : Z -> Z
}.

(** The fields [consumerWriters] and [iterationIndexes] of
    [messageWriter]. *)
Record writerSet := WriterSet {
  consumerWriters : list consumerWriter;
  iterationIndexes : list Z
}.

(** Both are nil in a writer fresh from [newMessageWriter]. *)
Definition newWriterSet : writerSet := WriterSet [] [].

(** [make([]int, n)] filled by [for i := range s { s[i] = i }]. *)
Definition identityIndexes (n : nat) : list Z := map Z.of_nat (seq 0 n).

(** [messageWriter.AddConsumerWriter] *)
Definition AddConsumerWriter (cw : consumerWriter) (w : writerSet)
  : writerSet :=
  let newConsumerWriters := consumerWriters w ++ [cw] in
  WriterSet newConsumerWriters
            (identityIndexes (length newConsumerWriters)).

(** [messageWriter.RemoveConsumerWriter]. The new slice is made with the
    capacity [len(w.consumerWriters)-1]: without a consumer writer that is
    -1, and [make] panics (makeslice: cap out of range): [None]. *)
Definition RemoveConsumerWriter (addr : string) (w : writerSet)
  : option writerSet :=
  if Z.of_nat (length (consumerWriters w)) - 1 <? 0 then None
  else
    let newConsumerWriters :=
      filter (fun cw => Address cw ≠ addr) (consumerWriters w) in
    Some (WriterSet newConsumerWriters
                    (identityIndexes (length newConsumerWriters))).

(** [s[i]] on a slice of any element type, with the bounds check. *)
Definition at_index {A : Type} (s : list A) (i : Z) : option A :=
  if i <? 0 then None else s !! Z.to_nat i.

(** The loop of [getConsumerWriterWithMaxBuffer] from index 1 on. *)
Fixpoint maxBufferLoop (rest : list consumerWriter) (connIndex : Z)
    (max : consumerWriter) (maxBufSize : Z) : consumerWriter * Z :=
  match rest with
  | [] => (max, maxBufSize)
  | cw :: rest' =>
      let bufSize := AvailableBuffer cw connIndex in
      if bufSize >? maxBufSize then maxBufferLoop rest' connIndex cw bufSize
      else maxBufferLoop rest' connIndex max maxBufSize
  end.

(** [messageWriter.getConsumerWriterWithMaxBuffer]; [consumerWriters[0]]
    panics on an empty slice. *)
Definition getConsumerWriterWithMaxBuffer
    (consumerWriters : list consumerWriter) (connIndex : Z)
  : option (consumerWriter * Z) :=
  match consumerWriters with
  | [] => None
  | cw0 :: rest =>
      Some (maxBufferLoop rest connIndex cw0 (AvailableBuffer cw0 connIndex))
  end.

(** The counters of [messageWriterMetrics] that [chooseConsumerWriter] and
    [waitForForcedFlush] increment ([forcedFlushFailedOne] is incremented by
    the flushing goroutines themselves, possibly after the choice is
    made, and the latency timer is not modelled). *)
Record flushMetrics := FlushMetrics {
  forcedFlushSingleConsumer : Z;
  forcedFlush : Z;
  forcedFlushNotEnoughBuffer : Z;
  forcedFlushTimeout : Z;
  forcedFlushFailedAll : Z
}.

(** What one pass of the [select] in [waitForForcedFlush] receives: a value
    from the done channel, which is the index of a writer whose forced
    flush returned or -1 for one whose flush failed, or the tick of the
    timeout. *)
Inductive flushEvent :=
  | FlushDone (idx : Z)
  | FlushTick.

(** What the network decides during a forced flush: the order in which the
    goroutines started by [beginForcedFlush] and the ticker deliver, and the
    buffer a writer reports once its flush is over. *)
Record flushEnv := FlushEnv {
  fl_events : nat -> flushEvent;
  fl_bufferAfter : consumerWriter -> Z -> Z
}.

(** The [waitLoop] of [waitForForcedFlush]: [n] passes are left, [k] were
    made. The result is the local variable [cw], nil or not. *)
Fixpoint waitLoop (n : nat) (events : nat -> flushEvent) (k : nat)
    (consumerWriters : list consumerWriter) (m : flushMetrics)
  : option (option consumerWriter * flushMetrics) :=
  match n with
  | O => Some (None, m)
  | S n' =>
      match events k with
      | FlushDone idx =>
          if idx =? -1 then waitLoop n' events (S k) consumerWriters m
          else
            match at_index consumerWriters idx with
            | Some cw => Some (Some cw, m)
            | None => None
            end
      | FlushTick =>
          Some (None,
                FlushMetrics (forcedFlushSingleConsumer m) (forcedFlush m)
                  (forcedFlushNotEnoughBuffer m) (forcedFlushTimeout m + 1)
                  (forcedFlushFailedAll m))
      end
  end.

(** [messageWriter.waitForForcedFlush]; [time.NewTicker] panics on a
    duration that is not positive. *)
Definition waitForForcedFlush (forcedFlushTimeoutNanos : Z)
    (events : nat -> flushEvent) (consumerWriters : list consumerWriter)
    (m : flushMetrics) : option (option consumerWriter * flushMetrics) :=
  if forcedFlushTimeoutNanos <=? 0 then None
  else
    match waitLoop (length consumerWriters) events 0%nat consumerWriters m with
    | None => None
    | Some (Some cw, m) => Some (Some cw, m)
    | Some (None, m) =>
        Some (None,
              FlushMetrics (forcedFlushSingleConsumer m) (forcedFlush m)
                (forcedFlushNotEnoughBuffer m) (forcedFlushTimeout m)
                (forcedFlushFailedAll m + 1))
    end.

(** [messageWriter.chooseConsumerWriter] *)
Definition chooseConsumerWriter (forcedFlushTimeoutNanos : Z)
    (env : flushEnv) (consumerWriters : list consumerWriter)
    (connIndex writeLen : Z) (m : flushMetrics)
  : option (consumerWriter * flushMetrics) :=
  if (length consumerWriters =? 1)%nat then
    match at_index consumerWriters 0 with
    | Some cw =>
        Some (cw, FlushMetrics (forcedFlushSingleConsumer m + 1)
                    (forcedFlush m) (forcedFlushNotEnoughBuffer m)
                    (forcedFlushTimeout m) (forcedFlushFailedAll m))
    | None => None
    end
  else
    match getConsumerWriterWithMaxBuffer consumerWriters connIndex with
    | None => None
    | Some (max, maxBuf) =>
        if maxBuf >=? writeLen then Some (max, m)
        else
          let m := FlushMetrics (forcedFlushSingleConsumer m)
                     (forcedFlush m + 1) (forcedFlushNotEnoughBuffer m)
                     (forcedFlushTimeout m) (forcedFlushFailedAll m) in
          match waitForForcedFlush forcedFlushTimeoutNanos (fl_events env)
                  consumerWriters m with
          | None => None
          | Some (Some cw, m) =>
              let m :=
                if fl_bufferAfter env cw connIndex <? writeLen then
                  FlushMetrics (forcedFlushSingleConsumer m) (forcedFlush m)
                    (forcedFlushNotEnoughBuffer m + 1)
                    (forcedFlushTimeout m) (forcedFlushFailedAll m)
                else m in
              Some (cw, m)
          | Some (None, m) => Some (max, m)
          end
    end.

(** The connection a shard is pinned to in [write]:
    [int(w.replicatedShardID % uint64(w.numConnections))]; the remainder
    panics on a zero divisor. *)
Definition connIndex (replicatedShardID numConnections : Z) : option Z :=
  let n := wrapu64 numConnections in
  if n =? 0 then None else Some (wrap64 (replicatedShardID mod n)).

(** Two replicas at the addresses a and b with 100 and 300 bytes of buffer
    on every connection. *)
Definition exWriterA : consumerWriter := ConsumerWriter "a" (fun _ => 100).
Definition exWriterB : consumerWriter := ConsumerWriter "b" (fun _ => 300).
Definition exWriters : writerSet :=
  AddConsumerWriter exWriterB (AddConsumerWriter exWriterA newWriterSet).

Definition zeroFlushMetrics : flushMetrics := FlushMetrics 0 0 0 0 0.

(** A forced flush in which replica a fails and replica b returns. *)
Definition exFlush : flushEnv :=
  FlushEnv (fun k => match k with O => FlushDone (-1) | _ => FlushDone 1 end)
           (fun _ _ => 1000).

(** ** The order of the queue *)

(** The envelopes of the writes admitted before the most recent scan
    started, in the order the queue had them when it started, after the
    action [a] taken in [σ]: a scan that starts moves the writes admitted
    since the scan before it to their front. *)
Definition next_older (a : action) (σ : system) (block older : list handle)
  : list handle :=
  match a with
  | ActScanStart _ =>
      match sys_worker σ with
      | WIdle => block ++ older
      | _ => older
      end
  | _ => older
  end.

(** The same along a trace. *)
Fixpoint olderWrites (tr : list action) (σ : system)
    (block older : list handle) : list handle :=
  match tr with
  | [] => older
  | a :: tr' =>
      match step a σ with
      | Ok σ' =>
          olderWrites tr' σ' (next_block a σ block) (next_older a σ block older)
      | _ => older
      end
  end.

(** [a] comes before [b] when [l] is traversed from the front. *)
Definition precedes (a b : handle) (l : list handle) : Prop :=
  exists l1 l2 l3, l = l1 ++ a :: l2 ++ b :: l3.

(** The queue is the writes admitted since the most recent scan started,
    followed by what is left of the older ones, in their order; no envelope
    was handed out twice. *)
Definition order_inv (block older : list handle) (s : world) : Prop :=
  exists old,
    queue (mw s) = block ++ old /\
    old `sublist_of` older /\
    NoDup (block ++ older) /\
    (forall h, h ∈ block ++ older -> (h < poolNext (mPool s))%nat).

(** Whether an action is the start of a scan. *)
Definition startsScan (a : action) : bool :=
  match a with
  | ActScanStart _ => true
  | _ => false
  end.

(** ** Powers of two in floating point *)

(** The double [2^k], for [-1022 <= k <= 1023]. *)
Definition f64_pow2 (k : Z) : F64.float64 :=
  S754_finite false 4503599627370496 (k - 52).

(** [math.Pow] on a platform that is exact on the powers of two, as Go's
    is: [Pow(2, y) = 2^y] for an integral [y] from 0 to 1023. The other
    arguments do not occur in the examples and are left at NaN here. *)
Definition exPow2 (x y : F64.float64) : F64.float64 :=
  if F64.eqb x f64_two then
    match F64.trunc y with
    | Some k =>
        if (0 <=? k) && (k <=? 1023) && F64.eqb y (F64.of_int k)
        then f64_pow2 k
        else S754_nan
    | None => S754_nan
    end
  else S754_nan.

(** A platform with that [math.Pow], on which the conversion of a double
    that no [int64] represents gives the smallest [int64], as the
    conversion instruction of amd64 does, and every draw is 0. *)
Definition exAmd64 : platform :=
  Platform exPow2 (fun _ => min_int64) (fun _ => 0).

(** The second half of the closure that [NextRetryNanosFn] returns: the
    jitter and the clamp it applies to the backoff computed so far. *)
Definition jitterAndClamp (rt : platform) (retryOpts : retryOptions)
    (backoff : Z) : Z :=
  let halfInMicros := Z.quot (Z.quot backoff 2) 1000 in
  let backoff :=
    if jitterApplies retryOpts backoff
    then wrap64 (wrap64 (halfInMicros * 1000)
                 + wrap64 (Fastrandn rt (wrapu32 halfInMicros) * 1000))
    else backoff in
  if backoff >? MaxBackoff retryOpts then MaxBackoff retryOpts else backoff.
(** * Properties *)

(** Unfolding of the state updates on states given by their fields. *)
Ltac wsimpl :=
  cbv beta iota zeta delta [mw heap payloads mPool metrics poolNext poolPut
       set_mw set_heap set_payloads set_mPool set_metrics setMsg getMsg
       getPayload IncRef DecRef close message_Close newMessage
       with_msgID with_queue with_acks with_cutOffNanos with_cutOverNanos
       with_messageTTLNanos with_isClosed with_nextFullScan with_lastNewWrite
       replicatedShardID opts nextRetryAfterNanos msgID queue mw_acks
       cutOffNanos cutOverNanos messageTTLNanos isClosed nextFullScan
       lastNewWrite acks_map hist_added hist_acked hist_removed
       acks_add acks_remove
       meta rm initNanos expectedProcessAtNanos retryAtNanos writeTimes
       sentAtNanos isAcked readsInFlight zeroMessage
       message_Set message_Ack message_IncWriteTimes message_SetRetryAtNanos
       refCount droppedOrConsumed shard id
       sa_world sa_metrics sa_msgsToWrite
       fst snd negb default from_option Datatypes.id].

(** ** Machine integers *)

Lemma wrap64_id z : in_int64 z -> wrap64 z = z.
Proof.
  unfold in_int64, min_int64, max_int64, wrap64. intros Hz.
  rewrite Z.mod_small; lia.
Qed.

Lemma wrapu64_id z : in_uint64 z -> wrapu64 z = z.
Proof.
  unfold in_uint64, max_uint64, wrapu64. intros Hz.
  rewrite Z.mod_small; lia.
Qed.

Lemma wrapu64_range z : in_uint64 (wrapu64 z).
Proof.
  unfold in_uint64, max_uint64, wrapu64.
  pose proof (Z.mod_pos_bound z (2 ^ 64)). lia.
Qed.

Lemma wrap64_range z : in_int64 (wrap64 z).
Proof.
  unfold in_int64, min_int64, max_int64, wrap64.
  pose proof (Z.mod_pos_bound (z + 2 ^ 63) (2 ^ 64)). lia.
Qed.

(** ** The static retry table *)

Lemma index_lookup (s : list Z) (i : Z) :
  0 <= i < Z.of_nat (length s) -> is_Some (index s i).
Proof.
  intros Hi. unfold index.
  destruct (Z.ltb_spec i 0) as [Hneg | _]; [lia |].
  apply lookup_lt_is_Some. lia.
Qed.

Lemma index_negative (s : list Z) (i : Z) : i < 0 -> index s i = None.
Proof.
  intros Hi. unfold index.
  destruct (Z.ltb_spec i 0); [reflexivity | lia].
Qed.

Lemma StaticRetryNanosFn_nonempty (ds : list Z) :
  ds <> [] ->
  StaticRetryNanosFn ds =
    Okay (fun writeTimes =>
            let retry := wrap64 (writeTimes - 1) in
            let l := Z.of_nat (length ds) in
            if retry <? l then index ds retry else index ds (l - 1)).
Proof.
  intros Hne. unfold StaticRetryNanosFn.
  destruct ds as [| d ds']; [congruence | reflexivity].
Qed.

Lemma wrap64_pred (n : Z) :
  min_int64 < n <= max_int64 -> wrap64 (n - 1) = n - 1.
Proof.
  intros Hn. apply wrap64_id. unfold in_int64. lia.
Qed.

(** C8. [StaticRetryNanosFn] fails, with [errInvalidBackoffDuration], exactly
    when the table of durations is empty; otherwise it succeeds and the
    function it returns gives, for attempt [n] (attempts count from 1), the
    table entry at index [min (n - 1) (len - 1)], which exists. *)
Theorem StaticRetryNanosFn_spec (backoffDurations : list Z) :
  match StaticRetryNanosFn backoffDurations with
  | Err e => e = errInvalidBackoffDuration /\ backoffDurations = []
  | Okay f =>
      backoffDurations <> [] /\
      forall n, 1 <= n <= max_int64 ->
        f n = index backoffDurations
                (Z.min (n - 1) (Z.of_nat (length backoffDurations) - 1)) /\
        is_Some (f n)
  end.
Proof.
  destruct backoffDurations as [| d ds].
  - simpl. split; reflexivity.
  - rewrite StaticRetryNanosFn_nonempty by discriminate.
    split; [discriminate |]. intros n Hn.
    cbv zeta. rewrite wrap64_pred by (unfold min_int64; lia).
    set (l := Z.of_nat (length (d :: ds))).
    assert (Hl : 1 <= l) by (unfold l; simpl length; lia).
    destruct (Z.ltb_spec (n - 1) l) as [Hlt | Hge].
    + rewrite Z.min_l by lia. split; [reflexivity |].
      apply index_lookup. fold l. lia.
    + rewrite Z.min_r by lia. split; [reflexivity |].
      apply index_lookup. fold l. lia.
Qed.

Lemma StaticRetryNanosFn_spec_witness :
  match StaticRetryNanosFn [10; 20; 30] with
  | Okay f => f 2 = Some 20 /\ f 7 = Some 30
  | Err _ => False
  end.
Proof.
  pose proof (StaticRetryNanosFn_spec [10; 20; 30]) as H.
  destruct (StaticRetryNanosFn [10; 20; 30]) as [f | e].
  - destruct H as [_ H]. split.
    + destruct (H 2) as [-> _]; [unfold max_int64; lia | reflexivity].
    + destruct (H 7) as [-> _]; [unfold max_int64; lia | reflexivity].
  - destruct H as [_ H]. discriminate H.
Defined.

(** ** Admission of writes *)

Lemma isValidWriteWithLock_isClosed (nowNanos : Z) (w : messageWriter)
    (mt : messageWriterMetrics) (b : bool) :
  isValidWriteWithLock nowNanos (with_isClosed b w) mt =
  isValidWriteWithLock nowNanos w mt.
Proof. reflexivity. Qed.

Lemma isValidWriteWithLock_false (nowNanos : Z) (w : messageWriter)
    (mt : messageWriterMetrics) :
  fst (isValidWriteWithLock nowNanos w mt) = false <->
  IgnoreCutoffCutover (opts w) = false /\
  ((0 < cutOffNanos w /\ cutOffNanos w <= nowNanos) \/
   (0 < cutOverNanos w /\ nowNanos < cutOverNanos w)).
Proof.
  unfold isValidWriteWithLock.
  destruct (IgnoreCutoffCutover (opts w)); simpl.
  - split; [discriminate | intros [? _]; discriminate].
  - destruct (Z.gtb_spec (cutOffNanos w) 0), (Z.geb_spec nowNanos (cutOffNanos w)),
      (Z.gtb_spec (cutOverNanos w) 0), (Z.ltb_spec nowNanos (cutOverNanos w));
      simpl; split; intros HH; try discriminate; try reflexivity;
      try (split; [reflexivity | lia]);
      try (destruct HH as [_ HH]; lia).
Qed.

Lemma InsertAfter_is_Some (v mark : handle) (l : list handle) :
  mark ∈ l -> exists q, InsertAfter v mark l = Some q /\ v ∈ q.
Proof.
  induction l as [| x l IH]; intros Hin.
  - inversion Hin.
  - simpl. destruct (decide (x = mark)) as [-> | Hne].
    + eexists. split; [reflexivity |]. apply elem_of_cons. right.
      apply elem_of_cons. left. reflexivity.
    + apply elem_of_cons in Hin. destruct Hin as [-> | Hl]; [congruence |].
      destruct (IH Hl) as (q & -> & Hq). eexists. split; [reflexivity |].
      apply elem_of_cons. right. exact Hq.
Qed.

Lemma Write_eq (r : payloadRef) (nowNanos : Z) (s : world) :
  Write r nowNanos s =
  let msg := poolNext (mPool s) in
  let w := mw s in
  let ok := fst (isValidWriteWithLock nowNanos w (metrics s)) in
  let mt := snd (isValidWriteWithLock nowNanos w (metrics s)) in
  if ok then
    let meta := Metadata (replicatedShardID w) (wrapu64 (msgID w + 1)) in
    let p := getPayload r s in
    World
      (MessageWriter (replicatedShardID w) (opts w) (nextRetryAfterNanos w)
         (wrapu64 (msgID w + 1))
         (fst (enqueued msg (queue w) (lastNewWrite w)))
         (acks_add meta msg (mw_acks w))
         (cutOffNanos w) (cutOverNanos w) (messageTTLNanos w) (isClosed w)
         (nextFullScan w)
         (snd (enqueued msg (queue w) (lastNewWrite w))))
      (<[msg := message_Set meta r nowNanos zeroMessage]> (heap s))
      (<[r := RefCounted (refCount p + 1) (droppedOrConsumed p)]> (payloads s))
      (Pool (S msg) (poolPut (mPool s)))
      (Metrics (writeAfterCutoff mt) (writeBeforeCutover mt) (messageAcked mt)
         (enqueuedMessages mt + 1) (dequeuedMessages mt))
  else
    World w (<[msg := zeroMessage]> (heap s)) (payloads s)
      (Pool (S msg) (msg :: poolPut (mPool s))) mt.
Proof.
  destruct s as [w hp ps [pn pp] mt0].
  destruct w as [sid o nr mid q ak coff cover ttl cl nfs lnw].
  destruct ak as [am ha hk hr].
  unfold Write. wsimpl.
  destruct (isValidWriteWithLock _ _ mt0) as [ok mt] eqn:Hv.
  destruct ok; wsimpl.
  - rewrite !lookup_insert_eq. wsimpl. rewrite !insert_insert_eq.
    unfold enqueued.
    destruct lnw as [mark |]; [destruct (InsertAfter pn mark q) |]; reflexivity.
  - rewrite !lookup_insert_eq. wsimpl. rewrite !insert_insert_eq.
    reflexivity.
Qed.

(** C1 (counterexample). On a writer whose closed flag [Close] has set, a
    [Write] at time 100 is admitted: the message is enqueued, the ack table
    gets an entry, the payload's reference count goes from 0 to 1, and no
    envelope goes back to the pool. *)
Lemma Write_after_Close_is_admitted :
  isClosed (mw exClosed) = true /\
  queue (mw exClosed) = [] /\
  queue (mw (Write 1%nat 100 exClosed)) = [0%nat] /\
  QueueSize exClosed = 0 /\
  QueueSize (Write 1%nat 100 exClosed) = 1 /\
  refCount (getPayload 1%nat exClosed) = 0 /\
  refCount (getPayload 1%nat (Write 1%nat 100 exClosed)) = 1 /\
  poolPut (mPool (Write 1%nat 100 exClosed)) = [].
Proof. vm_compute. repeat split; reflexivity. Qed.

(** C1 (amended). A [Write] fails admission exactly under the cutoff and
    cutover rules, which do not consult the closed flag. A [Write] that fails
    admission puts its envelope back into the pool and leaves the queue, the
    ack table and the payloads as they were. A [Write] that passes, on a
    closed writer as on an open one, registers the new id in the ack table
    and takes one reference on the payload, puts no envelope back, and
    enqueues the envelope (provided the last-new-write cursor, if set, is in
    the queue). *)
Theorem Write_admission (r : payloadRef) (nowNanos : Z) (s : world) :
  let ok := fst (isValidWriteWithLock nowNanos (mw s) (metrics s)) in
  let msg := poolNext (mPool s) in
  let s' := Write r nowNanos s in
  (forall b, fst (isValidWriteWithLock nowNanos (with_isClosed b (mw s))
                    (metrics s)) = ok) /\
  (ok = false ->
     queue (mw s') = queue (mw s) /\
     mw_acks (mw s') = mw_acks (mw s) /\
     payloads s' = payloads s /\
     poolPut (mPool s') = msg :: poolPut (mPool s)) /\
  (ok = true ->
     acks_map (mw_acks (mw s')) !! wrapu64 (msgID (mw s) + 1) = Some msg /\
     refCount (getPayload r s') = refCount (getPayload r s) + 1 /\
     poolPut (mPool s') = poolPut (mPool s) /\
     (match lastNewWrite (mw s) with
      | Some mark => mark ∈ queue (mw s)
      | None => True
      end -> msg ∈ queue (mw s'))).
Proof.
  intros ok msg s'. split; [intros b; reflexivity |].
  subst s'. rewrite Write_eq. cbv zeta. fold ok. fold msg.
  destruct ok.
  - split; [discriminate | intros _]. cbn [mw mw_acks payloads mPool poolPut queue].
    split; [| split; [| split]].
    + unfold acks_add. cbn [acks_map id]. apply lookup_insert_eq.
    + unfold getPayload at 1. cbn [payloads]. rewrite lookup_insert_eq.
      reflexivity.
    + reflexivity.
    + unfold enqueued, PushFront.
      destruct (lastNewWrite (mw s)) as [mark |].
      * intros Hin.
        destruct (InsertAfter_is_Some msg mark _ Hin) as (q & -> & Hq).
        exact Hq.
      * intros _. apply elem_of_cons. left. reflexivity.
  - split; [intros _ | discriminate]. repeat split; reflexivity.
Qed.

Lemma Write_admission_witness :
  queue (mw (Write 1%nat 1500 (SetCutoffNanos 1000 exWorld))) = [] /\
  poolPut (mPool (Write 1%nat 1500 (SetCutoffNanos 1000 exWorld))) = [0%nat] /\
  0%nat ∈ queue (mw (Write 1%nat 100 exClosed)).
Proof.
  destruct (Write_admission 1%nat 1500 (SetCutoffNanos 1000 exWorld))
    as (_ & Hfail & _).
  destruct (Hfail eq_refl) as (Hq & _ & _ & Hp).
  destruct (Write_admission 1%nat 100 exClosed) as (_ & _ & Hok).
  destruct (Hok eq_refl) as (_ & _ & _ & Hin).
  split; [exact Hq | split; [exact Hp | exact (Hin I)]].
Defined.

(** ** Acknowledgement *)

Lemma acks_ack_eq (mt : metadata) (s : world) :
  acks_ack mt s =
  let a := mw_acks (mw s) in
  match acks_map a !! id mt with
  | None => ((false, 0), s)
  | Some m =>
      ((true, expectedProcessAtNanos (getMsg m s)),
       World (with_acks (Acks (delete (id mt) (acks_map a)) (hist_added a)
                           (S (hist_acked a)) (hist_removed a)) (mw s))
             (<[m := message_Ack (getMsg m s)]> (heap s))
             (payloads s) (mPool s) (metrics s))
  end.
Proof.
  unfold acks_ack. cbv zeta.
  destruct (acks_map (mw_acks (mw s)) !! id mt) as [m |]; reflexivity.
Qed.

Lemma Ack_absent (mt : metadata) (s : world) :
  acks_map (mw_acks (mw s)) !! id mt = None -> Ack mt s = (false, s).
Proof.
  intros Hnone. unfold Ack. rewrite acks_ack_eq. cbv zeta.
  rewrite Hnone. reflexivity.
Qed.

Lemma Ack_present (mt : metadata) (s : world) (h : handle) :
  acks_map (mw_acks (mw s)) !! id mt = Some h ->
  fst (Ack mt s) = true /\
  acks_map (mw_acks (mw (snd (Ack mt s)))) =
    delete (id mt) (acks_map (mw_acks (mw s))) /\
  isAcked (getMsg h (snd (Ack mt s))) = true.
Proof.
  intros Hsome. unfold Ack. rewrite acks_ack_eq. cbv zeta.
  rewrite Hsome. cbn [fst snd].
  split; [reflexivity | split; [reflexivity |]].
  unfold getMsg at 1, set_metrics. cbn [heap].
  rewrite lookup_insert_eq. reflexivity.
Qed.

(** A sequence of acks returns true for the id [i] at most as often as [i]
    is in the table at its start: once or never. *)
Lemma AckAll_bound (i : Z) (mts : list metadata) (s : world) :
  (ackedTrue i mts (fst (AckAll mts s)) <=
   match acks_map (mw_acks (mw s)) !! i with Some _ => 1 | None => 0 end)%nat.
Proof.
  revert s. induction mts as [| mt rest IH]; intros s.
  - simpl. lia.
  - simpl AckAll.
    destruct (acks_map (mw_acks (mw s)) !! id mt) as [h |] eqn:Hmt.
    + destruct (Ack_present mt s h Hmt) as (Htrue & Hmap & _).
      destruct (Ack mt s) as [b s1]. cbn [fst snd] in Htrue, Hmap. subst b.
      specialize (IH s1). destruct (AckAll rest s1) as [bs s2].
      cbn [fst] in *. simpl ackedTrue. rewrite Hmap in IH.
      destruct (Z.eqb_spec (id mt) i) as [Heq | Hne].
      * subst i. rewrite lookup_delete_eq in IH. rewrite Hmt. simpl. lia.
      * rewrite lookup_delete_ne in IH by exact Hne. simpl. exact IH.
    + rewrite (Ack_absent mt s Hmt).
      specialize (IH s). destruct (AckAll rest s) as [bs s2].
      cbn [fst] in *. simpl ackedTrue. exact IH.
Qed.

(** ** Classification of a queue element by the scan *)

Lemma metricIdx_nat_inj (i j : metricIdx) :
  metricIdx_nat i = metricIdx_nat j -> i = j.
Proof. destruct i, j; simpl; intros H; congruence. Qed.

Lemma sm_get_inc_ne (i j : metricIdx) (sm : scanBatchMetrics) :
  i <> j -> sm_get i (sm_inc j sm) = sm_get i sm.
Proof.
  intros Hne. unfold sm_get, sm_inc.
  rewrite list_lookup_alter_ne; [reflexivity |].
  intros Heq. apply Hne. symmetry. apply metricIdx_nat_inj. exact Heq.
Qed.

(** C4 (counterexample). The message of [exSent] has retry-at 210. In a scan
    at time 210 the writer, which is not closed, classifies it as not ready:
    only the not-ready counter moves, the message is neither sent nor
    touched; one nanosecond later it is picked for its second send. *)
Lemma retry_at_now_is_not_ready :
  isClosed (mw exSent) = false /\
  retryAtNanos (getMsg 0%nat exSent) = 210 /\
  scanElement 0%nat 210 true (ScanAcc exSent zeroScanBatchMetrics []) =
    Some (Continue,
          ScanAcc exSent (sm_inc _processedNotReady zeroScanBatchMetrics) []) /\
  (exists a, scanElement 0%nat 211 true (ScanAcc exSent zeroScanBatchMetrics [])
             = Some (Continue, a) /\
             sa_msgsToWrite a = [0%nat] /\
             writeTimes (getMsg 0%nat (sa_world a)) = 2).
Proof.
  split; [vm_compute; reflexivity |].
  split; [vm_compute; reflexivity |].
  split; [vm_compute; reflexivity |].
  eexists. split; [vm_compute; reflexivity |].
  split; vm_compute; reflexivity.
Qed.

(** C4 (amended). In a scan at time [nowNanos] of a writer that is not
    closed, an element is classified as not ready exactly when its
    retry-at-nanos is greater than or equal to [nowNanos]: then only the
    not-ready counter moves, nothing else changes, and the loop goes on
    (full scan) or stops (partial scan). When retry-at-nanos is strictly
    below [nowNanos] the element passes on to the TTL, acked, dropped and
    ready checks, the not-ready counter stays, and the loop goes on. *)
Theorem scanElement_not_ready (e : handle) (nowNanos : Z) (fullScan : bool)
    (a : scanAcc) :
  isClosed (mw (sa_world a)) = false ->
  (nowNanos <= retryAtNanos (getMsg e (sa_world a)) ->
   scanElement e nowNanos fullScan a =
     Some (if fullScan then Continue else Break,
           ScanAcc (sa_world a) (sm_inc _processedNotReady (sa_metrics a))
                   (sa_msgsToWrite a))) /\
  (retryAtNanos (getMsg e (sa_world a)) < nowNanos ->
   forall c a', scanElement e nowNanos fullScan a = Some (c, a') ->
     c = Continue /\
     sm_get _processedNotReady (sa_metrics a') =
       sm_get _processedNotReady (sa_metrics a)).
Proof.
  intros Hopen. unfold scanElement. rewrite Hopen. split.
  - intros Hge.
    destruct (Z.geb_spec (retryAtNanos (getMsg e (sa_world a))) nowNanos);
      [| lia].
    destruct fullScan; reflexivity.
  - intros Hlt c a'.
    destruct (Z.geb_spec (retryAtNanos (getMsg e (sa_world a))) nowNanos);
      [lia |].
    destruct (andb _ _).
    { destruct (acks_ack _ _) as [[acked ?] s1]. intros [= <- <-].
      split; [reflexivity |]. cbn [sa_metrics].
      destruct acked; rewrite ?sm_get_inc_ne by discriminate; reflexivity. }
    destruct (isAcked (getMsg e (sa_world a))).
    { intros [= <- <-]. split; [reflexivity |]. cbn [sa_metrics].
      rewrite sm_get_inc_ne by discriminate. reflexivity. }
    destruct (IsDroppedOrConsumed e (sa_world a)) as [[|] |]; [| | discriminate].
    { intros [= <- <-]; (split; [reflexivity |]);
        cbn [sa_metrics]; rewrite ?sm_get_inc_ne by discriminate; reflexivity. }
    destruct (nextRetryAfterNanos _ _); [| discriminate].
    intros [= <- <-]. split; [reflexivity |]. cbn [sa_metrics].
    destruct (_ >? 1); rewrite ?sm_get_inc_ne by discriminate; reflexivity.
Qed.

Lemma scanElement_not_ready_witness :
  scanElement 0%nat 205 false exAcc =
    Some (Break,
          ScanAcc (sa_world exAcc)
                  (sm_inc _processedNotReady (sa_metrics exAcc))
                  (sa_msgsToWrite exAcc)).
Proof.
  assert (Hopen : isClosed (mw (sa_world exAcc)) = false)
    by (vm_compute; reflexivity).
  assert (Hle : 205 <= retryAtNanos (getMsg 0%nat (sa_world exAcc)))
    by (vm_compute; discriminate).
  exact (proj1 (scanElement_not_ready 0%nat 205 false exAcc Hopen) Hle).
Defined.

(** ** The effect of the state updates *)

Lemma close_eq (h : handle) (s : world) :
  close h s =
  World (mw s) (<[h := zeroMessage]> (heap s))
        (match rm (getMsg h s) with
         | Some r =>
             <[r := RefCounted (refCount (getPayload r s) - 1)
                      (droppedOrConsumed (getPayload r s))]> (payloads s)
         | None => payloads s
         end)
        (Pool (poolNext (mPool s)) (h :: poolPut (mPool s)))
        (metrics s).
Proof.
  destruct s as [w hp ps [pn pp] mt].
  unfold close, message_Close. wsimpl.
  destruct (hp !! h) as [m |]; wsimpl.
  - destruct m as [mt0 [r |] ? ? ? ? ? ? ?]; reflexivity.
  - reflexivity.
Qed.

Lemma removeFromQueueWithLock_eq (e : handle) (s : world) :
  removeFromQueueWithLock e s =
  World (with_queue (Remove e (queue (mw s))) (mw s))
        (<[e := zeroMessage]> (heap s))
        (match rm (getMsg e s) with
         | Some r =>
             <[r := RefCounted (refCount (getPayload r s) - 1)
                      (droppedOrConsumed (getPayload r s))]> (payloads s)
         | None => payloads s
         end)
        (Pool (poolNext (mPool s)) (e :: poolPut (mPool s)))
        (Metrics (writeAfterCutoff (metrics s)) (writeBeforeCutover (metrics s))
           (messageAcked (metrics s)) (enqueuedMessages (metrics s))
           (dequeuedMessages (metrics s) + 1)).
Proof.
  unfold removeFromQueueWithLock. rewrite close_eq.
  destruct s as [w hp ps [pn pp] mt]. reflexivity.
Qed.

Lemma same_config_refl (w : messageWriter) : same_config w w.
Proof. repeat split. Qed.

Lemma same_config_trans (w1 w2 w3 : messageWriter) :
  same_config w1 w2 -> same_config w2 w3 -> same_config w1 w3.
Proof.
  unfold same_config. intros H1 H2.
  destruct H1 as (?&?&?&?&?&?&?&?&?&?), H2 as (?&?&?&?&?&?&?&?&?&?).
  repeat split; congruence.
Qed.

Lemma acks_evolve_refl (a : acks) : acks_evolve a a.
Proof. repeat split. auto. Qed.

Lemma acks_evolve_trans (a1 a2 a3 : acks) :
  acks_evolve a1 a2 -> acks_evolve a2 a3 -> acks_evolve a1 a3.
Proof.
  intros (Ha & Hk & Hs) (Ha' & Hk' & Hs').
  split; [congruence | split; [auto | lia]].
Qed.

Lemma acks_evolve_remove (mt : metadata) (a : acks) :
  acks_evolve a (acks_remove mt a).
Proof.
  unfold acks_evolve, acks_remove. cbn [acks_map hist_added hist_acked hist_removed].
  split; [reflexivity | split].
  - intros k h Hk. apply lookup_delete_Some in Hk. apply Hk.
  - destruct (acks_map a !! id mt) as [h |] eqn:Hl.
    + rewrite map_size_delete_Some by eauto.
      assert (size (acks_map a) <> 0)%nat
        by (eapply map_size_ne_0_lookup_2; eauto).
      lia.
    + rewrite delete_id by exact Hl. reflexivity.
Qed.

Lemma acks_ack_evolve (mt : metadata) (s : world) :
  acks_evolve (mw_acks (mw s)) (mw_acks (mw (snd (acks_ack mt s)))).
Proof.
  rewrite acks_ack_eq. cbv zeta.
  destruct (acks_map (mw_acks (mw s)) !! id mt) as [h |] eqn:Hl.
  - cbn [snd mw]. destruct (mw s) as [? ? ? ? ? a ? ? ? ? ? ?].
    cbn [with_acks mw_acks] in *.
    unfold acks_evolve. cbn [acks_map hist_added hist_acked hist_removed].
    split; [reflexivity | split].
    + intros k h' Hk. apply lookup_delete_Some in Hk. apply Hk.
    + rewrite map_size_delete_Some by eauto.
      assert (size (acks_map a) <> 0)%nat
        by (eapply map_size_ne_0_lookup_2; eauto).
      lia.
  - cbn [snd]. apply acks_evolve_refl.
Qed.
Lemma getMsg_insert_ne (h e : handle) (m : message) (w : messageWriter)
    (hp : gmap handle message) ps pl mt :
  h <> e -> getMsg h (World w (<[e := m]> hp) ps pl mt) = default zeroMessage (hp !! h).
Proof.
  intros Hne. unfold getMsg. cbn [heap]. rewrite lookup_insert_ne by congruence.
  reflexivity.
Qed.

Lemma acks_ack_frame (mt : metadata) (s : world) :
  let s1 := snd (acks_ack mt s) in
  same_config (mw s) (mw s1) /\
  queue (mw s1) = queue (mw s) /\
  poolNext (mPool s1) = poolNext (mPool s) /\
  (forall h, rm_wt (getMsg h s1) = rm_wt (getMsg h s)) /\
  acks_evolve (mw_acks (mw s)) (mw_acks (mw s1)).
Proof.
  cbv zeta. pose proof (acks_ack_evolve mt s) as Hev.
  rewrite acks_ack_eq in *. cbv zeta in *.
  destruct (acks_map (mw_acks (mw s)) !! id mt) as [m |]; cbn [snd mw mPool] in *.
  - split; [destruct (mw s); repeat split |].
    split; [destruct (mw s); reflexivity |].
    split; [reflexivity |].
    split; [| exact Hev].
    intros h. destruct (decide (h = m)) as [-> | Hne].
    + unfold getMsg at 1. cbn [heap]. rewrite lookup_insert_eq. reflexivity.
    + rewrite getMsg_insert_ne by exact Hne. reflexivity.
  - split; [apply same_config_refl |].
    split; [reflexivity |]. split; [reflexivity |].
    split; [reflexivity | exact Hev].
Qed.

Lemma removeFromQueueWithLock_frame (e : handle) (s : world) :
  let s1 := removeFromQueueWithLock e s in
  same_config (mw s) (mw s1) /\
  mw_acks (mw s1) = mw_acks (mw s) /\
  queue (mw s1) = Remove e (queue (mw s)) /\
  poolNext (mPool s1) = poolNext (mPool s) /\
  (forall h, h <> e -> getMsg h s1 = getMsg h s).
Proof.
  cbv zeta. rewrite removeFromQueueWithLock_eq. cbn [mw mPool poolNext].
  split; [destruct (mw s); repeat split |].
  split; [destruct (mw s); reflexivity |].
  split; [destruct (mw s); reflexivity |].
  split; [reflexivity |].
  intros h Hne. rewrite getMsg_insert_ne by exact Hne. reflexivity.
Qed.

Lemma scanElement_effect (e : handle) (nowNanos : Z) (fullScan : bool)
    (a : scanAcc) (c : control) (a' : scanAcc) :
  scanElement e nowNanos fullScan a = Some (c, a') -> element_effect e a a'.
Proof.
  unfold scanElement, element_effect. cbv zeta.
  destruct a as [s sm msgs]. cbn [sa_world sa_metrics sa_msgsToWrite].
  destruct (isClosed (mw s)).
  { pose proof (acks_ack_frame (meta (getMsg e s)) s) as Hack. cbv zeta in Hack.
    destruct (acks_ack (meta (getMsg e s)) s) as [[b z] s1]. cbn [snd] in Hack.
    destruct Hack as (Hc1 & Hq1 & Hp1 & Hh1 & Ha1).
    pose proof (removeFromQueueWithLock_frame e s1) as Hrm. cbv zeta in Hrm.
    destruct Hrm as (Hc2 & Ha2 & Hq2 & Hp2 & Hh2).
    intros [= <- <-]. cbn [sa_world sa_msgsToWrite].
    split; [eapply same_config_trans; eassumption |].
    split; [rewrite Ha2; exact Ha1 |].
    split; [congruence |].
    split; [intros h Hne; rewrite Hh2 by exact Hne; apply Hh1 |].
    left. split; [congruence | reflexivity]. }
  assert (Hrefl : forall sm' : list Z, element_effect e (ScanAcc s sm msgs) (ScanAcc s sm' msgs)).
  { intros sm'. unfold element_effect. cbn [sa_world sa_msgsToWrite].
    split; [apply same_config_refl |]. split; [apply acks_evolve_refl |].
    split; [reflexivity |]. split; [reflexivity |].
    right. split; [reflexivity |]. split; [reflexivity |]. left. split; reflexivity. }
  unfold element_effect in Hrefl. cbv zeta in Hrefl.
  cbn [sa_world sa_msgsToWrite] in Hrefl.
  destruct (retryAtNanos (getMsg e s) >=? nowNanos).
  { destruct (negb fullScan); intros [= <- <-]; exact (Hrefl []). }
  destruct (andb _ _).
  { pose proof (acks_ack_frame (meta (getMsg e s)) s) as Hack. cbv zeta in Hack.
    destruct (acks_ack (meta (getMsg e s)) s) as [[b z] s1]. cbn [snd] in Hack.
    destruct Hack as (Hc1 & Hq1 & Hp1 & Hh1 & Ha1).
    pose proof (removeFromQueueWithLock_frame e s1) as Hrm. cbv zeta in Hrm.
    destruct Hrm as (Hc2 & Ha2 & Hq2 & Hp2 & Hh2).
    intros [= <- <-]. cbn [sa_world sa_msgsToWrite].
    split; [eapply same_config_trans; eassumption |].
    split; [rewrite Ha2; exact Ha1 |].
    split; [congruence |].
    split; [intros h Hne; rewrite Hh2 by exact Hne; apply Hh1 |].
    left. split; [congruence | reflexivity]. }
  destruct (isAcked (getMsg e s)).
  { pose proof (removeFromQueueWithLock_frame e s) as Hrm. cbv zeta in Hrm.
    destruct Hrm as (Hc2 & Ha2 & Hq2 & Hp2 & Hh2).
    intros [= <- <-]. cbn [sa_world sa_msgsToWrite].
    split; [exact Hc2 |].
    split; [rewrite Ha2; apply acks_evolve_refl |].
    split; [exact Hp2 |].
    split; [intros h Hne; rewrite Hh2 by exact Hne; reflexivity |].
    left. split; [exact Hq2 | reflexivity]. }
  destruct (IsDroppedOrConsumed e s) as [[|] |] eqn:Hdrop; [| | discriminate].
  { set (s1 := set_mw (fun w => with_acks (acks_remove (meta (getMsg e s)) (mw_acks w)) w) s).
    pose proof (removeFromQueueWithLock_frame e s1) as Hrm. cbv zeta in Hrm.
    destruct Hrm as (Hc2 & Ha2 & Hq2 & Hp2 & Hh2).
    intros [= <- <-]. cbn [sa_world sa_msgsToWrite].
    assert (Hc1 : same_config (mw s) (mw s1)) by (subst s1; destruct s as [[] ? ? ? ?]; repeat split).
    assert (Hq1 : queue (mw s1) = queue (mw s)) by (subst s1; destruct s as [[] ? ? ? ?]; reflexivity).
    assert (Ha1 : mw_acks (mw s1) = acks_remove (meta (getMsg e s)) (mw_acks (mw s)))
      by (subst s1; destruct s as [[] ? ? ? ?]; reflexivity).
    split; [eapply same_config_trans; eassumption |].
    split; [rewrite Ha2, Ha1; apply acks_evolve_remove |].
    split; [exact Hp2 |].
    split; [intros h Hne; rewrite Hh2 by exact Hne; reflexivity |].
    left. split; [congruence | reflexivity]. }
  set (s1 := setMsg e (message_IncWriteTimes (getMsg e s)) s).
  destruct (nextRetryAfterNanos (mw s1) (writeTimes (getMsg e s1))) as [backoff |];
    [| discriminate].
  intros [= <- <-]. cbn [sa_world sa_msgsToWrite].
  assert (Hrm : rm (getMsg e s) <> None).
  { unfold IsDroppedOrConsumed in Hdrop. destruct (rm (getMsg e s)); [discriminate | discriminate]. }
  subst s1. destruct s as [w hp ps pl mt]. unfold setMsg, set_heap, getMsg in *.
  cbn [mw heap payloads mPool metrics] in *.
  rewrite !lookup_insert_eq. cbn [default from_option Datatypes.id].
  split; [apply same_config_refl |]. split; [apply acks_evolve_refl |].
  split; [reflexivity |].
  split; [intros h Hne; rewrite !lookup_insert_ne by congruence; reflexivity |].
  right. split; [reflexivity |]. split; [reflexivity |].
  right. split; [reflexivity |]. split; [exact Hrm | reflexivity].
Qed.
Lemma scanLoop_config (es : list handle) :
  forall (iterated : Z) (next : option handle) (nowNanos batchSize : Z)
         (fullScan : bool) (a : scanAcc) (next' : option handle) (a' : scanAcc),
  scanLoop es iterated next nowNanos batchSize fullScan a = Some (next', a') ->
  same_config (mw (sa_world a)) (mw (sa_world a')) /\
  acks_evolve (mw_acks (mw (sa_world a))) (mw_acks (mw (sa_world a'))) /\
  poolNext (mPool (sa_world a')) = poolNext (mPool (sa_world a)).
Proof.
  induction es as [| e rest IH]; intros iterated next nowNanos batchSize fullScan
    a next' a' Hloop.
  - simpl in Hloop. injection Hloop as <- <-.
    split; [apply same_config_refl | split; [apply acks_evolve_refl | reflexivity]].
  - simpl in Hloop.
    destruct (wrap64 (iterated + 1) >? batchSize).
    { injection Hloop as <- <-.
      split; [apply same_config_refl | split; [apply acks_evolve_refl | reflexivity]]. }
    destruct (scanElement e nowNanos fullScan a) as [[c a1] |] eqn:He;
      [| discriminate].
    pose proof (scanElement_effect _ _ _ _ _ _ He) as (Hc & Ha & Hp & _).
    destruct c.
    + apply IH in Hloop. destruct Hloop as (Hc' & Ha' & Hp').
      split; [eapply same_config_trans; eassumption |].
      split; [eapply acks_evolve_trans; eassumption | congruence].
    + injection Hloop as <- <-. split; [exact Hc | split; [exact Ha | exact Hp]].
Qed.

Lemma ack_inv_evolve (s s' : world) :
  ack_inv s ->
  msgID (mw s') = msgID (mw s) ->
  acks_evolve (mw_acks (mw s)) (mw_acks (mw s')) ->
  ack_inv s'.
Proof.
  unfold ack_inv. cbv zeta. intros Hinv Hid (Hadd & Hsub & Hsize) Hlt.
  rewrite Hadd in Hlt. destruct (Hinv Hlt) as (Hm & Hk & Hs).
  rewrite Hid, Hadd. split; [exact Hm | split].
  - intros k h Hl. apply (Hk k h). apply Hsub. exact Hl.
  - lia.
Qed.

Lemma ack_inv_Write (r : payloadRef) (nowNanos : Z) (s : world) :
  ack_inv s -> ack_inv (Write r nowNanos s).
Proof.
  intros Hinv. rewrite Write_eq. cbv zeta.
  destruct (fst (isValidWriteWithLock nowNanos (mw s) (metrics s))).
  - unfold ack_inv in *. cbv zeta in *. cbn [mw mw_acks msgID].
    unfold acks_add. cbn [acks_map hist_added hist_acked hist_removed id].
    intros Hlt. destruct Hinv as (Hm & Hk & Hs); [lia |].
    assert (Hw : wrapu64 (msgID (mw s) + 1) = msgID (mw s) + 1).
    { apply wrapu64_id. unfold in_uint64, max_uint64. lia. }
    rewrite Hw. split; [lia | split].
    + intros k h Hl. destruct (decide (k = msgID (mw s) + 1)) as [-> | Hne].
      * lia.
      * rewrite lookup_insert_ne in Hl by congruence.
        specialize (Hk k h Hl). lia.
    + rewrite map_size_insert_None; [lia |].
      destruct (acks_map (mw_acks (mw s)) !! (msgID (mw s) + 1)) as [h |] eqn:Hl;
        [| reflexivity].
      specialize (Hk _ _ Hl). lia.
  - exact Hinv.
Qed.
Lemma Remove_not_in (e : handle) (l : list handle) :
  e ∉ l -> Remove e l = l.
Proof.
  unfold Remove. induction l as [| x l IH]; intros Hnin; [reflexivity |].
  apply not_elem_of_cons in Hnin. destruct Hnin as [Hne Hnin].
  rewrite filter_cons_True by congruence. rewrite IH by exact Hnin. reflexivity.
Qed.

Lemma Remove_middle (e : handle) (pre rest : list handle) :
  NoDup (pre ++ e :: rest) -> Remove e (pre ++ e :: rest) = pre ++ rest.
Proof.
  intros Hnd. apply NoDup_app in Hnd. destruct Hnd as (Hpre & Hdis & Hrest).
  apply NoDup_cons in Hrest. destruct Hrest as [Hnin Hrest].
  unfold Remove. rewrite filter_app. rewrite filter_cons_False by (intros H; apply H; reflexivity).
  fold (Remove e pre). fold (Remove e rest).
  rewrite !Remove_not_in; [reflexivity | exact Hnin |].
  intros Hin. apply (Hdis e Hin). apply elem_of_cons. left. reflexivity.
Qed.

Lemma NoDup_remove_middle (e : handle) (pre rest : list handle) :
  NoDup (pre ++ e :: rest) -> NoDup (pre ++ rest).
Proof.
  intros Hnd. apply NoDup_app in Hnd. destruct Hnd as (Hpre & Hdis & Hrest).
  apply NoDup_cons in Hrest. destruct Hrest as [Hnin Hrest].
  apply NoDup_app. split; [exact Hpre | split; [| exact Hrest]].
  intros x Hx Hx'. apply (Hdis x Hx). apply elem_of_cons. right. exact Hx'.
Qed.

Lemma scanElement_None (e : handle) (nowNanos : Z) (fullScan : bool)
    (a : scanAcc) :
  scanElement e nowNanos fullScan a = None ->
  rm (getMsg e (sa_world a)) = None \/
  nextRetryAfterNanos (mw (sa_world a))
    (wrap64 (writeTimes (getMsg e (sa_world a)) + 1)) = None.
Proof.
  unfold scanElement. cbv zeta. destruct a as [s sm msgs].
  cbn [sa_world sa_metrics sa_msgsToWrite].
  destruct (isClosed (mw s)).
  { destruct (acks_ack _ s) as [[? ?] ?]. discriminate. }
  destruct (retryAtNanos (getMsg e s) >=? nowNanos).
  { destruct (negb fullScan); discriminate. }
  destruct (andb _ _).
  { destruct (acks_ack _ s) as [[? ?] ?]. discriminate. }
  destruct (isAcked (getMsg e s)); [discriminate |].
  unfold IsDroppedOrConsumed.
  destruct (rm (getMsg e s)) as [r |] eqn:Hrm; [| intros _; left; reflexivity].
  destruct (droppedOrConsumed (getPayload r s)); [discriminate |].
  intros H. right.
  destruct s as [w hp ps pl mt]. unfold setMsg, set_heap, getMsg in *.
  cbn [mw heap payloads mPool metrics] in *.
  rewrite !lookup_insert_eq in H. cbn [default from_option Datatypes.id] in H.
  cbn [writeTimes message_IncWriteTimes] in H.
  destruct (nextRetryAfterNanos w _) eqn:Hn in H; [discriminate |].
  exact Hn.
Qed.
Lemma msg_ok_weaken (K : Z) (s : world) (h : handle) :
  msg_ok K s h -> msg_ok (K + 1) s h.
Proof.
  intros (Hp & Hrm & Hwt). split; [exact Hp | split; [exact Hrm |]].
  intros Hlt. assert (K < max_int64) as HK by lia. specialize (Hwt HK). lia.
Qed.

Lemma msg_ok_frame (K : Z) (s s' : world) (h : handle) :
  poolNext (mPool s') = poolNext (mPool s) ->
  rm_wt (getMsg h s') = rm_wt (getMsg h s) ->
  msg_ok K s h -> msg_ok K s' h.
Proof.
  unfold msg_ok, rm_wt. intros Hp [= Hrm Hwt] (H1 & H2 & H3).
  rewrite Hp, Hrm, Hwt. auto.
Qed.

(** The loop of [scanBatchWithLock] on a queue [pre ++ es] of which it
    visits [es]: it panics only when the retry function does, on a write
    count of at least 1; otherwise [pre] stays at the head of the queue, the
    elements not yet visited stay at its end, and the element to resume from
    is one of them. *)
Lemma scanLoop_queue (K : Z) (es : list handle) :
  forall (pre : list handle) (s : world) (sm : list Z) (msgs : list handle)
         (iterated : Z) (nx : option handle) (nowNanos batchSize : Z)
         (fullScan : bool),
  queue (mw s) = pre ++ es ->
  NoDup (pre ++ es) ->
  (forall h, h ∈ pre -> msg_ok (K + 1) s h) ->
  (forall h, h ∈ es -> msg_ok K s h) ->
  (forall h, h ∈ msgs -> h ∈ pre) ->
  match scanLoop es iterated nx nowNanos batchSize fullScan (ScanAcc s sm msgs) with
  | None =>
      K < max_int64 ->
      exists n, 1 <= n <= max_int64 /\ nextRetryAfterNanos (mw s) n = None
  | Some (next, a') =>
      let s' := sa_world a' in
      exists kept rest,
        queue (mw s') = (pre ++ kept) ++ rest /\
        NoDup ((pre ++ kept) ++ rest) /\
        ((next = nx /\ rest = es) \/ next = None \/
         exists c, next = Some c /\ c ∈ rest) /\
        (forall h, h ∈ (pre ++ kept) ++ rest -> msg_ok (K + 1) s' h) /\
        (forall h, h ∈ sa_msgsToWrite a' -> h ∈ pre ++ kept)
  end.
Proof.
  induction es as [| e rest0 IH];
    intros pre s sm msgs iterated nx nowNanos batchSize fullScan Hq Hnd Hpre Hes Hmsgs.
  - simpl. exists [], []. rewrite !app_nil_r in *.
    split; [exact Hq |]. split; [exact Hnd |].
    split; [left; split; reflexivity |]. split; [exact Hpre | exact Hmsgs].
  - simpl.
    destruct (wrap64 (iterated + 1) >? batchSize).
    { cbv zeta. exists [], (e :: rest0). rewrite !app_nil_r.
      split; [exact Hq |]. split; [exact Hnd |].
      split; [left; split; reflexivity |]. split; [| exact Hmsgs].
      intros h Hin. apply elem_of_app in Hin. destruct Hin as [Hin | Hin].
      - apply Hpre. exact Hin.
      - apply msg_ok_weaken. apply Hes. exact Hin. }
    assert (He_ok : msg_ok K s e).
    { apply Hes. apply elem_of_cons. left. reflexivity. }
    destruct (scanElement e nowNanos fullScan (ScanAcc s sm msgs))
      as [[c a1] |] eqn:Hel.
    2: { intros HK. apply scanElement_None in Hel. cbn [sa_world] in Hel.
         destruct He_ok as (_ & Hrm & Hwt). specialize (Hwt HK).
         destruct Hel as [Hel | Hel]; [contradiction |].
         exists (wrap64 (writeTimes (getMsg e s) + 1)).
         rewrite wrap64_id in * by (unfold in_int64, min_int64, max_int64 in *; lia).
         split; [lia | exact Hel]. }
    pose proof (scanElement_effect _ _ _ _ _ _ Hel) as Heff.
    unfold element_effect in Heff. cbv zeta in Heff.
    destruct a1 as [s1 sm1 msgs1]. cbn [sa_world sa_msgsToWrite] in Heff.
    destruct Heff as (Hcfg & _ & Hpool & Hframe & Hcase).
    assert (Hretry : nextRetryAfterNanos (mw s1) = nextRetryAfterNanos (mw s)).
    { destruct Hcfg as (_ & _ & Hr & _). exact Hr. }
    assert (Hne_pre : forall h, h ∈ pre -> h <> e).
    { intros h Hin ->. apply NoDup_app in Hnd. destruct Hnd as (_ & Hdis & _).
      apply (Hdis e Hin). apply elem_of_cons. left. reflexivity. }
    assert (Hne_rest : forall h, h ∈ rest0 -> h <> e).
    { intros h Hin ->. apply NoDup_app in Hnd. destruct Hnd as (_ & _ & Hnd').
      apply NoDup_cons in Hnd'. destruct Hnd' as [Hnin _]. contradiction. }
    assert (Hpre1 : forall h, h ∈ pre -> msg_ok (K + 1) s1 h).
    { intros h Hin. eapply msg_ok_frame; [exact Hpool | | apply Hpre; exact Hin].
      apply Hframe. apply Hne_pre. exact Hin. }
    assert (Hrest1 : forall h, h ∈ rest0 -> msg_ok K s1 h).
    { intros h Hin. eapply msg_ok_frame; [exact Hpool | |].
      - apply Hframe. apply Hne_rest. exact Hin.
      - apply Hes. apply elem_of_cons. right. exact Hin. }
    destruct Hcase as [[Hq1 Hm1] | (Hq1 & Hrm1 & Hwt1)].
    + (* [e] was removed *)
      rewrite Hq, Remove_middle in Hq1 by exact Hnd.
      pose proof (NoDup_remove_middle _ _ _ Hnd) as Hnd1.
      subst msgs1.
      destruct c.
      * specialize (IH pre s1 sm1 msgs (wrap64 (iterated + 1)) (head rest0)
                      nowNanos batchSize fullScan Hq1 Hnd1 Hpre1 Hrest1 Hmsgs).
        destruct (scanLoop rest0 _ _ _ _ _ _) as [[next a'] |].
        -- cbv zeta in *. destruct IH as (kept & rest & H1 & H2 & H3 & H4 & H5).
           exists kept, rest. split; [exact H1 |]. split; [exact H2 |].
           split; [| split; [exact H4 | exact H5]].
           destruct H3 as [[-> ->] | [-> | H3]]; [| right; left; reflexivity | right; right; exact H3].
           destruct rest0 as [| c0 r0]; [right; left; reflexivity |].
           right. right. exists c0. split; [reflexivity |].
           apply elem_of_cons. left. reflexivity.
        -- rewrite Hretry in IH. exact IH.
      * cbv zeta. cbn [sa_world sa_msgsToWrite].
        exists [], rest0. rewrite !app_nil_r.
        split; [exact Hq1 |]. split; [exact Hnd1 |].
        split; [| split; [| exact Hmsgs]].
        -- destruct rest0 as [| c0 r0]; [right; left; reflexivity |].
           right. right. exists c0. split; [reflexivity |].
           apply elem_of_cons. left. reflexivity.
        -- intros h Hin. apply elem_of_app in Hin. destruct Hin as [Hin | Hin].
           ++ apply Hpre1. exact Hin.
           ++ apply msg_ok_weaken. apply Hrest1. exact Hin.
    + (* [e] stays *)
      assert (He1 : msg_ok (K + 1) s1 e).
      { destruct He_ok as (Hp & Hrm & Hwt).
        split; [rewrite Hpool; exact Hp |]. split; [rewrite Hrm1; exact Hrm |].
        intros HK. assert (K < max_int64) as HK' by lia. specialize (Hwt HK').
        destruct Hwt1 as [[-> _] | [-> _]]; [lia |].
        rewrite wrap64_id by (unfold in_int64, min_int64, max_int64 in *; lia). lia. }
      assert (Hq1' : queue (mw s1) = (pre ++ [e]) ++ rest0).
      { rewrite Hq1, Hq, <- app_assoc. reflexivity. }
      assert (Hnd1 : NoDup ((pre ++ [e]) ++ rest0)).
      { rewrite <- app_assoc. exact Hnd. }
      assert (Hpre1' : forall h, h ∈ pre ++ [e] -> msg_ok (K + 1) s1 h).
      { intros h Hin. apply elem_of_app in Hin. destruct Hin as [Hin | Hin].
        - apply Hpre1. exact Hin.
        - apply list_elem_of_singleton in Hin. subst h. exact He1. }
      assert (Hmsgs1 : forall h, h ∈ msgs1 -> h ∈ pre ++ [e]).
      { intros h Hin. apply elem_of_app.
        destruct Hwt1 as [[_ ->] | (_ & _ & ->)].
        - left. apply Hmsgs. exact Hin.
        - apply elem_of_app in Hin. destruct Hin as [Hin | Hin];
            [left; apply Hmsgs; exact Hin | right; exact Hin]. }
      destruct c.
      * specialize (IH (pre ++ [e]) s1 sm1 msgs1 (wrap64 (iterated + 1))
                      (head rest0) nowNanos batchSize fullScan Hq1' Hnd1
                      Hpre1' Hrest1 Hmsgs1).
        destruct (scanLoop rest0 _ _ _ _ _ _) as [[next a'] |].
        -- cbv zeta in *. destruct IH as (kept & rest & H1 & H2 & H3 & H4 & H5).
           exists ([e] ++ kept), rest. rewrite !app_assoc.
           split; [exact H1 |]. split; [exact H2 |].
           split; [| split; [exact H4 | exact H5]].
           destruct H3 as [[-> ->] | [-> | H3]]; [| right; left; reflexivity | right; right; exact H3].
           destruct rest0 as [| c0 r0]; [right; left; reflexivity |].
           right. right. exists c0. split; [reflexivity |].
           apply elem_of_cons. left. reflexivity.
        -- rewrite Hretry in IH. exact IH.
      * cbv zeta. cbn [sa_world sa_msgsToWrite].
        exists [e], rest0.
        split; [exact Hq1' |]. split; [exact Hnd1 |].
        split; [| split; [| exact Hmsgs1]].
        -- destruct rest0 as [| c0 r0]; [right; left; reflexivity |].
           right. right. exists c0. split; [reflexivity |].
           apply elem_of_cons. left. reflexivity.
        -- intros h Hin. apply elem_of_app in Hin. destruct Hin as [Hin | Hin].
           ++ apply Hpre1'. exact Hin.
           ++ apply msg_ok_weaken. apply Hrest1. exact Hin.
Qed.
Lemma elementsFrom_notin_app (c : handle) (pre l : list handle) :
  c ∉ pre -> elementsFrom c (pre ++ l) = elementsFrom c l.
Proof.
  induction pre as [| x pre IH]; intros Hnin.
  - reflexivity.
  - apply not_elem_of_cons in Hnin. destruct Hnin as [Hne Hnin].
    simpl. destruct (decide (x = c)); [congruence |]. apply IH. exact Hnin.
Qed.

Lemma elementsFrom_in (c : handle) (l : list handle) :
  c ∈ l -> exists l1 l2, l = l1 ++ c :: l2 /\ elementsFrom c l = c :: l2.
Proof.
  induction l as [| x l IH]; intros Hin; [inversion Hin |].
  simpl. destruct (decide (x = c)) as [-> | Hne].
  - exists [], l. split; reflexivity.
  - apply elem_of_cons in Hin. destruct Hin as [-> | Hin]; [congruence |].
    destruct (IH Hin) as (l1 & l2 & -> & Hel).
    exists (x :: l1), l2. split; [reflexivity | exact Hel].
Qed.

Lemma write_frame (io : ioEnv) (h : handle) (s : world) :
  match write io h s with
  | None => rm (getMsg h s) = None
  | Some (_, s') =>
      mw s' = mw s /\ poolNext (mPool s') = poolNext (mPool s) /\
      forall h', rm_wt (getMsg h' s') = rm_wt (getMsg h' s)
  end.
Proof.
  unfold write, IsDroppedOrConsumed. cbv zeta.
  destruct s as [w hp ps pl mt]. unfold setMsg, set_heap, getMsg.
  cbn [mw heap payloads mPool metrics]. rewrite lookup_insert_eq.
  cbn [default from_option Datatypes.id rm].
  destruct (rm (default zeroMessage (hp !! h))) as [r |] eqn:Hrm; [| reflexivity].
  assert (Hfr : forall h', rm_wt (default zeroMessage
             (<[h := Message (meta (default zeroMessage (hp !! h))) (Some r)
                       (initNanos (default zeroMessage (hp !! h)))
                       (expectedProcessAtNanos (default zeroMessage (hp !! h)))
                       (retryAtNanos (default zeroMessage (hp !! h)))
                       (writeTimes (default zeroMessage (hp !! h)))
                       (io_sentAt io h)
                       (isAcked (default zeroMessage (hp !! h)))
                       (readsInFlight (default zeroMessage (hp !! h)))]> hp !! h'))
           = rm_wt (default zeroMessage (hp !! h'))).
  { intros h'. destruct (decide (h' = h)) as [-> | Hne].
    - rewrite lookup_insert_eq. unfold rm_wt. cbn. rewrite Hrm. reflexivity.
    - rewrite lookup_insert_ne by congruence. reflexivity. }
  destruct (droppedOrConsumed _); cbn [mw mPool heap];
    (split; [reflexivity | split; [reflexivity | exact Hfr]]).
Qed.

Lemma writeMessages_frame (io : ioEnv) (messages : list handle) :
  forall s,
  match writeMessages io messages s with
  | None => exists h, h ∈ messages /\ rm (getMsg h s) = None
  | Some (_, s') =>
      mw s' = mw s /\ poolNext (mPool s') = poolNext (mPool s) /\
      forall h', rm_wt (getMsg h' s') = rm_wt (getMsg h' s)
  end.
Proof.
  induction messages as [| h rest IH]; intros s.
  - simpl. repeat split.
  - simpl. pose proof (write_frame io h s) as Hw.
    destruct (write io h s) as [[err s1] |].
    + destruct Hw as (Hm & Hp & Hf). destruct err.
      * split; [exact Hm | split; [exact Hp | exact Hf]].
      * specialize (IH s1). destruct (writeMessages io rest s1) as [[err' s2] |].
        -- destruct IH as (Hm' & Hp' & Hf').
           split; [congruence | split; [congruence |]].
           intros h'. rewrite Hf'. apply Hf.
        -- destruct IH as (h' & Hin & Hrm). exists h'.
           split; [apply elem_of_cons; right; exact Hin |].
           specialize (Hf h'). unfold rm_wt in Hf. congruence.
    + exists h. split; [apply elem_of_cons; left; reflexivity | exact Hw].
Qed.

Lemma writeBatch_frame (io : ioEnv) (messages : list handle) (s : world) :
  match writeBatch io messages s with
  | None => exists h, h ∈ messages /\ rm (getMsg h s) = None
  | Some (_, s') =>
      mw s' = mw s /\ poolNext (mPool s') = poolNext (mPool s) /\
      forall h', rm_wt (getMsg h' s') = rm_wt (getMsg h' s)
  end.
Proof.
  unfold writeBatch. destruct (io_noWriters io).
  - repeat split.
  - apply writeMessages_frame.
Qed.
Lemma scanBatchWithLock_inv (K : Z) (block : list handle)
    (cursor : option handle) (s : world) (nowNanos batchSize : Z)
    (fullScan : bool) (sm : list Z) :
  queue_inv K block cursor s ->
  match scanBatchWithLock cursor nowNanos batchSize fullScan sm s with
  | None =>
      K < max_int64 ->
      exists n, 1 <= n <= max_int64 /\ nextRetryAfterNanos (mw s) n = None
  | Some (next, a') =>
      queue_inv (K + 1) block next (sa_world a') /\
      (forall h, h ∈ sa_msgsToWrite a' -> h ∈ queue (mw (sa_world a'))) /\
      same_config (mw s) (mw (sa_world a')) /\
      acks_evolve (mw_acks (mw s)) (mw_acks (mw (sa_world a')))
  end.
Proof.
  intros (old & Hq & Hlast & Hnd & Hcur & Hok).
  unfold scanBatchWithLock.
  destruct cursor as [c |].
  - assert (Hc : c ∈ old) by (apply Hcur; reflexivity).
    assert (Hnb : c ∉ block).
    { intros Hin. apply NoDup_app in Hnd. destruct Hnd as (_ & Hdis & _).
      exact (Hdis c Hin Hc). }
    rewrite Hq, elementsFrom_notin_app by exact Hnb.
    destruct (elementsFrom_in c old Hc) as (l1 & l2 & Hold & ->).
    assert (Hq' : queue (mw s) = (block ++ l1) ++ c :: l2).
    { rewrite Hq, Hold, app_assoc. reflexivity. }
    assert (Hnd' : NoDup ((block ++ l1) ++ c :: l2)).
    { rewrite <- app_assoc, <- Hold. exact Hnd. }
    pose proof (scanLoop_queue K (c :: l2) (block ++ l1) s sm [] 0 None
                  nowNanos batchSize fullScan Hq' Hnd') as Hloop.
    pose proof (scanLoop_config (c :: l2) 0 None nowNanos batchSize fullScan
                  (ScanAcc s sm [])) as Hconf.
    destruct (scanLoop (c :: l2) 0 None nowNanos batchSize fullScan
                (ScanAcc s sm [])) as [[next a'] |].
    + destruct (Hconf next a' eq_refl) as (Hcfg & Hev & Hpool).
      cbn [sa_world] in Hcfg, Hev, Hpool.
      destruct Hloop as (kept & rest & H1 & H2 & H3 & H4 & H5).
      * intros h Hin. apply msg_ok_weaken. apply Hok. rewrite Hq'.
        apply elem_of_app. left. exact Hin.
      * intros h Hin. apply Hok. rewrite Hq'. apply elem_of_app. right. exact Hin.
      * intros h Hin. inversion Hin.
      * cbv zeta in *. split; [| split; [| split; [exact Hcfg | exact Hev]]].
        -- exists (l1 ++ kept ++ rest).
           split; [rewrite H1, <- !app_assoc; reflexivity |].
           split; [destruct Hcfg as (_&_&_&_&_&_&_&_&_&->); exact Hlast |].
           split; [rewrite <- !app_assoc in H2; exact H2 |].
           split; [| intros h Hin; apply H4; rewrite <- H1; exact Hin].
           intros c' ->. destruct H3 as [[Hn _] | [Hn | (c0 & Hn & Hin)]];
             try discriminate.
           injection Hn as ->. apply elem_of_app. right.
           apply elem_of_app. right. exact Hin.
        -- intros h Hin. rewrite H1. apply elem_of_app. left. apply H5. exact Hin.
    + intros HK. apply Hloop; try exact HK.
      * intros h Hin. apply msg_ok_weaken. apply Hok. rewrite Hq'.
        apply elem_of_app. left. exact Hin.
      * intros h Hin. apply Hok. rewrite Hq'. apply elem_of_app. right. exact Hin.
      * intros h Hin. inversion Hin.
  - simpl. split; [| split; [| split; [apply same_config_refl | apply acks_evolve_refl]]].
    + exists old. split; [exact Hq |]. split; [exact Hlast |].
      split; [exact Hnd |]. split; [discriminate |].
      intros h Hin. apply msg_ok_weaken. apply Hok. exact Hin.
    + intros h Hin. inversion Hin.
Qed.

Lemma queue_inv_frame (K : Z) (block : list handle) (cursor : option handle)
    (s s' : world) :
  mw s' = mw s ->
  poolNext (mPool s') = poolNext (mPool s) ->
  (forall h, rm_wt (getMsg h s') = rm_wt (getMsg h s)) ->
  queue_inv K block cursor s -> queue_inv K block cursor s'.
Proof.
  intros Hmw Hp Hf (old & Hq & Hlast & Hnd & Hcur & Hok).
  exists old. rewrite Hmw. split; [exact Hq |]. split; [exact Hlast |].
  split; [exact Hnd |]. split; [exact Hcur |].
  intros h Hin. eapply msg_ok_frame; [exact Hp | apply Hf | apply Hok; exact Hin].
Qed.

Lemma queue_inv_cursor_None (K : Z) (block : list handle)
    (cursor : option handle) (s : world) :
  queue_inv K block cursor s -> queue_inv K block None s.
Proof.
  intros (old & Hq & Hlast & Hnd & Hcur & Hok).
  exists old. split; [exact Hq |]. split; [exact Hlast |].
  split; [exact Hnd |]. split; [discriminate | exact Hok].
Qed.

Lemma scanIteration_inv (K : Z) (block : list handle) (io : ioEnv)
    (nowNanos : Z) (sc : scanner) (s : world) :
  queue_inv K block (sc_e sc) s ->
  match scanIteration io nowNanos sc s with
  | None =>
      K < max_int64 ->
      exists n, 1 <= n <= max_int64 /\ nextRetryAfterNanos (mw s) n = None
  | Some (sc', s') =>
      queue_inv (K + 1) block (sc_e sc') s' /\
      same_config (mw s) (mw s') /\
      acks_evolve (mw_acks (mw s)) (mw_acks (mw s'))
  end.
Proof.
  intros Hinv. unfold scanIteration.
  pose proof (scanBatchWithLock_inv K block (sc_e sc) s (sc_beforeBatchNanos sc)
                (MessageQueueScanBatchSize (opts (mw s))) (sc_fullScan sc)
                (sc_scanMetrics sc) Hinv) as Hb.
  destruct (scanBatchWithLock _ _ _ _ _ _) as [[e a] |]; [| exact Hb].
  destruct Hb as (Hq & Hmsgs & Hcfg & Hev).
  destruct (andb _ _).
  { cbn [sc_e]. split; [eapply queue_inv_cursor_None; exact Hq |].
    split; [exact Hcfg | exact Hev]. }
  destruct (sc_skipWrites sc).
  { cbn [sc_e]. split; [exact Hq | split; [exact Hcfg | exact Hev]]. }
  pose proof (writeBatch_frame io (sa_msgsToWrite a) (sa_world a)) as Hw.
  destruct (writeBatch io (sa_msgsToWrite a) (sa_world a)) as [[err s2] |].
  - destruct Hw as (Hmw & Hp & Hf). cbn [sc_e].
    split; [eapply queue_inv_frame; eassumption |].
    rewrite Hmw. split; [exact Hcfg | exact Hev].
  - destruct Hw as (h & Hin & Hrm). exfalso.
    destruct Hq as (old & _ & _ & _ & _ & Hok).
    destruct (Hok h (Hmsgs h Hin)) as (_ & Hrm' & _). contradiction.
Qed.
Lemma queue_inv_mono (K K' : Z) (block : list handle) (cursor : option handle)
    (s s' : world) :
  queue (mw s') = queue (mw s) ->
  lastNewWrite (mw s') = lastNewWrite (mw s) ->
  (poolNext (mPool s) <= poolNext (mPool s'))%nat ->
  (forall h, h ∈ queue (mw s) -> rm_wt (getMsg h s') = rm_wt (getMsg h s)) ->
  K <= K' ->
  queue_inv K block cursor s -> queue_inv K' block cursor s'.
Proof.
  intros Hq Hl Hp Hf HK (old & Hq0 & Hlast & Hnd & Hcur & Hok).
  exists old. rewrite Hq, Hl. split; [exact Hq0 |]. split; [exact Hlast |].
  split; [exact Hnd |]. split; [exact Hcur |].
  intros h Hin. destruct (Hok h Hin) as (H1 & H2 & H3).
  specialize (Hf h Hin). unfold rm_wt in Hf. injection Hf as Hrm Hwt.
  unfold msg_ok. rewrite Hrm, Hwt. split; [lia | split; [exact H2 |]].
  intros HK'. assert (K < max_int64) as HK0 by lia. specialize (H3 HK0). lia.
Qed.

Lemma InsertAfter_last (v mark : handle) (pre rest : list handle) :
  mark ∉ pre ->
  InsertAfter v mark (pre ++ mark :: rest) = Some (pre ++ mark :: v :: rest).
Proof.
  induction pre as [| x pre IH]; intros Hnin.
  - simpl. destruct (decide (mark = mark)); [reflexivity | congruence].
  - apply not_elem_of_cons in Hnin. destruct Hnin as [Hne Hnin].
    simpl. destruct (decide (x = mark)); [congruence |].
    rewrite IH by exact Hnin. reflexivity.
Qed.

Lemma enqueued_block (msg : handle) (block old : list handle) :
  NoDup (block ++ old) ->
  enqueued msg (block ++ old) (last block) =
  ((block ++ [msg]) ++ old, Some msg).
Proof.
  intros Hnd. unfold enqueued, PushFront.
  destruct (last block) as [mark |] eqn:Hlast.
  - apply last_Some in Hlast. destruct Hlast as [b' ->].
    rewrite <- !app_assoc. cbn [app].
    rewrite InsertAfter_last; [reflexivity |].
    rewrite <- app_assoc in Hnd. cbn [app] in Hnd.
    apply NoDup_app in Hnd. destruct Hnd as (_ & Hdis & _).
    intros Hin. apply (Hdis mark Hin). apply elem_of_cons. left. reflexivity.
  - apply last_None in Hlast. subst block. reflexivity.
Qed.

Lemma queue_inv_Write (K : Z) (block : list handle) (cursor : option handle)
    (r : payloadRef) (nowNanos : Z) (s : world) :
  0 <= K ->
  queue_inv K block cursor s ->
  queue_inv (K + 1)
    (if fst (isValidWriteWithLock nowNanos (mw s) (metrics s))
     then block ++ [poolNext (mPool s)] else block)
    cursor (Write r nowNanos s).
Proof.
  intros HK0 (old & Hq & Hlast & Hnd & Hcur & Hok).
  assert (Hfresh : forall h, h ∈ queue (mw s) -> h <> poolNext (mPool s)).
  { intros h Hin. destruct (Hok h Hin) as (Hlt & _). lia. }
  rewrite Write_eq. cbv zeta.
  destruct (fst (isValidWriteWithLock nowNanos (mw s) (metrics s))).
  - rewrite Hq, Hlast, enqueued_block by exact Hnd. cbn [fst snd].
    exists old. cbn [mw queue lastNewWrite mPool poolNext].
    split; [reflexivity |]. split; [rewrite last_snoc; reflexivity |].
    assert (Hnin : poolNext (mPool s) ∉ block ++ old).
    { intros Hin. rewrite <- Hq in Hin. exact (Hfresh _ Hin eq_refl). }
    split.
    { rewrite <- app_assoc. cbn [app]. apply NoDup_app.
      apply NoDup_app in Hnd. destruct Hnd as (Hb & Hdis & Ho).
      split; [exact Hb |]. split.
      - intros x Hx Hx'. apply elem_of_cons in Hx'. destruct Hx' as [-> | Hx'].
        + apply Hnin. apply elem_of_app. left. exact Hx.
        + exact (Hdis x Hx Hx').
      - apply NoDup_cons. split; [| exact Ho].
        intros Hin. apply Hnin. apply elem_of_app. right. exact Hin. }
    split; [exact Hcur |].
    intros h Hin. unfold msg_ok, getMsg. cbn [heap mPool poolNext].
    destruct (decide (h = poolNext (mPool s))) as [-> | Hne].
    + rewrite lookup_insert_eq. cbn. split; [lia | split; [discriminate | lia]].
    + rewrite lookup_insert_ne by congruence.
      assert (Hin' : h ∈ queue (mw s)).
      { rewrite Hq. rewrite <- app_assoc in Hin. cbn [app] in Hin.
        apply elem_of_app in Hin. apply elem_of_app.
        destruct Hin as [Hin | Hin]; [left; exact Hin |].
        apply elem_of_cons in Hin. destruct Hin as [-> | Hin]; [congruence |].
        right. exact Hin. }
      destruct (Hok h Hin') as (H1 & H2 & H3). unfold getMsg in H2, H3.
      split; [lia | split; [exact H2 |]].
      intros HK. assert (K < max_int64) as HK' by lia. specialize (H3 HK'). lia.
  - exists old. cbn [mw queue lastNewWrite mPool poolNext].
    split; [exact Hq |]. split; [exact Hlast |]. split; [exact Hnd |].
    split; [exact Hcur |].
    intros h Hin. unfold msg_ok, getMsg. cbn [heap mPool poolNext].
    rewrite lookup_insert_ne by (intros Heq; exact (Hfresh h Hin (eq_sym Heq))).
    destruct (Hok h Hin) as (H1 & H2 & H3). unfold getMsg in H2, H3.
    split; [lia | split; [exact H2 |]].
    intros HK. assert (K < max_int64) as HK' by lia. specialize (H3 HK'). lia.
Qed.

Lemma Write_isClosed (r : payloadRef) (nowNanos : Z) (s : world) :
  isClosed (mw (Write r nowNanos s)) = isClosed (mw s).
Proof.
  rewrite Write_eq. cbv zeta.
  destruct (fst (isValidWriteWithLock nowNanos (mw s) (metrics s))); reflexivity.
Qed.

Lemma close_inv_world (σ : system) (f : world -> world) :
  isClosed (mw (f (sys_world σ))) = isClosed (mw (sys_world σ)) ->
  close_inv σ -> close_inv (set_world f σ).
Proof.
  unfold close_inv, set_world. cbn [sys_closers sys_world sys_doneCh].
  intros ->. auto.
Qed.

Lemma close_inv_worker (σ : system) (wk : workerState) :
  close_inv σ -> close_inv (set_worker wk σ).
Proof. unfold close_inv, set_worker. auto. Qed.
Lemma queue_inv_cursor_eq (K : Z) (block : list handle) (c c' : option handle)
    (s : world) :
  c = c' -> queue_inv K block c s -> queue_inv K block c' s.
Proof. intros ->. auto. Qed.

Lemma closeLock_inv (σ : system) : close_inv σ -> close_inv (closeLock σ).
Proof.
  unfold close_inv, closeLock.
  destruct (sys_closers σ) as [| first others] eqn:Hcl.
  - intros (Hopen & Hdone). rewrite Hopen.
    unfold set_closers, set_world, set_mw. cbn. rewrite ?Hcl. cbn.
    destruct (mw (sys_world σ)); cbn.
    split; [reflexivity |]. split; [discriminate |]. split; [constructor |].
    rewrite Hdone. split; [discriminate | intros [H | H]; discriminate].
  - intros (Hclosed & Hfirst & Hothers & Hdone). rewrite Hclosed.
    unfold set_closers. cbn. rewrite ?Hcl. cbn.
    split; [exact Hclosed |]. split; [exact Hfirst |]. split; [| exact Hdone].
    apply Forall_app. split; [exact Hothers |]. constructor; [reflexivity | constructor].
Qed.

Lemma closeStep_inv (i : nat) (σ : system) :
  close_inv σ ->
  match closeStep i σ with
  | Ok σ' => close_inv σ' /\ sys_world σ' = sys_world σ /\
             sys_worker σ' = sys_worker σ
  | NotEnabled => True
  | Panics _ => False
  end.
Proof.
  unfold close_inv, closeStep.
  destruct (sys_closers σ) as [| first others] eqn:Hcl.
  - intros _. rewrite lookup_nil. exact I.
  - intros (Hclosed & Hfirst & Hothers & Hdone).
    destruct i as [| i].
    + cbn [lookup list_lookup].
      destruct first as [| | | early].
      * destruct (isEmpty (sys_world σ)).
        -- unfold set_closers. cbn. rewrite ?Hcl. cbn.
           split; [| split; reflexivity].
           split; [exact Hclosed |]. split; [discriminate |].
           split; [exact Hothers |].
           split; [intros Hd; apply Hdone in Hd; destruct Hd; discriminate |
                   intros [H | H]; discriminate].
        -- split; [| split; reflexivity]. rewrite ?Hcl.
           split; [exact Hclosed |]. split; [exact Hfirst |].
           split; [exact Hothers | exact Hdone].
      * destruct (sys_doneCh σ) eqn:Hd.
        -- destruct (proj1 Hdone eq_refl); discriminate.
        -- cbn. rewrite ?Hcl. cbn. split; [| split; reflexivity].
           split; [exact Hclosed |]. split; [discriminate |].
           split; [exact Hothers |].
           split; [intros _; left; reflexivity | reflexivity].
      * destruct (sys_worker σ) eqn:Hw; try exact I;
          (unfold set_closers; cbn; rewrite ?Hcl; cbn;
           split; [| split; [reflexivity | exact Hw]];
           split; [exact Hclosed |]; split; [discriminate |];
           split; [exact Hothers |];
           split; [intros _; right; reflexivity |
                   intros _; apply Hdone; left; reflexivity]).
      * exact I.
    + cbn [lookup list_lookup].
      destruct (others !! i) as [pc |] eqn:Hpc; [| exact I].
      assert (pc = PcReturned true) as ->.
      { eapply Forall_lookup in Hothers; [exact Hothers | exact Hpc]. }
      exact I.
Qed.
Lemma scanStart_inv (K : Z) (block : list handle) (beforeScan : Z) (s : world) :
  queue_inv K block None s ->
  let s' := snd (scanStart beforeScan s) in
  queue_inv (K + 1) [] (sc_e (fst (scanStart beforeScan s))) s' /\
  nextRetryAfterNanos (mw s') = nextRetryAfterNanos (mw s) /\
  msgID (mw s') = msgID (mw s) /\
  isClosed (mw s') = isClosed (mw s) /\
  mw_acks (mw s') = mw_acks (mw s).
Proof.
  intros (old & Hq & Hlast & Hnd & Hcur & Hok).
  unfold scanStart. cbn [fst snd sc_e]. cbv zeta.
  split; [| destruct s as [[] ? ? ? ?]; repeat split].
  exists (queue (mw s)).
  assert (Hq' : queue (mw (set_mw (with_lastNewWrite None) s)) = queue (mw s))
    by (destruct s as [[] ? ? ? ?]; reflexivity).
  assert (Hl' : lastNewWrite (mw (set_mw (with_lastNewWrite None) s)) = None)
    by (destruct s as [[] ? ? ? ?]; reflexivity).
  rewrite Hq', Hl'. split; [reflexivity |]. split; [reflexivity |].
  split; [cbn [app]; rewrite Hq; exact Hnd |].
  split.
  - intros c Hc. destruct (queue (mw s)) as [| x l]; [discriminate |].
    injection Hc as ->. apply elem_of_cons. left. reflexivity.
  - intros h Hin. apply msg_ok_weaken.
    destruct (Hok h Hin) as (H1 & H2 & H3).
    destruct s as [[] ? ? ? ?]. split; [exact H1 | split; [exact H2 | exact H3]].
Qed.

Lemma sys_inv_worker (K : Z) (block : list handle) (wk : workerState)
    (σ : system) :
  cursor_of wk = cursor_of (sys_worker σ) ->
  sys_inv K block σ -> sys_inv K block (set_worker wk σ).
Proof.
  intros Hc (HK & Hq & Hack & Hclose). unfold sys_inv, set_worker.
  cbn [sys_world sys_worker]. rewrite Hc.
  split; [exact HK |]. split; [exact Hq |]. split; [exact Hack |].
  exact Hclose.
Qed.

Ltac ssimpl :=
  unfold sys_inv, set_world, set_worker, set_closers;
  cbn [sys_world sys_worker sys_closers sys_doneCh cursor_of].

Lemma step_inv (K : Z) (block : list handle) (a : action) (σ : system) :
  sys_inv K block σ ->
  match step a σ with
  | Ok σ' =>
      sys_inv (K + 1) (next_block a σ block) σ' /\
      nextRetryAfterNanos (mw (sys_world σ')) =
        nextRetryAfterNanos (mw (sys_world σ)) /\
      hist_added (mw_acks (mw (sys_world σ'))) =
        (hist_added (mw_acks (mw (sys_world σ))) + admitted a σ)%nat
  | NotEnabled => True
  | Panics PanicCloseOfClosedChannel => False
  | Panics PanicInScan =>
      K < max_int64 ->
      exists n, 1 <= n <= max_int64 /\
                nextRetryAfterNanos (mw (sys_world σ)) n = None
  end.
Proof.
  intros (HK & Hq & Hack & Hclose).
  assert (Hstay : forall f : world -> world,
    (forall s, nextRetryAfterNanos (mw (f s)) = nextRetryAfterNanos (mw s)) ->
    (forall s, msgID (mw (f s)) = msgID (mw s)) ->
    (forall s, isClosed (mw (f s)) = isClosed (mw s)) ->
    (forall s, lastNewWrite (mw (f s)) = lastNewWrite (mw s)) ->
    (forall s, queue (mw (f s)) = queue (mw s)) ->
    (forall s, mw_acks (mw (f s)) = mw_acks (mw s)) ->
    (forall s, poolNext (mPool (f s)) = poolNext (mPool s)) ->
    (forall s h, rm_wt (getMsg h (f s)) = rm_wt (getMsg h s)) ->
    sys_inv (K + 1) block (set_world f σ) /\
    nextRetryAfterNanos (mw (sys_world (set_world f σ))) =
      nextRetryAfterNanos (mw (sys_world σ)) /\
    hist_added (mw_acks (mw (sys_world (set_world f σ)))) =
      (hist_added (mw_acks (mw (sys_world σ))) + 0)%nat).
  { intros f Hr Hid Hcl Hl Hqf Haf Hpf Hhf. ssimpl.
    split; [| split; [apply Hr | rewrite Haf; lia]].
    split; [lia |]. split; [| split].
    - eapply (queue_inv_mono K (K + 1) block _ (sys_world σ)); [apply Hqf | apply Hl | rewrite Hpf; lia | | | exact Hq].
      + intros h _. apply Hhf.
      + lia.
    - eapply ack_inv_evolve; [exact Hack | apply Hid |].
      rewrite Haf. apply acks_evolve_refl.
    - unfold close_inv. cbn [sys_closers sys_world sys_doneCh].
      rewrite Hcl. exact Hclose. }
  destruct a as [r nowNanos | mt | r | n | n | n | | beforeScan | io nowNanos
                 | afterScan | | | i]; cbn [step next_block admitted].
  - (* Write *)
    ssimpl. split; [| split].
    + split; [lia |]. split; [| split].
      * apply queue_inv_Write; assumption.
      * apply ack_inv_Write. exact Hack.
      * apply close_inv_world; [apply Write_isClosed | exact Hclose].
    + rewrite Write_eq. cbv zeta.
      destruct (fst (isValidWriteWithLock _ _ _)); reflexivity.
    + rewrite Write_eq. cbv zeta.
      destruct (fst (isValidWriteWithLock _ _ _)); cbn; lia.
  - (* Ack *)
    pose proof (acks_ack_frame mt (sys_world σ)) as Hfr. cbv zeta in Hfr.
    destruct Hfr as (Hcfg & Hqf & Hpf & Hhf & Hev).
    assert (Hsnd : forall s,
      mw (snd (Ack mt s)) = mw (snd (acks_ack mt s)) /\
      heap (snd (Ack mt s)) = heap (snd (acks_ack mt s)) /\
      mPool (snd (Ack mt s)) = mPool (snd (acks_ack mt s))).
    { intros s. unfold Ack. destruct (acks_ack mt s) as [[[|] z] s1];
        repeat split. }
    destruct (Hsnd (sys_world σ)) as (Hmw & Hhp & Hpl).
    ssimpl. rewrite !Hmw.
    pose proof Hcfg as (_ & _ & Hr & Hid & _ & _ & _ & Hcl & _ & Hl).
    split; [| split; [exact Hr | destruct Hev as (-> & _); lia]].
    split; [lia |]. split; [| split].
    + eapply (queue_inv_mono K (K + 1) block _ (sys_world σ)); [| | | | | exact Hq].
      * rewrite Hmw. exact Hqf.
      * rewrite Hmw. exact Hl.
      * rewrite Hpl, Hpf. lia.
      * intros h _. unfold getMsg. rewrite Hhp. apply Hhf.
      * lia.
    + eapply ack_inv_evolve; [exact Hack | rewrite Hmw; exact Hid |].
      rewrite Hmw. exact Hev.
    + unfold close_inv. cbn [sys_closers sys_world sys_doneCh].
      rewrite Hmw, Hcl. exact Hclose.
  - (* the producer drops a payload *)
    apply (Hstay (payload_Drop r)); intros; reflexivity.
  - apply (Hstay (SetCutoffNanos n)); intros; destruct s as [[] ? ? ? ?];
      reflexivity.
  - apply (Hstay (SetCutoverNanos n)); intros; destruct s as [[] ? ? ? ?];
      reflexivity.
  - apply (Hstay (SetMessageTTLNanos n)); intros; destruct s as [[] ? ? ? ?];
      reflexivity.
  - (* Init *)
    destruct (sys_worker σ) eqn:Hw; try exact I.
    destruct (Hstay (fun s => s)) as (Hi & Hr & Ha); try reflexivity.
    split; [| split; [exact Hr | exact Ha]].
    apply (sys_inv_worker _ _ WIdle) in Hi; [exact Hi |].
    cbn [set_world sys_worker]. rewrite Hw. reflexivity.
  - (* the head of a scan *)
    destruct (sys_worker σ) eqn:Hw; try exact I.
    cbn [cursor_of] in Hq.
    pose proof (scanStart_inv K block beforeScan (sys_world σ) Hq) as Hst.
    cbv zeta in Hst. destruct Hst as (Hq' & Hr & Hid & Hcl & Ha).
    destruct (scanStart beforeScan (sys_world σ)) as [sc s1]. cbn [fst snd] in *.
    ssimpl.
    split; [| split; [exact Hr | rewrite Ha; lia]].
    split; [lia |]. split; [exact Hq' |]. split.
    + eapply ack_inv_evolve; [exact Hack | exact Hid |].
      rewrite Ha. apply acks_evolve_refl.
    + unfold close_inv. cbn [sys_closers sys_world sys_doneCh].
      rewrite Hcl. exact Hclose.
  - (* a batch *)
    destruct (sys_worker σ) as [| | sc |] eqn:Hw; try exact I.
    cbn [cursor_of] in Hq.
    destruct (sc_e sc) as [c |] eqn:Hc; [| exact I].
    pose proof (scanIteration_inv K block io nowNanos sc (sys_world σ)) as Hit.
    rewrite Hc in Hit. specialize (Hit Hq).
    destruct (scanIteration io nowNanos sc (sys_world σ)) as [[sc' s1] |];
      [| exact Hit].
    destruct Hit as (Hq' & Hcfg & Hev).
    ssimpl.
    pose proof Hcfg as (_ & _ & Hr & Hid & _ & _ & _ & Hcl & _ & _).
    split; [| split; [exact Hr | destruct Hev as (-> & _); lia]].
    split; [lia |]. split; [exact Hq' |]. split.
    + eapply ack_inv_evolve; [exact Hack | exact Hid | exact Hev].
    + unfold close_inv. cbn [sys_closers sys_world sys_doneCh].
      rewrite Hcl. exact Hclose.
  - (* the tail of a scan *)
    destruct (sys_worker σ) as [| | sc |] eqn:Hw; try exact I.
    destruct (sc_e sc) as [c |] eqn:Hc; [exact I |].
    destruct (Hstay (scanEnd afterScan sc)) as (Hi & Hr & Ha);
      try (intros s; unfold scanEnd; destruct (sc_fullScan sc);
           destruct s as [[] ? ? ? ?]; reflexivity).
    split; [| split; [exact Hr | exact Ha]].
    apply (sys_inv_worker _ _ WIdle) in Hi; [exact Hi |].
    cbn [set_world sys_worker]. rewrite Hw. cbn [cursor_of]. congruence.
  - (* the worker returns *)
    destruct (sys_worker σ) eqn:Hw; try exact I.
    destruct (sys_doneCh σ); [| exact I].
    destruct (Hstay (fun s => s)) as (Hi & Hr & Ha); try reflexivity.
    split; [| split; [exact Hr | exact Ha]].
    apply (sys_inv_worker _ _ WExited) in Hi; [exact Hi |].
    cbn [set_world sys_worker]. rewrite Hw. reflexivity.
  - (* the locked section of Close *)
    assert (Hcl : forall σ0,
      nextRetryAfterNanos (mw (sys_world (closeLock σ0))) =
        nextRetryAfterNanos (mw (sys_world σ0)) /\
      msgID (mw (sys_world (closeLock σ0))) = msgID (mw (sys_world σ0)) /\
      lastNewWrite (mw (sys_world (closeLock σ0))) =
        lastNewWrite (mw (sys_world σ0)) /\
      queue (mw (sys_world (closeLock σ0))) = queue (mw (sys_world σ0)) /\
      mw_acks (mw (sys_world (closeLock σ0))) = mw_acks (mw (sys_world σ0)) /\
      mPool (sys_world (closeLock σ0)) = mPool (sys_world σ0) /\
      heap (sys_world (closeLock σ0)) = heap (sys_world σ0) /\
      sys_worker (closeLock σ0) = sys_worker σ0).
    { intros σ0. unfold closeLock. destruct (isClosed (mw (sys_world σ0)));
        destruct σ0 as [[[] ? ? ? ?] ? ? ?]; repeat split. }
    destruct (Hcl σ) as (Hr & Hid & Hl & Hqf & Haf & Hpf & Hhf & Hwf).
    split; [| split; [exact Hr | rewrite Haf; lia]].
    split; [lia |]. split; [| split].
    + rewrite Hwf.
      eapply (queue_inv_mono K (K + 1) block _ (sys_world σ));
        [exact Hqf | exact Hl | rewrite Hpf; lia | | | exact Hq].
      * intros h _. unfold getMsg. rewrite Hhf. reflexivity.
      * lia.
    + eapply ack_inv_evolve; [exact Hack | exact Hid |].
      rewrite Haf. apply acks_evolve_refl.
    + apply closeLock_inv. exact Hclose.
  - (* the rest of Close *)
    pose proof (closeStep_inv i σ Hclose) as Hst.
    destruct (closeStep i σ) as [σ' | | p]; [| exact I | destruct Hst].
    destruct Hst as (Hc' & Hw' & Hwk').
    unfold sys_inv. rewrite Hw', Hwk'. split; [| split; [reflexivity | lia]].
    split; [lia |]. split; [| split; [exact Hack | exact Hc']].
    eapply (queue_inv_mono K (K + 1) block _ (sys_world σ));
      [| | | | | exact Hq]; try reflexivity; lia.
Qed.
Lemma newSystem_inv (replicatedShardID : Z) (o : Options) :
  sys_inv 0 [] (newSystem replicatedShardID o).
Proof.
  unfold sys_inv, newSystem, newWorld, newMessageWriter. cbn.
  split; [lia |]. split; [| split].
  - exists []. cbn. split; [reflexivity |]. split; [reflexivity |].
    split; [constructor |]. split; [discriminate |].
    intros h Hin. inversion Hin.
  - unfold ack_inv. cbn. intros _. split; [reflexivity |]. split; [| reflexivity].
    intros k h Hl. rewrite lookup_empty in Hl. discriminate.
  - unfold close_inv. cbn. split; reflexivity.
Qed.

Lemma run_inv (tr : list action) :
  forall (K : Z) (block : list handle) (σ : system),
  sys_inv K block σ ->
  match run tr σ with
  | Ok σ' =>
      sys_inv (K + Z.of_nat (length tr)) (recentWrites tr σ block) σ' /\
      nextRetryAfterNanos (mw (sys_world σ')) =
        nextRetryAfterNanos (mw (sys_world σ)) /\
      hist_added (mw_acks (mw (sys_world σ'))) =
        (hist_added (mw_acks (mw (sys_world σ))) + admittedWrites tr σ)%nat
  | NotEnabled => True
  | Panics PanicCloseOfClosedChannel => False
  | Panics PanicInScan =>
      K + Z.of_nat (length tr) <= max_int64 ->
      exists n, 1 <= n <= max_int64 /\
                nextRetryAfterNanos (mw (sys_world σ)) n = None
  end.
Proof.
  induction tr as [| a tr IH]; intros K block σ Hinv.
  - cbn [run recentWrites admittedWrites length]. rewrite Z.add_0_r.
    split; [exact Hinv | split; [reflexivity | lia]].
  - cbn [run recentWrites admittedWrites]. pose proof (step_inv K block a σ Hinv) as Hst.
    destruct (step a σ) as [σ1 | | p].
    + destruct Hst as (Hinv1 & Hr1 & Ha1).
      specialize (IH (K + 1) (next_block a σ block) σ1 Hinv1).
      destruct (run tr σ1) as [σ2 | | p].
      * destruct IH as (Hinv2 & Hr2 & Ha2).
        split; [| split; [congruence | lia]].
        replace (K + Z.of_nat (length (a :: tr))) with (K + 1 + Z.of_nat (length tr))
          by (cbn [length]; lia).
        exact Hinv2.
      * exact I.
      * destruct p; [exact IH |]. intros Hlen. rewrite <- Hr1. apply IH.
        cbn [length] in Hlen. lia.
    + exact I.
    + destruct p; [exact Hst |]. intros Hlen. apply Hst.
      cbn [length] in Hlen. lia.
Qed.
(** ** Ids are acknowledged once along a trace *)

Lemma scanIteration_acks (io : ioEnv) (nowNanos : Z) (sc sc' : scanner)
    (s s' : world) :
  scanIteration io nowNanos sc s = Some (sc', s') ->
  acks_evolve (mw_acks (mw s)) (mw_acks (mw s')) /\
  msgID (mw s') = msgID (mw s).
Proof.
  unfold scanIteration, scanBatchWithLock.
  set (es := match sc_e sc with Some e => elementsFrom e (queue (mw s)) | None => [] end).
  pose proof (scanLoop_config es 0 None (sc_beforeBatchNanos sc)
                (MessageQueueScanBatchSize (opts (mw s))) (sc_fullScan sc)
                (ScanAcc s (sc_scanMetrics sc) [])) as Hconf.
  destruct (scanLoop es 0 None _ _ _ _) as [[e a] |]; [| discriminate].
  destruct (Hconf e a eq_refl) as (Hcfg & Hev & _). cbn [sa_world] in Hcfg, Hev.
  destruct Hcfg as (_ & _ & _ & Hid & _).
  destruct (andb _ _); [intros [= <- <-]; split; assumption |].
  destruct (sc_skipWrites sc); [intros [= <- <-]; split; assumption |].
  pose proof (writeBatch_frame io (sa_msgsToWrite a) (sa_world a)) as Hw.
  destruct (writeBatch io (sa_msgsToWrite a) (sa_world a)) as [[err s2] |];
    [| discriminate].
  destruct Hw as (Hmw & _). intros [= <- <-]. rewrite Hmw. split; assumption.
Qed.

(** The steps that do not touch the ack table or the id counter. *)
Lemma world_updates_keep_acks (n : Z) (r : payloadRef) (sc : scanner)
    (s : world) :
  let same (s' : world) :=
    mw_acks (mw s') = mw_acks (mw s) /\ msgID (mw s') = msgID (mw s) in
  same (payload_Drop r s) /\ same (SetCutoffNanos n s) /\
  same (SetCutoverNanos n s) /\ same (SetMessageTTLNanos n s) /\
  same (snd (scanStart n s)) /\ same (scanEnd n sc s) /\
  same (set_mw (with_isClosed true) s).
Proof.
  destruct s as [[] ? ? ? ?]. unfold scanEnd.
  destruct (sc_fullScan sc); repeat split; reflexivity.
Qed.

(** A step adds at most the id of the write it admits to the ack table, and
    leaves the id counter alone or moves it to that id. *)
Lemma step_acks (a : action) (σ σ' : system) :
  step a σ = Ok σ' ->
  let w := mw (sys_world σ) in
  let w' := mw (sys_world σ') in
  (forall k h, acks_map (mw_acks w') !! k = Some h ->
     acks_map (mw_acks w) !! k = Some h \/
     (admitted a σ = 1%nat /\ k = wrapu64 (msgID w + 1))) /\
  (msgID w' = msgID w \/
   (admitted a σ = 1%nat /\ msgID w' = wrapu64 (msgID w + 1))).
Proof.
  cbv zeta.
  assert (Hsame : forall s' : world,
    mw_acks (mw s') = mw_acks (mw (sys_world σ)) ->
    msgID (mw s') = msgID (mw (sys_world σ)) ->
    (forall k h, acks_map (mw_acks (mw s')) !! k = Some h ->
       acks_map (mw_acks (mw (sys_world σ))) !! k = Some h \/
       (admitted a σ = 1%nat /\ k = wrapu64 (msgID (mw (sys_world σ)) + 1))) /\
    (msgID (mw s') = msgID (mw (sys_world σ)) \/
     (admitted a σ = 1%nat /\
      msgID (mw s') = wrapu64 (msgID (mw (sys_world σ)) + 1)))).
  { intros s' -> ->. split; [intros k h Hk; left; exact Hk | left; reflexivity]. }
  assert (Hevolve : forall s' : world,
    acks_evolve (mw_acks (mw (sys_world σ))) (mw_acks (mw s')) ->
    msgID (mw s') = msgID (mw (sys_world σ)) ->
    (forall k h, acks_map (mw_acks (mw s')) !! k = Some h ->
       acks_map (mw_acks (mw (sys_world σ))) !! k = Some h \/
       (admitted a σ = 1%nat /\ k = wrapu64 (msgID (mw (sys_world σ)) + 1))) /\
    (msgID (mw s') = msgID (mw (sys_world σ)) \/
     (admitted a σ = 1%nat /\
      msgID (mw s') = wrapu64 (msgID (mw (sys_world σ)) + 1)))).
  { intros s' (_ & Hsub & _) ->.
    split; [intros k h Hk; left; apply Hsub; exact Hk | left; reflexivity]. }
  assert (Hkeep := fun n r sc => world_updates_keep_acks n r sc (sys_world σ)).
  cbv zeta in Hkeep.
  destruct a as [r nowNanos | mt | r | n | n | n | | beforeScan | io nowNanos
                 | afterScan | | | i]; cbn [step admitted].
  - intros [= <-]. unfold set_world. cbn [sys_world].
    rewrite Write_eq. cbv zeta.
    destruct (fst (isValidWriteWithLock _ _ _)).
    + cbn [mw mw_acks msgID acks_add acks_map id]. split; [| right; split; reflexivity].
      intros k h Hk.
      destruct (decide (k = wrapu64 (msgID (mw (sys_world σ)) + 1))) as [-> | Hne].
      * right. split; reflexivity.
      * left. rewrite lookup_insert_ne in Hk by congruence. exact Hk.
    + cbn [mw]. split; [intros k h Hk; left; exact Hk | left; reflexivity].
  - intros [= <-]. unfold set_world. cbn [sys_world].
    pose proof (acks_ack_frame mt (sys_world σ)) as Hfr. cbv zeta in Hfr.
    destruct Hfr as ((_ & _ & _ & Hid & _) & _ & _ & _ & Hev).
    assert (Hmw : mw (snd (Ack mt (sys_world σ))) =
                  mw (snd (acks_ack mt (sys_world σ)))).
    { unfold Ack. destruct (acks_ack mt (sys_world σ)) as [[[|] z] s1]; reflexivity. }
    rewrite Hmw. apply Hevolve; assumption.
  - intros [= <-]. apply Hsame; apply (Hkeep 0 r (Scanner None false 0 false [])).
  - intros [= <-]. apply Hsame; apply (Hkeep n 0%nat (Scanner None false 0 false [])).
  - intros [= <-]. apply Hsame; apply (Hkeep n 0%nat (Scanner None false 0 false [])).
  - intros [= <-]. apply Hsame; apply (Hkeep n 0%nat (Scanner None false 0 false [])).
  - destruct (sys_worker σ); intros [= <-]. apply Hsame; reflexivity.
  - destruct (sys_worker σ); try discriminate.
    intros [= <-]. unfold set_world, set_worker. cbn [sys_world].
    apply Hsame; apply (Hkeep beforeScan 0%nat (Scanner None false 0 false [])).
  - destruct (sys_worker σ) as [| | sc |]; try discriminate.
    destruct (sc_e sc); [| discriminate].
    destruct (scanIteration io nowNanos sc (sys_world σ)) as [[sc' s1] |] eqn:Hit;
      [| discriminate].
    intros [= <-]. unfold set_world, set_worker. cbn [sys_world].
    destruct (scanIteration_acks _ _ _ _ _ _ Hit) as [Hev Hid].
    apply Hevolve; assumption.
  - destruct (sys_worker σ) as [| | sc |]; try discriminate.
    destruct (sc_e sc); [discriminate |].
    intros [= <-]. unfold set_world, set_worker. cbn [sys_world].
    apply Hsame; apply (Hkeep afterScan 0%nat sc).
  - destruct (sys_worker σ); try discriminate.
    destruct (sys_doneCh σ); [| discriminate].
    intros [= <-]. apply Hsame; reflexivity.
  - intros [= <-]. unfold closeLock.
    destruct (isClosed (mw (sys_world σ))); unfold set_closers, set_world;
      cbn [sys_world]; [apply Hsame; reflexivity |].
    apply Hsame; apply (Hkeep 0 0%nat (Scanner None false 0 false [])).
  - intros Hstep. unfold closeStep in Hstep.
    destruct (sys_closers σ !! i) as [[| | | early] |]; try discriminate.
    + destruct (isEmpty (sys_world σ)); injection Hstep as <-;
        apply Hsame; reflexivity.
    + destruct (sys_doneCh σ); [discriminate |]. injection Hstep as <-.
      apply Hsame; reflexivity.
    + destruct (sys_worker σ); try discriminate; injection Hstep as <-;
        apply Hsame; reflexivity.
Qed.

(** Once an id that the counter has passed is absent from the ack table, no
    [Ack] for it returns true any more. *)
Lemma ackTrueCount_absent (i : Z) (tr : list action) :
  forall (K : Z) (block : list handle) (σ : system),
  sys_inv K block σ ->
  Z.of_nat (hist_added (mw_acks (mw (sys_world σ))) + admittedWrites tr σ) < 2 ^ 64 ->
  i <= msgID (mw (sys_world σ)) ->
  acks_map (mw_acks (mw (sys_world σ))) !! i = None ->
  ackTrueCount i tr σ = 0%nat.
Proof.
  induction tr as [| a tr IH]; intros K block σ Hinv Hlt Hi Habs; [reflexivity |].
  cbn [ackTrueCount admittedWrites] in *.
  pose proof (step_inv K block a σ Hinv) as Hst.
  destruct (step a σ) as [σ1 | | p] eqn:Hstep; [| reflexivity | reflexivity].
  destruct Hst as (Hinv1 & _ & Hadd1).
  pose proof (step_acks a σ σ1 Hstep) as Hacks. cbv zeta in Hacks.
  destruct Hacks as [Hgrow Hid].
  pose proof Hinv as (_ & _ & Hack & _).
  unfold ack_inv in Hack. cbv zeta in Hack.
  destruct Hack as (Hm & _ & _); [lia |].
  assert (Hid1 : i <= msgID (mw (sys_world σ1)) /\
                 (admitted a σ = 1%nat ->
                  wrapu64 (msgID (mw (sys_world σ)) + 1) = msgID (mw (sys_world σ)) + 1)).
  { assert (Hw : admitted a σ = 1%nat ->
       wrapu64 (msgID (mw (sys_world σ)) + 1) = msgID (mw (sys_world σ)) + 1).
    { intros Hadm. apply wrapu64_id. unfold in_uint64, max_uint64. lia. }
    split; [| exact Hw].
    destruct Hid as [-> | [Hadm ->]]; [exact Hi |]. rewrite Hw by exact Hadm. lia. }
  destruct Hid1 as [Hi1 Hw].
  assert (Habs1 : acks_map (mw_acks (mw (sys_world σ1))) !! i = None).
  { destruct (acks_map (mw_acks (mw (sys_world σ1))) !! i) as [h |] eqn:Hl;
      [| reflexivity].
    destruct (Hgrow i h Hl) as [Hold | [Hadm Hk]]; [congruence |].
    rewrite Hw in Hk by exact Hadm. lia. }
  rewrite (IH (K + 1) _ σ1 Hinv1); [| lia | exact Hi1 | exact Habs1].
  destruct a; try reflexivity.
  destruct (Z.eqb_spec (id mt) i) as [Heq | Hne]; [| reflexivity].
  rewrite Ack_absent by (rewrite Heq; exact Habs). reflexivity.
Qed.

Lemma ackTrueCount_le_1 (i : Z) (tr : list action) :
  forall (K : Z) (block : list handle) (σ : system),
  sys_inv K block σ ->
  Z.of_nat (hist_added (mw_acks (mw (sys_world σ))) + admittedWrites tr σ) < 2 ^ 64 ->
  (ackTrueCount i tr σ <= 1)%nat.
Proof.
  induction tr as [| a tr IH]; intros K block σ Hinv Hlt; [cbn; lia |].
  cbn [ackTrueCount admittedWrites] in *.
  pose proof (step_inv K block a σ Hinv) as Hst.
  destruct (step a σ) as [σ1 | | p] eqn:Hstep; [| lia | lia].
  destruct Hst as (Hinv1 & _ & Hadd1).
  assert (Hlt1 : Z.of_nat (hist_added (mw_acks (mw (sys_world σ1)))
                           + admittedWrites tr σ1) < 2 ^ 64) by lia.
  specialize (IH (K + 1) _ σ1 Hinv1 Hlt1).
  destruct a as [| mt | | | | | | | | | | |]; try (cbn [Nat.add]; exact IH).
  destruct (Z.eqb_spec (id mt) i) as [Heq | Hne]; [| exact IH].
  destruct (fst (Ack mt (sys_world σ))) eqn:Hres; [| exact IH].
  cbn [andb].
  (* the call returned true: the id was in the table, and is gone now *)
  destruct (acks_map (mw_acks (mw (sys_world σ))) !! id mt) as [h |] eqn:Hl.
  2: { rewrite Ack_absent in Hres by exact Hl. discriminate. }
  destruct (Ack_present mt (sys_world σ) h Hl) as (_ & Hmap & _).
  pose proof Hinv as (_ & _ & Hack & _).
  unfold ack_inv in Hack. cbv zeta in Hack.
  destruct Hack as (Hm & Hkeys & _); [lia |].
  cbn [step] in Hstep. injection Hstep as <-.
  unfold set_world in *. cbn [sys_world] in *.
  rewrite (ackTrueCount_absent i tr (K + 1) _ _ Hinv1); [lia | exact Hlt1 | |].
  - cbn [sys_world].
    assert (Hidsame : msgID (mw (snd (Ack mt (sys_world σ)))) = msgID (mw (sys_world σ))).
    { pose proof (acks_ack_frame mt (sys_world σ)) as Hfr. cbv zeta in Hfr.
      destruct Hfr as ((_ & _ & _ & Hid & _) & _).
      unfold Ack. destruct (acks_ack mt (sys_world σ)) as [[[|] z] s1];
        cbn [snd] in *; exact Hid. }
    rewrite Hidsame. subst i. apply (Hkeys _ _ Hl).
  - cbn [sys_world]. rewrite Hmap. subst i. apply lookup_delete_eq.
Qed.

(** C3. [Ack] returns false and leaves the whole state as it was when the id
    is not in the ack table (unknown, or acked before); it returns true when
    the id is there, and that call removes the entry and flags the envelope
    acked. Hence at most one [Ack] call for a given id returns true: in any
    sequence of [Ack] calls, and in any interleaving of [Ack] calls with
    writes, scans, drops and [Close] calls on a new writer (as long as fewer
    than 2^64 writes were admitted, so that no id was handed out twice). *)
Theorem Ack_at_most_once :
  (forall mt s,
     acks_map (mw_acks (mw s)) !! id mt = None -> Ack mt s = (false, s)) /\
  (forall mt s h,
     acks_map (mw_acks (mw s)) !! id mt = Some h ->
     fst (Ack mt s) = true /\
     acks_map (mw_acks (mw (snd (Ack mt s)))) =
       delete (id mt) (acks_map (mw_acks (mw s))) /\
     isAcked (getMsg h (snd (Ack mt s))) = true /\
     Ack mt (snd (Ack mt s)) = (false, snd (Ack mt s))) /\
  (forall mts s i, (ackedTrue i mts (fst (AckAll mts s)) <= 1)%nat) /\
  (forall replicatedShardID o tr i,
     Z.of_nat (admittedWrites tr (newSystem replicatedShardID o)) < 2 ^ 64 ->
     (ackTrueCount i tr (newSystem replicatedShardID o) <= 1)%nat).
Proof.
  split; [exact Ack_absent | split; [| split]].
  - intros mt s h Hsome.
    destruct (Ack_present mt s h Hsome) as (Ht & Hmap & Hacked).
    repeat split; try assumption.
    apply Ack_absent. rewrite Hmap. apply lookup_delete_eq.
  - intros mts s i. pose proof (AckAll_bound i mts s) as Hb.
    destruct (acks_map (mw_acks (mw s)) !! i); lia.
  - intros sid o tr i Hlt.
    apply (ackTrueCount_le_1 i tr 0 [] _ (newSystem_inv sid o)).
    cbn [newSystem sys_world newWorld mw newMessageWriter mw_acks newAckHelper
         hist_added Nat.add]. exact Hlt.
Qed.

Lemma Ack_at_most_once_witness :
  fst (Ack (Metadata 7 1) exWritten) = true /\
  Ack (Metadata 7 2) exWritten = (false, exWritten) /\
  (ackTrueCount 1 (exTraceAcked ++ [ActAck (Metadata 7 1)]) exSystem <= 1)%nat.
Proof.
  destruct Ack_at_most_once as (Habsent & Hpresent & _ & Htrace).
  split; [| split].
  - destruct (Hpresent (Metadata 7 1) exWritten 0%nat) as [Ht _];
      [vm_compute; reflexivity | exact Ht].
  - apply Habsent. vm_compute. reflexivity.
  - apply (Htrace 7 exOptions). vm_compute. reflexivity.
Defined.
(** ** A scan run on its own ends, and a scan of a closed writer empties
       the queue *)


(** A batch either visits nothing, or hands back the successor of the last
    element it visited. *)
Lemma scanLoop_progress (es : list handle) :
  forall (pre : list handle) (a : scanAcc) (iterated : Z) (nx : option handle)
         (nowNanos batchSize : Z) (fullScan : bool)
         (next : option handle) (a' : scanAcc),
  queue (mw (sa_world a)) = pre ++ es ->
  NoDup (pre ++ es) ->
  scanLoop es iterated nx nowNanos batchSize fullScan a = Some (next, a') ->
  exists kept rest,
    queue (mw (sa_world a')) = (pre ++ kept) ++ rest /\
    NoDup ((pre ++ kept) ++ rest) /\
    ((next = nx /\ kept = [] /\ rest = es) \/
     (next = head rest /\ (length rest < length es)%nat)).
Proof.
  induction es as [| e rest0 IH];
    intros pre a iterated nx nowNanos batchSize fullScan next a' Hq Hnd Hloop.
  - simpl in Hloop. injection Hloop as <- <-.
    exists [], []. rewrite !app_nil_r in *.
    split; [exact Hq | split; [exact Hnd | left; repeat split]].
  - simpl in Hloop.
    destruct (wrap64 (iterated + 1) >? batchSize).
    { injection Hloop as <- <-. exists [], (e :: rest0). rewrite !app_nil_r.
      split; [exact Hq | split; [exact Hnd | left; repeat split]]. }
    destruct (scanElement e nowNanos fullScan a) as [[c a1] |] eqn:Hel;
      [| discriminate].
    pose proof (scanElement_effect _ _ _ _ _ _ Hel) as Heff.
    unfold element_effect in Heff. cbv zeta in Heff.
    destruct Heff as (_ & _ & _ & _ & Hqueue).
    assert (Hq1 : (queue (mw (sa_world a1)) = pre ++ rest0 /\ NoDup (pre ++ rest0)) \/
                  (queue (mw (sa_world a1)) = (pre ++ [e]) ++ rest0 /\
                   NoDup ((pre ++ [e]) ++ rest0))).
    { destruct Hqueue as [[Hrem _] | [Hsame _]].
      - left. rewrite Hrem, Hq. split; [apply Remove_middle; exact Hnd |].
        apply (NoDup_remove_middle e). exact Hnd.
      - right. rewrite Hsame, Hq, <- app_assoc. split; [reflexivity | exact Hnd]. }
    destruct c.
    + destruct Hq1 as [[Hq1 Hnd1] | [Hq1 Hnd1]].
      * destruct (IH pre a1 _ _ _ _ _ _ _ Hq1 Hnd1 Hloop)
          as (kept & rest & Hq' & Hnd' & Hnext).
        exists kept, rest. split; [exact Hq' |]. split; [exact Hnd' |]. right.
        destruct Hnext as [(-> & _ & ->) | [-> Hlen]]; simpl; split; auto; lia.
      * destruct (IH (pre ++ [e]) a1 _ _ _ _ _ _ _ Hq1 Hnd1 Hloop)
          as (kept & rest & Hq' & Hnd' & Hnext).
        exists (e :: kept), rest.
        replace (pre ++ e :: kept) with ((pre ++ [e]) ++ kept)
          by (rewrite <- app_assoc; reflexivity).
        split; [exact Hq' |]. split; [exact Hnd' |]. right.
        destruct Hnext as [(-> & _ & ->) | [-> Hlen]]; simpl; split; auto; lia.
    + injection Hloop as <- <-.
      destruct Hq1 as [[Hq1 Hnd1] | [Hq1 Hnd1]].
      * exists [], rest0. rewrite app_nil_r. split; [exact Hq1 |].
        split; [exact Hnd1 |]. right. simpl. split; [reflexivity | lia].
      * exists [e], rest0. split; [exact Hq1 |].
        split; [exact Hnd1 |]. right. simpl. split; [reflexivity | lia].
Qed.

Lemma elementsFrom_head (c : handle) (pre l : list handle) :
  NoDup (pre ++ c :: l) -> elementsFrom c (pre ++ c :: l) = c :: l.
Proof.
  intros Hnd. rewrite elementsFrom_notin_app.
  - simpl. destruct (decide (c = c)); [reflexivity | congruence].
  - apply NoDup_app in Hnd. destruct Hnd as (_ & Hdisj & _).
    intros Hin. apply (Hdisj c Hin). apply elem_of_cons. left. reflexivity.
Qed.


(** On a closed writer the loop body acks and removes the element. *)
Lemma scanElement_closed (e : handle) (nowNanos : Z) (fullScan : bool)
    (s : world) (sm : list Z) (msgs : list handle) :
  isClosed (mw s) = true ->
  exists sm',
    scanElement e nowNanos fullScan (ScanAcc s sm msgs) =
    Some (Continue,
          ScanAcc (removeFromQueueWithLock e
                     (snd (acks_ack (meta (getMsg e s)) s))) sm' msgs).
Proof.
  intros Hcl. unfold scanElement. cbn [sa_world sa_metrics sa_msgsToWrite].
  rewrite Hcl. destruct (acks_ack (meta (getMsg e s)) s) as [[acked z] s1].
  eexists. reflexivity.
Qed.

Lemma scanLoop_closed (es : list handle) :
  forall (pre : list handle) (s : world) (sm : list Z) (msgs : list handle)
         (iterated : Z) (nx : option handle) (nowNanos batchSize : Z)
         (fullScan : bool),
  isClosed (mw s) = true ->
  queue (mw s) = pre ++ es ->
  NoDup (pre ++ es) ->
  0 <= iterated ->
  iterated + Z.of_nat (length es) <= max_int64 ->
  exists next a' rest,
    scanLoop es iterated nx nowNanos batchSize fullScan (ScanAcc s sm msgs)
      = Some (next, a') /\
    queue (mw (sa_world a')) = pre ++ rest /\
    isClosed (mw (sa_world a')) = true /\
    opts (mw (sa_world a')) = opts (mw s) /\
    sa_msgsToWrite a' = msgs /\
    (((es = [] \/ batchSize < iterated + 1) /\ next = nx /\ rest = es) \/
     (next = head rest /\ (length rest < length es)%nat)).
Proof.
  induction es as [| e rest0 IH];
    intros pre s sm msgs iterated nx nowNanos batchSize fullScan
           Hcl Hq Hnd Hit Hlen.
  - simpl. exists nx, (ScanAcc s sm msgs), []. cbn [sa_world sa_msgsToWrite].
    split; [reflexivity |]. split; [exact Hq |]. split; [exact Hcl |].
    split; [reflexivity |]. split; [reflexivity |].
    left. split; [left; reflexivity | split; reflexivity].
  - simpl. simpl length in Hlen.
    rewrite wrap64_id by (unfold in_int64, min_int64, max_int64 in *; lia).
    destruct (Z.gtb_spec (iterated + 1) batchSize) as [Hgt | Hle].
    { exists nx, (ScanAcc s sm msgs), (e :: rest0). cbn [sa_world sa_msgsToWrite].
      split; [reflexivity |]. split; [exact Hq |]. split; [exact Hcl |].
      split; [reflexivity |]. split; [reflexivity |].
      left. split; [right; lia | split; reflexivity]. }
    destruct (scanElement_closed e nowNanos fullScan s sm msgs Hcl) as [sm' ->].
    pose proof (acks_ack_frame (meta (getMsg e s)) s) as Hfa. cbv zeta in Hfa.
    destruct Hfa as (Hcfg1 & Hq1 & _).
    pose proof (removeFromQueueWithLock_frame e
                  (snd (acks_ack (meta (getMsg e s)) s))) as Hfr.
    cbv zeta in Hfr. destruct Hfr as (Hcfg2 & _ & Hq2 & _).
    pose proof (same_config_trans _ _ _ Hcfg1 Hcfg2) as Hcfg.
    destruct Hcfg as (_ & Hopts & _ & _ & _ & _ & _ & Hclosed & _).
    set (s2 := removeFromQueueWithLock e (snd (acks_ack (meta (getMsg e s)) s))) in *.
    assert (Hqs2 : queue (mw s2) = pre ++ rest0).
    { rewrite Hq2, Hq1, Hq. apply Remove_middle. exact Hnd. }
    destruct (IH pre s2 sm' msgs (iterated + 1) (head rest0) nowNanos batchSize
                fullScan) as (next & a' & rest & Hloop & Hq' & Hcl' & Ho' & Hm' & Hnext).
    + congruence.
    + exact Hqs2.
    + apply (NoDup_remove_middle e). exact Hnd.
    + lia.
    + lia.
    + exists next, a', rest. split; [exact Hloop |]. split; [exact Hq' |].
      split; [exact Hcl' |]. split; [congruence |]. split; [exact Hm' |].
      right. destruct Hnext as [(_ & -> & ->) | [-> Hl]]; simpl; split; auto; lia.
Qed.

Lemma scanIterations_closed (fuel : nat) :
  forall (io : nat -> ioEnv) (clock : nat -> Z) (k : nat) (sc : scanner)
         (s : world),
  isClosed (mw s) = true ->
  sc_fullScan sc = true ->
  NoDup (queue (mw s)) ->
  sc_e sc = head (queue (mw s)) ->
  1 <= MessageQueueScanBatchSize (opts (mw s)) ->
  Z.of_nat (length (queue (mw s))) <= max_int64 ->
  (length (queue (mw s)) < fuel)%nat ->
  exists sc' s',
    scanIterations fuel io clock k sc s = Some (sc', s') /\
    sc_e sc' = None /\ sc_fullScan sc' = true /\
    queue (mw s') = [] /\ isClosed (mw s') = true /\
    opts (mw s') = opts (mw s).
Proof.
  induction fuel as [| fuel IH];
    intros io clock k sc s Hcl Hfull Hnd He HB Hmax Hlen; [lia |].
  simpl. destruct (sc_e sc) as [c |] eqn:Hc.
  2: { exists sc, s. destruct (queue (mw s)); [| discriminate].
       repeat (split; [reflexivity || assumption |]). reflexivity. }
  destruct (queue (mw s)) as [| c0 q] eqn:Hq; [discriminate |].
  injection He as ->.
  unfold scanIteration, scanBatchWithLock. rewrite Hc, Hq.
  assert (Hef : elementsFrom c0 (c0 :: q) = c0 :: q)
    by (apply (elementsFrom_head c0 [] q); exact Hnd).
  rewrite Hef.
  cbn [length] in Hmax, Hlen.
  destruct (scanLoop_closed (c0 :: q) [] s (sc_scanMetrics sc) [] 0 None
              (sc_beforeBatchNanos sc)
              (MessageQueueScanBatchSize (opts (mw s))) (sc_fullScan sc)
              Hcl Hq Hnd ltac:(lia) ltac:(cbn [length]; lia))
    as (next & a' & rest & Hloop & Hq' & Hcl' & Ho' & Hm' & Hnext).
  destruct Hnext as [([Hnil | Hlt] & _) | [-> Hl]]; [discriminate | lia |].
  cbn [app] in Hq'.
  assert (Hnd' : NoDup rest).
  { destruct (scanLoop_progress (c0 :: q) [] (ScanAcc s (sc_scanMetrics sc) [])
                _ _ _ _ _ _ _ Hq Hnd Hloop) as (kept & rest2 & Hq2 & Hnd2 & _).
    rewrite <- Hq2, Hq' in Hnd2. exact Hnd2. }
  rewrite Hloop, Hfull. cbn [negb andb]. cbn [length] in Hl.
  assert (Hgo : forall sc1,
    sc_e sc1 = head rest -> sc_fullScan sc1 = true ->
    exists sc' s',
      scanIterations fuel io clock (S k) sc1 (sa_world a') = Some (sc', s') /\
      sc_e sc' = None /\ sc_fullScan sc' = true /\
      queue (mw s') = [] /\ isClosed (mw s') = true /\
      opts (mw s') = opts (mw s)).
  { intros sc1 He1 Hf1.
    destruct (IH io clock (S k) sc1 (sa_world a')) as (sc' & s' & Hrun & H1 & H2 & H3 & H4 & H5).
    - exact Hcl'.
    - exact Hf1.
    - rewrite Hq'. exact Hnd'.
    - rewrite Hq'. exact He1.
    - rewrite Ho'. exact HB.
    - rewrite Hq'. lia.
    - rewrite Hq'. lia.
    - exists sc', s'. repeat (split; [assumption |]). congruence. }
  destruct (sc_skipWrites sc).
  { apply Hgo; reflexivity. }
  rewrite Hm'. unfold writeBatch. cbn [writeMessages].
  destruct (io_noWriters (io k)); apply Hgo; reflexivity.
Qed.

(** A scan of a closed writer, run on its own with a batch size of at least
    one, leaves the queue empty. *)
Lemma scanMessageQueue_closed (io : nat -> ioEnv) (beforeScan : Z)
    (clock : nat -> Z) (afterScan : Z) (s : world) :
  isClosed (mw s) = true ->
  NoDup (queue (mw s)) ->
  1 <= MessageQueueScanBatchSize (opts (mw s)) ->
  Z.of_nat (length (queue (mw s))) <= max_int64 ->
  exists s',
    scanMessageQueue io beforeScan clock afterScan s = Some s' /\
    queue (mw s') = [] /\ isClosed (mw s') = true.
Proof.
  intros Hcl Hnd HB Hmax. unfold scanMessageQueue, scanStart.
  set (s0 := set_mw (with_lastNewWrite None) s).
  assert (Hs0 : queue (mw s0) = queue (mw s) /\ isClosed (mw s0) = isClosed (mw s) /\
                opts (mw s0) = opts (mw s))
    by (destruct s as [[] ? ? ? ?]; repeat split; reflexivity).
  destruct Hs0 as (Hq0 & Hc0 & Ho0).
  destruct (scanIterations_closed (S (length (queue (mw s0)))) io clock 0%nat
              (Scanner (head (queue (mw s)))
                 (isClosed (mw s0) || (beforeScan >? nextFullScan (mw s0)))
                 beforeScan false zeroScanBatchMetrics) s0)
    as (sc' & s' & Hrun & He' & Hf' & Hq' & Hcl' & _).
  - congruence.
  - cbn [sc_fullScan]. rewrite Hc0, Hcl. reflexivity.
  - rewrite Hq0. exact Hnd.
  - cbn [sc_e]. rewrite Hq0. reflexivity.
  - rewrite Ho0. exact HB.
  - rewrite Hq0. exact Hmax.
  - lia.
  - rewrite Hrun. exists (scanEnd afterScan sc' s'). split; [reflexivity |].
    unfold scanEnd. destruct (sc_fullScan sc'); [| split; assumption].
    destruct s' as [[] ? ? ? ?]. split; assumption.
Qed.
(** ** The order of the queue along a trace *)

Lemma precedes_sublist (a b : handle) (l k : list handle) :
  l `sublist_of` k -> precedes a b l -> precedes a b k.
Proof.
  intros Hsub (l1 & l2 & l3 & ->).
  apply sublist_app_l in Hsub. destruct Hsub as (k1 & k2 & -> & _ & Hsub).
  apply sublist_cons_l in Hsub. destruct Hsub as (k3 & k4 & -> & Hsub).
  apply sublist_app_l in Hsub. destruct Hsub as (k5 & k6 & -> & _ & Hsub).
  apply sublist_cons_l in Hsub. destruct Hsub as (k7 & k8 & -> & _).
  exists (k1 ++ k3), (k5 ++ k7), k8.
  rewrite <- !app_assoc. reflexivity.
Qed.

Lemma precedes_elem (a b : handle) (l : list handle) :
  precedes a b l -> a ∈ l /\ b ∈ l.
Proof.
  intros (l1 & l2 & l3 & ->). split.
  - apply elem_of_app. right. apply list_elem_of_here.
  - apply elem_of_app. right. apply list_elem_of_further.
    apply elem_of_app. right. apply list_elem_of_here.
Qed.

Lemma precedes_total (a b : handle) (l : list handle) :
  a <> b -> a ∈ l -> b ∈ l -> precedes a b l \/ precedes b a l.
Proof.
  intros Hne Ha Hb.
  apply list_elem_of_split in Ha. destruct Ha as (l1 & l2 & ->).
  apply elem_of_app in Hb. destruct Hb as [Hb | Hb].
  - right. apply list_elem_of_split in Hb. destruct Hb as (x & y & ->).
    exists x, y, l2. rewrite <- app_assoc. reflexivity.
  - apply elem_of_cons in Hb. destruct Hb as [-> | Hb]; [congruence |].
    left. apply list_elem_of_split in Hb. destruct Hb as (x & y & ->).
    exists l1, x, y. reflexivity.
Qed.

Lemma precedes_asym (a b : handle) (l : list handle) :
  NoDup l -> precedes a b l -> ~ precedes b a l.
Proof.
  intros Hnd (l1 & l2 & l3 & ->) (m1 & m2 & m3 & Heq).
  (* [b] is behind [a] in the first splitting and before it in the second *)
  assert (Hb : b ∈ l1).
  { assert (Hin : a ∈ m1 ++ b :: m2 ++ a :: m3).
    { apply elem_of_app. right. apply list_elem_of_further.
      apply elem_of_app. right. apply list_elem_of_here. }
    clear Hin.
    revert m1 Heq Hnd. induction l1 as [| x l1 IH]; intros m1 Heq Hnd.
    - destruct m1 as [| y m1]; simpl in Heq.
      + injection Heq as -> _. apply NoDup_cons in Hnd. destruct Hnd as [Hnot _].
        exfalso. apply Hnot. apply elem_of_app. right. apply list_elem_of_here.
      + injection Heq as <- Heq. apply NoDup_cons in Hnd. destruct Hnd as [Hnot _].
        exfalso. apply Hnot. rewrite Heq.
        apply elem_of_app. right. apply list_elem_of_further.
        apply elem_of_app. right. apply list_elem_of_here.
    - destruct m1 as [| y m1]; simpl in Heq.
      + injection Heq as -> _. apply list_elem_of_here.
      + injection Heq as <- Heq. apply list_elem_of_further.
        apply (IH m1 Heq). simpl in Hnd. apply NoDup_cons in Hnd. apply Hnd. }
  apply NoDup_app in Hnd. destruct Hnd as (_ & Hdisj & _).
  apply (Hdisj b Hb). apply list_elem_of_further.
  apply elem_of_app. right. apply list_elem_of_here.
Qed.

(** Two elements of a list keep their order in a sublist that has both. *)
Lemma precedes_in_sublist (a b : handle) (l k : list handle) :
  NoDup k -> l `sublist_of` k -> precedes a b k -> a ∈ l -> b ∈ l ->
  precedes a b l.
Proof.
  intros Hnd Hsub Hk Ha Hb.
  assert (Hne : a <> b).
  { intros ->. destruct Hk as (l1 & l2 & l3 & ->).
    apply NoDup_app in Hnd. destruct Hnd as (_ & _ & Hnd).
    apply NoDup_cons in Hnd. destruct Hnd as [Hnot _]. apply Hnot.
    apply elem_of_app. right. apply list_elem_of_here. }
  destruct (precedes_total a b l Hne Ha Hb) as [H | H]; [exact H |].
  exfalso. apply (precedes_asym a b k Hnd Hk).
  exact (precedes_sublist b a l k Hsub H).
Qed.

Lemma scanLoop_sublist (es : list handle) :
  forall (iterated : Z) (nx : option handle) (nowNanos batchSize : Z)
         (fullScan : bool) (a : scanAcc) (next : option handle) (a' : scanAcc),
  scanLoop es iterated nx nowNanos batchSize fullScan a = Some (next, a') ->
  queue (mw (sa_world a')) `sublist_of` queue (mw (sa_world a)).
Proof.
  induction es as [| e rest IH];
    intros iterated nx nowNanos batchSize fullScan a next a' Hloop.
  - simpl in Hloop. injection Hloop as <- <-. reflexivity.
  - simpl in Hloop.
    destruct (wrap64 (iterated + 1) >? batchSize);
      [injection Hloop as <- <-; reflexivity |].
    destruct (scanElement e nowNanos fullScan a) as [[c a1] |] eqn:Hel;
      [| discriminate].
    pose proof (scanElement_effect _ _ _ _ _ _ Hel) as Heff.
    unfold element_effect in Heff. cbv zeta in Heff.
    destruct Heff as (_ & _ & _ & _ & Hqueue).
    assert (H1 : queue (mw (sa_world a1)) `sublist_of` queue (mw (sa_world a))).
    { destruct Hqueue as [[-> _] | [-> _]]; [apply sublist_filter | reflexivity]. }
    destruct c; [| injection Hloop as <- <-; exact H1].
    etransitivity; [exact (IH _ _ _ _ _ _ _ _ Hloop) | exact H1].
Qed.

Lemma scanIteration_sublist (io : ioEnv) (nowNanos : Z) (sc sc' : scanner)
    (s s' : world) :
  scanIteration io nowNanos sc s = Some (sc', s') ->
  queue (mw s') `sublist_of` queue (mw s) /\
  poolNext (mPool s') = poolNext (mPool s).
Proof.
  unfold scanIteration, scanBatchWithLock.
  set (es := match sc_e sc with Some e => elementsFrom e (queue (mw s)) | None => [] end).
  destruct (scanLoop es 0 None (sc_beforeBatchNanos sc)
              (MessageQueueScanBatchSize (opts (mw s))) (sc_fullScan sc)
              (ScanAcc s (sc_scanMetrics sc) [])) as [[e a] |] eqn:Hloop;
    [| discriminate].
  pose proof (scanLoop_sublist _ _ _ _ _ _ _ _ _ Hloop) as Hsub.
  destruct (scanLoop_config _ _ _ _ _ _ _ _ _ Hloop) as (_ & _ & Hpool).
  cbn [sa_world] in Hsub, Hpool.
  destruct (andb _ _); [intros [= <- <-]; split; assumption |].
  destruct (sc_skipWrites sc); [intros [= <- <-]; split; assumption |].
  pose proof (writeBatch_frame io (sa_msgsToWrite a) (sa_world a)) as Hw.
  destruct (writeBatch io (sa_msgsToWrite a) (sa_world a)) as [[err s2] |];
    [| discriminate].
  destruct Hw as (Hmw & Hp2 & _). intros [= <- <-]. rewrite Hmw, Hp2.
  split; assumption.
Qed.

(** The steps that leave the queue and the pool alone. *)
Lemma world_updates_keep_queue (n : Z) (r : payloadRef) (sc : scanner)
    (mt : metadata) (s : world) :
  let same (s' : world) :=
    queue (mw s') = queue (mw s) /\ poolNext (mPool s') = poolNext (mPool s) in
  same (payload_Drop r s) /\ same (SetCutoffNanos n s) /\
  same (SetCutoverNanos n s) /\ same (SetMessageTTLNanos n s) /\
  same (snd (scanStart n s)) /\ same (scanEnd n sc s) /\
  same (set_mw (with_isClosed true) s) /\ same (snd (Ack mt s)).
Proof.
  cbv zeta.
  assert (HAck : queue (mw (snd (Ack mt s))) = queue (mw s) /\
                 poolNext (mPool (snd (Ack mt s))) = poolNext (mPool s)).
  { pose proof (acks_ack_frame mt s) as Hfr. cbv zeta in Hfr.
    destruct Hfr as (_ & Hq & Hp & _).
    unfold Ack. destruct (acks_ack mt s) as [[[|] z] s1]; cbn [snd] in *;
      [| split; assumption].
    destruct s1 as [? ? ? ? []]. split; assumption. }
  destruct s as [[] ? ? ? ?]. unfold scanEnd.
  destruct (sc_fullScan sc); repeat split; try reflexivity; apply HAck.
Qed.

Lemma step_order (K : Z) (block older : list handle) (a : action)
    (σ σ' : system) :
  sys_inv K block σ ->
  order_inv block older (sys_world σ) ->
  step a σ = Ok σ' ->
  order_inv (next_block a σ block) (next_older a σ block older) (sys_world σ') /\
  (block ++ older) `sublist_of`
    (next_block a σ block ++ next_older a σ block older).
Proof.
  intros Hsys Hord Hstep.
  pose proof (step_inv K block a σ Hsys) as Hst. rewrite Hstep in Hst.
  destruct Hst as ((_ & (old' & Hq' & _ & Hnd' & _) & _) & _).
  destruct Hsys as (_ & (oldq & Hq & Hlnw & Hndq & _ & Hok) & _).
  destruct Hord as (old & Hqo & Hsub & Hnd & Hfresh).
  assert (oldq = old) as -> by (rewrite Hq in Hqo; exact (app_inv_head _ _ _ Hqo)).
  (* a step that keeps the queue and the pool, and neither the block nor the
     older writes *)
  assert (Hsame : forall s' : world,
    queue (mw s') = queue (mw (sys_world σ)) ->
    poolNext (mPool s') = poolNext (mPool (sys_world σ)) ->
    order_inv block older s' /\ (block ++ older) `sublist_of` (block ++ older)).
  { intros s' Hqs Hps. split; [| reflexivity]. exists old.
    rewrite Hqs, Hps. auto. }
  assert (Hkeep := fun n r sc mt => world_updates_keep_queue n r sc mt (sys_world σ)).
  cbv zeta in Hkeep.
  destruct a as [r nowNanos | mt | r | n | n | n | | beforeScan | io nowNanos
                 | afterScan | | | i]; cbn [step next_block next_older] in *.
  - injection Hstep as <-. unfold set_world, order_inv. cbn [sys_world] in *.
    rewrite Write_eq in *. cbv zeta in *.
    destruct (fst (isValidWriteWithLock nowNanos (mw (sys_world σ))
                     (metrics (sys_world σ)))).
    + cbn [mw queue mPool poolNext] in *.
      rewrite Hq, Hlnw, (enqueued_block _ _ _ Hndq). cbn [fst].
      assert (Hnew : poolNext (mPool (sys_world σ)) ∉ block ++ older).
      { intros Hin. specialize (Hfresh _ Hin). lia. }
      split.
      * exists old. split; [reflexivity |]. split; [exact Hsub |]. split.
        -- rewrite <- app_assoc. cbn [app].
           apply NoDup_app in Hnd. destruct Hnd as (Hb & Hdisj & Ho).
           apply NoDup_app. split; [exact Hb |]. split.
           ++ intros x Hx Hx'. apply elem_of_cons in Hx'.
              destruct Hx' as [-> | Hx']; [| exact (Hdisj x Hx Hx')].
              apply Hnew. apply elem_of_app. left. exact Hx.
           ++ apply NoDup_cons. split; [| exact Ho].
              intros Hin. apply Hnew. apply elem_of_app. right. exact Hin.
        -- intros h Hin. rewrite <- app_assoc in Hin. cbn [app] in Hin.
           assert (Hc : h ∈ block ++ older \/ h = poolNext (mPool (sys_world σ))).
           { rewrite !elem_of_app, elem_of_cons in Hin.
             rewrite elem_of_app. tauto. }
           destruct Hc as [Hc | ->]; [specialize (Hfresh h Hc) |]; lia.
      * rewrite <- app_assoc. cbn [app].
        apply sublist_app; [reflexivity |]. apply sublist_cons. reflexivity.
    + cbn [mw mPool poolNext] in *. split; [| reflexivity].
      exists old. split; [exact Hq |]. split; [exact Hsub |].
      split; [exact Hnd |]. intros h Hin. specialize (Hfresh h Hin). lia.
  - injection Hstep as <-. unfold set_world. cbn [sys_world].
    apply Hsame; apply (Hkeep 0 0%nat (Scanner None false 0 false []) mt).
  - injection Hstep as <-. unfold set_world. cbn [sys_world].
    apply Hsame; apply (Hkeep 0 r (Scanner None false 0 false []) (Metadata 0 0)).
  - injection Hstep as <-. unfold set_world. cbn [sys_world].
    apply Hsame; apply (Hkeep n 0%nat (Scanner None false 0 false []) (Metadata 0 0)).
  - injection Hstep as <-. unfold set_world. cbn [sys_world].
    apply Hsame; apply (Hkeep n 0%nat (Scanner None false 0 false []) (Metadata 0 0)).
  - injection Hstep as <-. unfold set_world. cbn [sys_world].
    apply Hsame; apply (Hkeep n 0%nat (Scanner None false 0 false []) (Metadata 0 0)).
  - destruct (sys_worker σ); try discriminate. injection Hstep as <-.
    apply Hsame; reflexivity.
  - destruct (sys_worker σ); try discriminate.
    injection Hstep as <-. unfold set_world, set_worker. cbn [sys_world].
    destruct (Hkeep beforeScan 0%nat (Scanner None false 0 false []) (Metadata 0 0))
      as (_ & _ & _ & _ & [Hqs Hps] & _).
    change (snd (scanStart beforeScan (sys_world σ)))
      with (set_mw (with_lastNewWrite None) (sys_world σ)) in Hqs, Hps.
    split; [| reflexivity].
    exists (block ++ old). rewrite Hqs, Hps, Hq.
    split; [reflexivity |].
    split; [apply sublist_app; [reflexivity | exact Hsub] |].
    split; [exact Hnd | exact Hfresh].
  - destruct (sys_worker σ) as [| | sc |]; try discriminate.
    destruct (sc_e sc); [| discriminate].
    destruct (scanIteration io nowNanos sc (sys_world σ)) as [[sc' s1] |] eqn:Hit;
      [| discriminate].
    injection Hstep as <-. unfold set_world, set_worker in *. cbn [sys_world] in *.
    destruct (scanIteration_sublist _ _ _ _ _ _ Hit) as [Hs Hp].
    split; [| reflexivity].
    exists old'. split; [exact Hq' |]. rewrite Hp.
    split; [| split; [exact Hnd | exact Hfresh]].
    rewrite Hq', Hq in Hs. apply sublist_app_inv_l in Hs.
    etransitivity; [exact Hs | exact Hsub].
  - destruct (sys_worker σ) as [| | sc |]; try discriminate.
    destruct (sc_e sc); [discriminate |].
    injection Hstep as <-. unfold set_world, set_worker. cbn [sys_world].
    apply Hsame; apply (Hkeep afterScan 0%nat sc (Metadata 0 0)).
  - destruct (sys_worker σ); try discriminate.
    destruct (sys_doneCh σ); [| discriminate].
    injection Hstep as <-. apply Hsame; reflexivity.
  - injection Hstep as <-. unfold closeLock.
    destruct (isClosed (mw (sys_world σ))); unfold set_closers, set_world;
      cbn [sys_world]; [apply Hsame; reflexivity |].
    apply Hsame; apply (Hkeep 0 0%nat (Scanner None false 0 false []) (Metadata 0 0)).
  - unfold closeStep in Hstep.
    destruct (sys_closers σ !! i) as [[| | | early] |]; try discriminate.
    + destruct (isEmpty (sys_world σ)); injection Hstep as <-;
        apply Hsame; reflexivity.
    + destruct (sys_doneCh σ); [discriminate |]. injection Hstep as <-.
      apply Hsame; reflexivity.
    + destruct (sys_worker σ); try discriminate; injection Hstep as <-;
        apply Hsame; reflexivity.
Qed.

Lemma run_order (tr : list action) :
  forall (K : Z) (block older : list handle) (σ σ' : system),
  sys_inv K block σ ->
  order_inv block older (sys_world σ) ->
  run tr σ = Ok σ' ->
  order_inv (recentWrites tr σ block) (olderWrites tr σ block older)
            (sys_world σ') /\
  (block ++ older) `sublist_of`
    (recentWrites tr σ block ++ olderWrites tr σ block older).
Proof.
  induction tr as [| a tr IH]; intros K block older σ σ' Hsys Hord Hrun.
  - simpl in *. injection Hrun as <-. split; [exact Hord | reflexivity].
  - simpl in *.
    pose proof (step_inv K block a σ Hsys) as Hst.
    destruct (step a σ) as [σ1 | | p] eqn:Hstep; try discriminate.
    destruct Hst as (Hsys1 & _).
    destruct (step_order K block older a σ σ1 Hsys Hord Hstep) as [Hord1 Hsub1].
    destruct (IH (K + 1) _ _ σ1 σ' Hsys1 Hord1 Hrun) as [Hord' Hsub'].
    split; [exact Hord' |]. etransitivity; [exact Hsub1 | exact Hsub'].
Qed.

Lemma newSystem_order (replicatedShardID : Z) (o : Options) :
  order_inv [] [] (sys_world (newSystem replicatedShardID o)).
Proof.
  exists []. cbn. split; [reflexivity |]. split; [reflexivity |].
  split; [constructor |]. intros h Hin. inversion Hin.
Qed.

Lemma olderWrites_no_scan_start (tr : list action) :
  forall (σ : system) (block older : list handle),
  forallb (fun a => negb (startsScan a)) tr = true ->
  olderWrites tr σ block older = older.
Proof.
  induction tr as [| a tr IH]; intros σ block older Hno; [reflexivity |].
  simpl in *. apply andb_prop in Hno. destruct Hno as [Ha Hno].
  destruct (step a σ) as [σ1 | |]; try reflexivity.
  rewrite IH by exact Hno. destruct a; try reflexivity. discriminate.
Qed.

(** ** The queue *)

(** C2 (counterexample). A is written, a scan sends it and leaves it queued
    for its ack, then B is written: B (envelope 1, id 2) is inserted at the
    front of the queue, before A (envelope 0, id 1), not at the tail. *)
Lemma later_write_precedes_earlier :
  match run exTrace exSystem with
  | Ok σ =>
      queue (mw (sys_world σ)) = [1%nat; 0%nat] /\
      id (meta (getMsg 0%nat (sys_world σ))) = 1 /\
      id (meta (getMsg 1%nat (sys_world σ))) = 2 /\
      initNanos (getMsg 0%nat (sys_world σ)) = 100 /\
      initNanos (getMsg 1%nat (sys_world σ)) = 300
  | _ => False
  end.
Proof. vm_compute. repeat split; reflexivity. Qed.

(** C2 (amended). In every state the writer reaches, the queue is the
    messages of the writes admitted since the most recent scan started, in
    the order of their admission, followed by what is left of the messages
    that were queued when that scan started, in the order they had then;
    the last-new-write cursor is on the last of the former and no element
    is queued twice. An admitted [Write] puts its message right behind the
    former and in front of the latter. Two queued messages never change
    their order, whatever happens later: of two writes admitted with no
    scan start between them the earlier one comes first for as long as
    both are queued, and a message written after a scan started comes
    before all that were queued when it started. *)
Theorem recent_writes_head_the_queue (replicatedShardID : Z) (o : Options)
    (tr : list action) (σ : system) :
  run tr (newSystem replicatedShardID o) = Ok σ ->
  let recent := recentWrites tr (newSystem replicatedShardID o) [] in
  let older := olderWrites tr (newSystem replicatedShardID o) [] [] in
  exists old,
    queue (mw (sys_world σ)) = recent ++ old /\
    old `sublist_of` older /\
    NoDup (recent ++ older) /\
    NoDup (queue (mw (sys_world σ))) /\
    lastNewWrite (mw (sys_world σ)) = last recent /\
    (forall r nowNanos,
       fst (isValidWriteWithLock nowNanos (mw (sys_world σ))
              (metrics (sys_world σ))) = true ->
       queue (mw (Write r nowNanos (sys_world σ))) =
         (recent ++ [poolNext (mPool (sys_world σ))]) ++ old) /\
    (forall tr' σ',
       run tr' σ = Ok σ' ->
       (exists old',
          queue (mw (sys_world σ')) = recentWrites tr' σ recent ++ old' /\
          old' `sublist_of` olderWrites tr' σ recent old) /\
       (forall a b,
          precedes a b (queue (mw (sys_world σ))) ->
          a ∈ queue (mw (sys_world σ')) ->
          b ∈ queue (mw (sys_world σ')) ->
          precedes a b (queue (mw (sys_world σ'))))) /\
    (forall beforeScan tr' σ',
       forallb (fun a => negb (startsScan a)) tr' = true ->
       run (ActScanStart beforeScan :: tr') σ = Ok σ' ->
       exists old',
         queue (mw (sys_world σ')) =
           recentWrites (ActScanStart beforeScan :: tr') σ recent ++ old' /\
         old' `sublist_of` queue (mw (sys_world σ))).
Proof.
  intros Hrun. cbv zeta.
  pose proof (run_inv tr 0 [] _ (newSystem_inv replicatedShardID o)) as Hinv.
  rewrite Hrun in Hinv. destruct Hinv as (Hsys & _).
  destruct (run_order tr 0 [] [] _ σ (newSystem_inv replicatedShardID o)
              (newSystem_order replicatedShardID o) Hrun) as [Hord _].
  set (recent := recentWrites tr (newSystem replicatedShardID o) []) in *.
  set (older := olderWrites tr (newSystem replicatedShardID o) [] []) in *.
  pose proof Hsys as (_ & (oldq & Hq & Hlast & Hndq & _ & Hok) & _).
  pose proof Hord as (old & Hqo & Hsub & Hnd & _).
  assert (oldq = old) as ->
    by (rewrite Hq in Hqo; exact (app_inv_head _ _ _ Hqo)).
  exists old. split; [exact Hq |]. split; [exact Hsub |].
  split; [exact Hnd |]. split; [rewrite Hq; exact Hndq |].
  split; [exact Hlast |].
  assert (Hhere : order_inv recent old (sys_world σ)).
  { exists old. split; [exact Hq |]. split; [reflexivity |].
    split; [exact Hndq |]. intros h Hin. rewrite <- Hq in Hin.
    apply (Hok h Hin). }
  split; [| split].
  - intros r nowNanos Hvalid. rewrite Write_eq. cbv zeta. rewrite Hvalid.
    cbn [mw queue]. rewrite Hq, Hlast, (enqueued_block _ _ _ Hndq).
    reflexivity.
  - intros tr' σ' Hrun'. split.
    + destruct (run_order tr' _ recent old σ σ' Hsys Hhere Hrun')
        as [(old' & Hq' & Hsub' & _) _].
      exists old'. split; assumption.
    + intros a b Hprec Ha Hb.
      destruct (run_order tr' _ recent older σ σ' Hsys Hord Hrun')
        as [(old' & Hq' & Hsub' & Hnd' & _) Hmono].
      apply (precedes_in_sublist a b _
               (recentWrites tr' σ recent ++ olderWrites tr' σ recent older));
        [exact Hnd' | | | exact Ha | exact Hb].
      * rewrite Hq'. apply sublist_app; [reflexivity | exact Hsub'].
      * apply (precedes_sublist a b (recent ++ older)); [exact Hmono |].
        apply (precedes_sublist a b (queue (mw (sys_world σ)))); [| exact Hprec].
        rewrite Hq. apply sublist_app; [reflexivity | exact Hsub].
  - intros beforeScan tr' σ' Hno Hrun'.
    destruct (run_order _ _ recent old σ σ' Hsys Hhere Hrun')
      as [(old' & Hq' & Hsub' & _) _].
    exists old'. split; [exact Hq' |].
    cbn [run olderWrites next_older next_block step] in Hrun', Hsub'.
    destruct (sys_worker σ); try discriminate.
    unfold scanStart in Hrun', Hsub'.
    rewrite olderWrites_no_scan_start in Hsub' by exact Hno.
    rewrite Hq. exact Hsub'.
Qed.

Lemma recent_writes_head_the_queue_witness :
  match run [ActWrite 1%nat 100; ActWrite 2%nat 150] exSystem with
  | Ok σ =>
      match run [ActInit; ActScanStart 200; ActWrite 3%nat 300] σ with
      | Ok σ' =>
          queue (mw (sys_world σ)) = [0%nat; 1%nat] /\
          queue (mw (sys_world σ')) = [2%nat; 0%nat; 1%nat] /\
          precedes 0%nat 1%nat (queue (mw (sys_world σ')))
      | _ => False
      end
  | _ => False
  end.
Proof.
  pose proof (recent_writes_head_the_queue 7 exOptions
                [ActWrite 1%nat 100; ActWrite 2%nat 150]) as H.
  change (newSystem 7 exOptions) with exSystem in H.
  destruct (run [ActWrite 1%nat 100; ActWrite 2%nat 150] exSystem)
    as [σ | |] eqn:Hrun;
    [| vm_compute in Hrun; discriminate Hrun
     | vm_compute in Hrun; discriminate Hrun].
  destruct (H σ eq_refl) as (old & _ & _ & _ & _ & _ & _ & Hkeep & _).
  vm_compute in Hrun. injection Hrun as <-.
  match goal with
  | |- match run ?t ?s with _ => _ end =>
      specialize (Hkeep t); destruct (run t s) as [σ' | |] eqn:Hrun';
        [| vm_compute in Hrun'; discriminate Hrun'
         | vm_compute in Hrun'; discriminate Hrun']
  end.
  destruct (Hkeep σ' eq_refl) as [_ Horder].
  vm_compute in Hrun'. injection Hrun' as <-.
  split; [reflexivity |]. split; [reflexivity |].
  apply Horder.
  - exists [], [], []. reflexivity.
  - apply list_elem_of_further, list_elem_of_here.
  - apply list_elem_of_further, list_elem_of_further, list_elem_of_here.
Defined.

(** ** The size of the ack table *)

(** C5. [QueueSize] is the size of the ack table, and in every state the
    writer reaches (as long as fewer than 2^64 writes were admitted, so that
    no id was handed out twice) it equals the number of [Write] calls that
    passed admission, minus the number of ack transitions (calls of the
    table's [ack] that returned true, from [Ack] or from the scan's closed
    and TTL handling), minus the number of entries the scan's drop handling
    removed. *)
Theorem QueueSize_counts (replicatedShardID : Z) (o : Options)
    (tr : list action) (σ : system) :
  run tr (newSystem replicatedShardID o) = Ok σ ->
  Z.of_nat (admittedWrites tr (newSystem replicatedShardID o)) < 2 ^ 64 ->
  let a := mw_acks (mw (sys_world σ)) in
  QueueSize (sys_world σ) = Z.of_nat (size (acks_map a)) /\
  QueueSize (sys_world σ) =
    Z.of_nat (admittedWrites tr (newSystem replicatedShardID o))
    - Z.of_nat (hist_acked a) - Z.of_nat (hist_removed a).
Proof.
  intros Hrun Hlt. cbv zeta.
  pose proof (run_inv tr 0 [] _ (newSystem_inv replicatedShardID o)) as Hinv.
  rewrite Hrun in Hinv.
  destruct Hinv as ((_ & _ & Hack & _) & _ & Hadd).
  cbn in Hadd. unfold QueueSize, acks_size. split; [reflexivity |].
  unfold ack_inv in Hack. cbv zeta in Hack.
  rewrite Hadd in Hack. destruct Hack as (_ & _ & Hsize); [exact Hlt |].
  lia.
Qed.

Lemma QueueSize_counts_witness :
  match run exTraceAcked exSystem with
  | Ok σ =>
      QueueSize (sys_world σ) = 1 /\
      admittedWrites exTraceAcked exSystem = 2%nat /\
      hist_acked (mw_acks (mw (sys_world σ))) = 1%nat /\
      hist_removed (mw_acks (mw (sys_world σ))) = 0%nat
  | _ => False
  end.
Proof.
  pose proof (QueueSize_counts 7 exOptions exTraceAcked) as H.
  change (newSystem 7 exOptions) with exSystem in H.
  destruct (run exTraceAcked exSystem) as [σ | |] eqn:Hrun;
    [| vm_compute in Hrun; discriminate Hrun
     | vm_compute in Hrun; discriminate Hrun].
  assert (Hadm : admittedWrites exTraceAcked exSystem = 2%nat)
    by (vm_compute; reflexivity).
  specialize (H σ eq_refl). rewrite Hadm in H.
  destruct H as [_ H]; [vm_compute; reflexivity |].
  assert (Hσ : hist_acked (mw_acks (mw (sys_world σ))) = 1%nat /\
               hist_removed (mw_acks (mw (sys_world σ))) = 0%nat).
  { vm_compute in Hrun. injection Hrun as <-. split; reflexivity. }
  destruct Hσ as [Hk Hr]. rewrite Hk, Hr in H.
  split; [rewrite H; reflexivity |]. split; [exact Hadm |].
  split; [exact Hk | exact Hr].
Defined.

(** ** The scan never calls the retry function below 1 *)

(** A writer whose retry function is defined for every write count from 1
    on never panics in a scan: the scan increments the message's write
    count, which starts at 0, before it calls the function. The bound on the
    length of the trace keeps the write counts below the largest [int]. *)
Lemma run_no_scan_panic (replicatedShardID : Z) (o : Options)
    (tr : list action) :
  (forall n, 1 <= n <= max_int64 -> is_Some (GetMessageRetryNanosFn o n)) ->
  Z.of_nat (length tr) <= max_int64 ->
  run tr (newSystem replicatedShardID o) <> Panics PanicInScan.
Proof.
  intros Htotal Hlen Hrun.
  pose proof (run_inv tr 0 [] _ (newSystem_inv replicatedShardID o)) as Hinv.
  rewrite Hrun in Hinv. destruct Hinv as (n & Hn & Hnone); [lia |].
  cbn in Hnone. destruct (Htotal n Hn) as [b Hb]. congruence.
Qed.

(** C10. The function returned by [StaticRetryNanosFn] reads its table at
    index [writeTimes - 1] (or at the last index when that is beyond the
    table): for a write count in the range of [int] above its minimum, the
    access is in bounds exactly when [writeTimes >= 1], and for
    [writeTimes = 0] it is out of bounds, at index -1. The writer meets this
    precondition: whatever the callers and the scan worker do, no scan of a
    writer with such a retry function panics. *)
Theorem StaticRetryNanosFn_precondition (backoffDurations : list Z)
    (f : MessageRetryNanosFn) :
  StaticRetryNanosFn backoffDurations = Okay f ->
  (forall n, min_int64 < n <= max_int64 ->
     f n = index backoffDurations
             (Z.min (n - 1) (Z.of_nat (length backoffDurations) - 1)) /\
     (is_Some (f n) <-> 1 <= n)) /\
  f 0 = index backoffDurations (-1) /\
  f 0 = None /\
  (forall replicatedShardID o tr,
     GetMessageRetryNanosFn o = f ->
     Z.of_nat (length tr) <= max_int64 ->
     run tr (newSystem replicatedShardID o) <> Panics PanicInScan).
Proof.
  intros Hf.
  destruct backoffDurations as [| d ds]; [discriminate |].
  rewrite StaticRetryNanosFn_nonempty in Hf by discriminate.
  injection Hf as <-. cbv zeta.
  set (tbl := d :: ds). set (l := Z.of_nat (length tbl)).
  assert (Hl : 1 <= l) by (unfold l, tbl; simpl length; lia).
  assert (Hfn : forall n, min_int64 < n <= max_int64 ->
            (if wrap64 (n - 1) <? l then index tbl (wrap64 (n - 1))
             else index tbl (l - 1)) = index tbl (Z.min (n - 1) (l - 1)) /\
            (is_Some (if wrap64 (n - 1) <? l then index tbl (wrap64 (n - 1))
                      else index tbl (l - 1)) <-> 1 <= n)).
  { intros n Hn. rewrite wrap64_pred by exact Hn.
    destruct (Z.ltb_spec (n - 1) l) as [Hlt | Hge].
    - rewrite Z.min_l by lia. split; [reflexivity |]. split.
      + intros [b Hb]. destruct (Z.le_gt_cases 1 n) as [H1 | H1]; [exact H1 |].
        rewrite index_negative in Hb by lia. discriminate.
      + intros H1. apply index_lookup. fold l. lia.
    - rewrite Z.min_r by lia. split; [reflexivity |]. split; [lia |].
      intros _. apply index_lookup. fold l. lia. }
  split; [exact Hfn |].
  assert (H0 : (if wrap64 (0 - 1) <? l then index tbl (wrap64 (0 - 1))
                else index tbl (l - 1)) = index tbl (-1)).
  { destruct (Hfn 0) as [-> _]; [unfold min_int64, max_int64; lia |].
    rewrite Z.min_l by lia. reflexivity. }
  split; [exact H0 |]. split; [exact H0 |].
  intros sid o tr Ho Hlen. apply run_no_scan_panic; [| exact Hlen].
  intros n Hn. rewrite Ho.
  destruct (Hfn n) as [_ [_ Hs]]; [unfold min_int64; lia |].
  apply Hs. lia.
Qed.

Lemma StaticRetryNanosFn_precondition_witness :
  exStaticRetry 0 = None /\
  run exTrace (newSystem 7 exStaticOptions) <> Panics PanicInScan.
Proof.
  assert (Hf : StaticRetryNanosFn [10; 20; 30] = Okay exStaticRetry)
    by reflexivity.
  destruct (StaticRetryNanosFn_precondition [10; 20; 30] exStaticRetry Hf)
    as (_ & _ & H0 & Hrun).
  split; [exact H0 |].
  apply Hrun; [reflexivity | vm_compute; discriminate].
Defined.

(** ** Close *)



(** ** Doubles of small integers *)

Lemma digits2_pos_bounds (p : positive) :
  2 ^ (Zpos (digits2_pos p) - 1) <= Zpos p < 2 ^ Zpos (digits2_pos p).
Proof.
  induction p as [p IH | p IH |].
  - cbn [digits2_pos]. rewrite Pos2Z.inj_succ.
    replace (Z.succ (Zpos (digits2_pos p)) - 1) with (Zpos (digits2_pos p)) by lia.
    rewrite Z.pow_succ_r by lia.
    assert (0 < 2 ^ (Zpos (digits2_pos p) - 1)) by (apply Z.pow_pos_nonneg; lia).
    replace (2 ^ Zpos (digits2_pos p)) with (2 * 2 ^ (Zpos (digits2_pos p) - 1)) in *
      by (rewrite <- Z.pow_succ_r by lia; f_equal; lia).
    lia.
  - cbn [digits2_pos]. rewrite Pos2Z.inj_succ.
    replace (Z.succ (Zpos (digits2_pos p)) - 1) with (Zpos (digits2_pos p)) by lia.
    rewrite Z.pow_succ_r by lia.
    assert (0 < 2 ^ (Zpos (digits2_pos p) - 1)) by (apply Z.pow_pos_nonneg; lia).
    replace (2 ^ Zpos (digits2_pos p)) with (2 * 2 ^ (Zpos (digits2_pos p) - 1)) in *
      by (rewrite <- Z.pow_succ_r by lia; f_equal; lia).
    lia.
  - cbn. lia.
Qed.

Lemma digits2_pos_le (p : positive) (n : Z) :
  0 <= n -> Zpos p < 2 ^ n -> Zpos (digits2_pos p) <= n.
Proof.
  intros Hn Hp. pose proof (digits2_pos_bounds p) as [Hlo _].
  destruct (Z.le_gt_cases (Zpos (digits2_pos p)) n) as [H | H]; [exact H |].
  assert (2 ^ n <= 2 ^ (Zpos (digits2_pos p) - 1))
    by (apply Z.pow_le_mono_r; lia).
  lia.
Qed.

Lemma iter_xO_spec (p k : positive) :
  Zpos (Pos.iter xO p k) = Zpos p * 2 ^ Zpos k /\
  Zpos (digits2_pos (Pos.iter xO p k)) = Zpos (digits2_pos p) + Zpos k.
Proof.
  induction k as [| k IH] using Pos.peano_ind.
  - cbn. split; lia.
  - rewrite Pos.iter_succ. destruct IH as [IH1 IH2].
    cbn [digits2_pos]. rewrite Pos2Z.inj_xO, IH1, !Pos2Z.inj_succ, IH2.
    rewrite Z.pow_succ_r by lia. split; lia.
Qed.
(** Rounding a 53-bit mantissa with an exponent in the normal range changes
    nothing. *)
Lemma binary_round_aux_exact (s : bool) (m : positive) (e : Z) :
  Zpos (digits2_pos m) = 53 ->
  -1074 <= e <= 971 ->
  binary_round_aux F64.prec F64.emax s (Zpos m) e loc_Exact = S754_finite s m e.
Proof.
  intros Hd He. unfold binary_round_aux, shr_fexp, fexp, emin, F64.prec, F64.emax.
  cbn [Zdigits2 shr_record_of_loc]. rewrite Hd.
  replace (Z.max (53 + e - 53) (3 - 1024 - 53) - e) with 0 by lia.
  cbn [shr shr_m loc_of_shr_record round_nearest_even Zdigits2 shr_record_of_loc].
  rewrite Hd.
  replace (Z.max (53 + e - 53) (3 - 1024 - 53) - e) with 0 by lia.
  cbn [shr shr_m].
  destruct (Z.leb_spec e (1024 - 53)); [reflexivity | lia].
Qed.

(** Multiplying a normal double by 1. *)
Lemma F64_mul_one (s : bool) (m : positive) (e : Z) :
  Zpos (digits2_pos m) = 53 ->
  -1022 <= e <= 971 ->
  F64.mul (S754_finite s m e) F64.one = S754_finite s m e.
Proof.
  intros Hd He. unfold F64.mul, F64.one, SFmul.
  rewrite xorb_false_r.
  unfold binary_round_aux, shr_fexp, fexp, emin, F64.prec, F64.emax.
  rewrite (Pos.mul_comm m). cbv beta iota delta [PosDef.Pos.mul].
  cbn [Zdigits2 digits2_pos shr_record_of_loc].
  assert (Hd' : digits2_pos m = 53%positive) by (injection Hd as ->; reflexivity).
  rewrite Hd'. cbv beta iota delta [PosDef.Pos.succ].
  replace (Z.max (Zpos 105 + (e + -52) - 53) (3 - 1024 - 53) - (e + -52)) with 52
    by lia.
  cbn [shr].
  match goal with
  | |- context [SpecFloat.iter_pos shr_1 52 ?r] =>
      assert (Hit : SpecFloat.iter_pos shr_1 52 r =
                    Build_shr_record (Zpos m) false false) by reflexivity;
      rewrite !Hit
  end.
  cbn [shr_m shr_r shr_s loc_of_shr_record round_nearest_even Zdigits2
       shr_record_of_loc].
  rewrite Hd'.
  replace (Z.max (Zpos 53 + (e + -52 + 52) - 53) (3 - 1024 - 53) - (e + -52 + 52))
    with 0 by lia.
  cbn [shr shr_m].
  replace (e + -52 + 52) with e by lia.
  destruct (Z.leb_spec e (1024 - 53)); [reflexivity | lia].
Qed.
(** The double of an integer below 2^53 in absolute value: a 53-bit
    mantissa with the integer shifted to its top. *)
Lemma binary_round_small (s : bool) (p : positive) :
  Zpos p < 2 ^ 53 ->
  exists m e,
    binary_round F64.prec F64.emax s p 0 = S754_finite s m e /\
    Zpos (digits2_pos m) = 53 /\ -52 <= e <= 0 /\
    Zpos m = Zpos p * 2 ^ (- e).
Proof.
  intros Hp.
  assert (Hd : 1 <= Zpos (digits2_pos p) <= 53).
  { split; [lia | apply digits2_pos_le; [lia | exact Hp]]. }
  unfold binary_round, shl_align, fexp, emin, F64.prec, F64.emax.
  replace (Z.max (Zpos (digits2_pos p) + 0 - 53) (3 - 1024 - 53) - 0)
    with (Zpos (digits2_pos p) - 53) by lia.
  replace (Z.max (Zpos (digits2_pos p) + 0 - 53) (3 - 1024 - 53))
    with (Zpos (digits2_pos p) - 53) by lia.
  destruct (Zpos (digits2_pos p) - 53) as [| k | k] eqn:Hk.
  - exists p, 0. split; [| split; [lia | split; [lia |]]].
    + apply binary_round_aux_exact; lia.
    + cbn. lia.
  - lia.
  - destruct (iter_xO_spec p k) as [Hv Hdig].
    exists (Pos.iter xO p k), (Zneg k).
    split; [| split; [lia | split; [lia |]]].
    + apply binary_round_aux_exact; lia.
    + rewrite Hv. reflexivity.
Qed.

(** Converting an integer below 2^53 in absolute value to a double,
    multiplying by 1 and converting back gives the integer. *)
Lemma F64_round_trip (z : Z) :
  - 2 ^ 53 < z < 2 ^ 53 ->
  F64.trunc (F64.mul (F64.of_int z) F64.one) = Some z.
Proof.
  intros Hz. unfold F64.of_int, binary_normalize.
  assert (Hfin : forall s p, Zpos p < 2 ^ 53 ->
            F64.trunc (F64.mul (binary_round F64.prec F64.emax s p 0) F64.one)
            = Some (if s then - Zpos p else Zpos p)).
  { intros s p Hp. destruct (binary_round_small s p Hp) as (m & e & -> & Hd & He & Hm).
    rewrite F64_mul_one by (try exact Hd; lia).
    unfold F64.trunc.
    destruct (Z.leb_spec 0 e) as [H0 | Hneg].
    - assert (e = 0) as -> by lia. cbn [Z.opp] in Hm. rewrite Z.pow_0_r in *.
      f_equal. destruct s; lia.
    - rewrite Hm, Z.div_mul by (apply Z.pow_nonzero; lia). reflexivity. }
  destruct z as [| p | p].
  - reflexivity.
  - apply (Hfin false p). lia.
  - apply (Hfin true p). lia.
Qed.
(** Multiplying a normal double by a power of two moves its exponent. *)
Lemma F64_mul_pow2 (s : bool) (m : positive) (e k : Z) :
  Zpos (digits2_pos m) = 53 ->
  -1074 <= e + k <= 971 ->
  F64.mul (S754_finite s m e) (f64_pow2 k) = S754_finite s m (e + k).
Proof.
  intros Hd He. unfold F64.mul, f64_pow2, SFmul.
  rewrite xorb_false_r.
  unfold binary_round_aux, shr_fexp, fexp, emin, F64.prec, F64.emax.
  rewrite (Pos.mul_comm m). cbv beta iota delta [PosDef.Pos.mul].
  cbn [Zdigits2 digits2_pos shr_record_of_loc].
  assert (Hd' : digits2_pos m = 53%positive) by (injection Hd as ->; reflexivity).
  rewrite Hd'. cbv beta iota delta [PosDef.Pos.succ].
  replace (Z.max (Zpos 105 + (e + (k - 52)) - 53) (3 - 1024 - 53) - (e + (k - 52)))
    with 52 by lia.
  cbn [shr].
  match goal with
  | |- context [SpecFloat.iter_pos shr_1 52 ?r] =>
      assert (Hit : SpecFloat.iter_pos shr_1 52 r =
                    Build_shr_record (Zpos m) false false) by reflexivity;
      rewrite !Hit
  end.
  cbn [shr_m shr_r shr_s loc_of_shr_record round_nearest_even Zdigits2
       shr_record_of_loc].
  rewrite Hd'.
  replace (Z.max (Zpos 53 + (e + (k - 52) + 52) - 53) (3 - 1024 - 53)
           - (e + (k - 52) + 52)) with 0 by lia.
  cbn [shr shr_m].
  replace (e + (k - 52) + 52) with (e + k) by lia.
  destruct (Z.leb_spec (e + k) (1024 - 53)); [reflexivity | lia].
Qed.

(** The product of a positive integer below 2^53 and a power of two,
    computed in floating point, is exact. *)
Lemma F64_scale (z k : Z) :
  1 <= z < 2 ^ 53 ->
  0 <= k <= 971 ->
  F64.trunc (F64.mul (F64.of_int z) (f64_pow2 k)) = Some (z * 2 ^ k).
Proof.
  intros Hz Hk. destruct z as [| p | p]; try lia.
  unfold F64.of_int, binary_normalize.
  destruct (binary_round_small false p ltac:(lia)) as (m & e & -> & Hd & He & Hm).
  rewrite F64_mul_pow2 by (try exact Hd; lia).
  unfold F64.trunc. f_equal.
  destruct (Z.leb_spec 0 (e + k)) as [Hpos | Hneg].
  - rewrite Hm. rewrite <- Z.mul_assoc, <- Z.pow_add_r by lia.
    f_equal. f_equal. lia.
  - rewrite Hm.
    replace (- e) with (k + - (e + k)) by lia.
    rewrite Z.pow_add_r by lia. rewrite Z.mul_assoc.
    apply Z.div_mul. apply Z.pow_nonzero; lia.
Qed.

(** ** The exponential retry function *)

Lemma NextRetryNanosFn_eq (rt : platform) (retryOpts : retryOptions)
    (writeTimes : Z) :
  NextRetryNanosFn rt retryOpts writeTimes =
  Some (let backoff := if writeTimes >=? 1
                       then floatBackoff rt retryOpts writeTimes
                       else InitialBackoff retryOpts in
        let halfInMicros := Z.quot (Z.quot backoff 2) 1000 in
        let backoff :=
          if jitterApplies retryOpts backoff
          then wrap64 (wrap64 (halfInMicros * 1000)
                       + wrap64 (Fastrandn rt (wrapu32 halfInMicros) * 1000))
          else backoff in
        if backoff >? MaxBackoff retryOpts then MaxBackoff retryOpts
        else backoff).
Proof. reflexivity. Qed.

Lemma math_Pow_zero (rt : platform) (x : F64.float64) :
  math_Pow rt x (F64.of_int 0) = F64.one.
Proof. reflexivity. Qed.

Lemma floatBackoff_first (rt : platform) (retryOpts : retryOptions) :
  - 2 ^ 53 < InitialBackoff retryOpts < 2 ^ 53 ->
  floatBackoff rt retryOpts 1 = InitialBackoff retryOpts.
Proof.
  intros Hrange. unfold floatBackoff.
  change (wrap64 (1 - 1)) with 0. rewrite math_Pow_zero.
  unfold int64_of_float64. rewrite F64_round_trip by exact Hrange.
  unfold min_int64, max_int64.
  destruct (Z.leb_spec (- 2 ^ 63) (InitialBackoff retryOpts)),
    (Z.leb_spec (InitialBackoff retryOpts) (2 ^ 63 - 1)); cbn [andb];
    try reflexivity; lia.
Qed.

Lemma NextRetryNanosFn_jitterAndClamp (rt : platform)
    (retryOpts : retryOptions) (writeTimes : Z) :
  NextRetryNanosFn rt retryOpts writeTimes =
  Some (jitterAndClamp rt retryOpts
          (if writeTimes >=? 1 then floatBackoff rt retryOpts writeTimes
           else InitialBackoff retryOpts)).
Proof. reflexivity. Qed.

(** Where the jitter does not apply, only the clamp is left. *)
Lemma jitterAndClamp_plain (rt : platform) (retryOpts : retryOptions) (b : Z) :
  jitterApplies retryOpts b = false ->
  jitterAndClamp rt retryOpts b = Z.min (MaxBackoff retryOpts) b.
Proof.
  intros Hjit. unfold jitterAndClamp. cbv zeta. rewrite Hjit.
  destruct (Z.gtb_spec b (MaxBackoff retryOpts)); lia.
Qed.

(** Where the jitter applies to a backoff [b] and the draws of [Fastrandn]
    are below their bound, the value before the clamp is half of [b] in
    whole microseconds plus a draw below that half; it is at least that
    half and strictly below [b]. *)
Lemma jitterAndClamp_jitter (rt : platform) (retryOpts : retryOptions) (b : Z) :
  jitterApplies retryOpts b = true ->
  Fastrandn rt 0 = 0 ->
  (forall n, 0 < n -> 0 <= Fastrandn rt n < n) ->
  let h := Z.quot (Z.quot b 2) 1000 in
  jitterAndClamp rt retryOpts b =
    Z.min (MaxBackoff retryOpts) (1000 * (h + Fastrandn rt h)) /\
  h = b / 2000 /\
  0 <= Fastrandn rt h <= h /\
  1000 * h <= 1000 * (h + Fastrandn rt h) < b.
Proof.
  intros Happ H0 Hdraw. cbv zeta. unfold jitterAndClamp. cbv zeta.
  rewrite Happ. set (h := Z.quot (Z.quot b 2) 1000).
  unfold jitterApplies in Happ.
  apply andb_prop in Happ. destruct Happ as [Happ Hh].
  apply andb_prop in Happ. destruct Happ as [_ Hb].
  apply Z.geb_le in Hb. apply Z.ltb_lt in Hh. fold h in Hh.
  unfold max_uint32 in Hh.
  assert (Hhdef : h = b / 2000).
  { subst h. rewrite (Z.quot_div_nonneg b 2) by lia.
    rewrite Z.quot_div_nonneg; [| apply Z.div_pos; lia | lia].
    rewrite Z.div_div by lia. reflexivity. }
  assert (Hh0 : 0 <= h) by (rewrite Hhdef; apply Z.div_pos; lia).
  assert (Hhb : 2000 * h <= b)
    by (rewrite Hhdef; apply Z.mul_div_le; lia).
  assert (Hj : 0 <= Fastrandn rt h /\
               (Fastrandn rt h < h \/ (h = 0 /\ Fastrandn rt h = 0))).
  { destruct (Z.eq_dec h 0) as [Hz | Hne].
    - rewrite Hz, H0. split; [lia | right; split; reflexivity].
    - assert (Hpos : 0 < h) by lia.
      pose proof (Hdraw h Hpos). split; [lia | left; lia]. }
  destruct Hj as [Hj0 Hj].
  assert (Hw : wrapu32 h = h).
  { unfold wrapu32. apply Z.mod_small. lia. }
  rewrite Hw.
  rewrite (wrap64_id (h * 1000)) by (unfold in_int64, min_int64, max_int64; lia).
  rewrite (wrap64_id (Fastrandn rt h * 1000))
    by (unfold in_int64, min_int64, max_int64; lia).
  rewrite wrap64_id by (unfold in_int64, min_int64, max_int64; lia).
  replace (h * 1000 + Fastrandn rt h * 1000) with (1000 * (h + Fastrandn rt h))
    by lia.
  split; [| split; [exact Hhdef | split; lia]].
  destruct (Z.gtb_spec (1000 * (h + Fastrandn rt h)) (MaxBackoff retryOpts)); lia.
Qed.

(** C6 (counterexample). With jitter enabled, an initial backoff of 10ms, a
    factor of 2 and a maximum of one minute, the calls with write-times 0
    and 1 return 5ms when the random draw is 0, not the initial backoff. *)
Lemma jitter_changes_first_backoff :
  Jitter exJitter = true /\
  InitialBackoff exJitter = 10000000 /\
  NextRetryNanosFn exPlatform exJitter 0 = Some 5000000 /\
  NextRetryNanosFn exPlatform exJitter 1 = Some 5000000.
Proof. vm_compute. repeat split; reflexivity. Qed.

(** C6 (amended). For the call with write-times 0, and for the call with
    write-times 1 when the initial backoff is below 2^53 ns in absolute
    value (its conversion to [float64] and back is then exact):
    - when the jitter does not apply to the initial backoff (jitter
      disabled, or an initial backoff below 2ns, or half of it at least
      2^32-1 microseconds), the call returns the smaller of the maximum and
      the initial backoff, so exactly the initial backoff when that does
      not exceed the maximum;
    - when the jitter applies and the draws of [Fastrandn] are below their
      bound, the call returns the smaller of the maximum and half the
      initial backoff in whole microseconds plus a draw of at most that
      half, in nanoseconds; this is at least the half and strictly less
      than the initial backoff, so the call never returns the initial
      backoff. *)
Theorem NextRetryNanosFn_first_backoff (rt : platform)
    (retryOpts : retryOptions) :
  let b := InitialBackoff retryOpts in
  let h := Z.quot (Z.quot b 2) 1000 in
  let fn := NextRetryNanosFn rt retryOpts in
  (jitterApplies retryOpts b = false ->
   fn 0 = Some (Z.min (MaxBackoff retryOpts) b) /\
   (- 2 ^ 53 < b < 2 ^ 53 -> fn 1 = Some (Z.min (MaxBackoff retryOpts) b)) /\
   (b <= MaxBackoff retryOpts ->
    fn 0 = Some b /\ (- 2 ^ 53 < b < 2 ^ 53 -> fn 1 = Some b))) /\
  (jitterApplies retryOpts b = true ->
   Fastrandn rt 0 = 0 ->
   (forall n, 0 < n -> 0 <= Fastrandn rt n < n) ->
   fn 0 = Some (Z.min (MaxBackoff retryOpts) (1000 * (h + Fastrandn rt h))) /\
   (b < 2 ^ 53 ->
    fn 1 = Some (Z.min (MaxBackoff retryOpts) (1000 * (h + Fastrandn rt h)))) /\
   h = b / 2000 /\
   0 <= Fastrandn rt h <= h /\
   1000 * h <= 1000 * (h + Fastrandn rt h) < b /\
   fn 0 <> Some b /\
   (b < 2 ^ 53 -> fn 1 <> Some b)).
Proof.
  cbv zeta.
  assert (H0 : NextRetryNanosFn rt retryOpts 0 =
               Some (jitterAndClamp rt retryOpts (InitialBackoff retryOpts)))
    by reflexivity.
  assert (H1 : - 2 ^ 53 < InitialBackoff retryOpts < 2 ^ 53 ->
               NextRetryNanosFn rt retryOpts 1 =
               Some (jitterAndClamp rt retryOpts (InitialBackoff retryOpts))).
  { intros Hrange. rewrite NextRetryNanosFn_jitterAndClamp.
    change (1 >=? 1) with true. cbv iota.
    rewrite floatBackoff_first by exact Hrange. reflexivity. }
  split.
  - intros Hjit.
    pose proof (jitterAndClamp_plain rt retryOpts _ Hjit) as Hv.
    split; [rewrite H0, Hv; reflexivity |].
    split; [intros Hrange; rewrite (H1 Hrange), Hv; reflexivity |].
    intros Hmax. split.
    + rewrite H0, Hv. f_equal. lia.
    + intros Hrange. rewrite (H1 Hrange), Hv. f_equal. lia.
  - intros Hjit Hzero Hdraw.
    destruct (jitterAndClamp_jitter rt retryOpts _ Hjit Hzero Hdraw)
      as (Hv & Hh & Hd & Hlt).
    assert (Hb : 2 <= InitialBackoff retryOpts).
    { unfold jitterApplies in Hjit.
      apply andb_prop in Hjit. destruct Hjit as [Hjit _].
      apply andb_prop in Hjit. destruct Hjit as [_ Hjit].
      apply Z.geb_le in Hjit. exact Hjit. }
    split; [rewrite H0, Hv; reflexivity |].
    split; [intros Hrange; rewrite H1 by lia; rewrite Hv; reflexivity |].
    split; [exact Hh |]. split; [exact Hd |]. split; [exact Hlt |].
    split.
    + rewrite H0, Hv. intros [= Heq]. lia.
    + intros Hrange. rewrite H1 by lia. rewrite Hv. intros [= Heq]. lia.
Qed.

Lemma NextRetryNanosFn_first_backoff_witness :
  (NextRetryNanosFn exPlatform exNoJitter 0 = Some (InitialBackoff exNoJitter) /\
   NextRetryNanosFn exPlatform exNoJitter 1 = Some (InitialBackoff exNoJitter)) /\
  (NextRetryNanosFn exPlatform exJitter 0 = Some 5000000 /\
   NextRetryNanosFn exPlatform exJitter 1 = Some 5000000).
Proof.
  split.
  - destruct (NextRetryNanosFn_first_backoff exPlatform exNoJitter)
      as [Hplain _].
    destruct Hplain as (_ & _ & Hmax); [reflexivity |].
    destruct Hmax as [H0 H1]; [vm_compute; discriminate |].
    split; [exact H0 |]. apply H1. split; vm_compute; reflexivity.
  - destruct (NextRetryNanosFn_first_backoff exPlatform exJitter)
      as [_ Hjit].
    destruct Hjit as (H0 & H1 & _).
    + reflexivity.
    + reflexivity.
    + intros n Hn. simpl. lia.
    + split; [exact H0 |]. apply H1. vm_compute. reflexivity.
Defined.

(** The backoff factor is not restricted: without jitter, with an initial
    backoff of 100ns, a maximum of 1000ns and a backoff factor of one half,
    the backoff for write-times 2 is 50ns, below the 100ns for write-times
    1, and neither is clamped. *)
Lemma halving_backoff_decreases :
  Jitter exHalving = false /\
  MaxBackoff exHalving = 1000 /\
  NextRetryNanosFn exPlatform exHalving 1 = Some 100 /\
  NextRetryNanosFn exPlatform exHalving 2 = Some 50.
Proof. vm_compute. repeat split; reflexivity. Qed.

(** With a backoff factor of 2, no jitter and an initial backoff below
    2^53, on a platform that computes the power of two exactly: the value
    for the write count [k + 1] is the initial backoff times [2^k] while
    that fits an [int64], and the platform's conversion of the double
    otherwise; either is clamped from above only. *)
Lemma doubling_backoff_value (rt : platform) (initial maxBackoff k : Z) :
  1 <= initial < 2 ^ 53 ->
  0 <= k <= 971 ->
  math_Pow rt f64_two (F64.of_int k) = f64_pow2 k ->
  NextRetryNanosFn rt (RetryOptions false f64_two initial maxBackoff) (k + 1) =
    Some (Z.min maxBackoff
            (if initial * 2 ^ k <=? max_int64 then initial * 2 ^ k
             else int64_of_unrepresentable rt
                    (F64.mul (F64.of_int initial) (f64_pow2 k)))).
Proof.
  intros Hi Hk Hpow. rewrite NextRetryNanosFn_eq. cbv zeta.
  destruct (Z.geb_spec (k + 1) 1); [| lia].
  unfold floatBackoff, jitterApplies.
  cbn [Jitter BackoffFactor InitialBackoff MaxBackoff andb].
  replace (k + 1 - 1) with k by lia.
  rewrite wrap64_id by (unfold in_int64, min_int64, max_int64; lia).
  rewrite Hpow. unfold int64_of_float64.
  rewrite F64_scale by assumption.
  assert (Hpos : 1 <= initial * 2 ^ k).
  { assert (1 <= 2 ^ k) by (apply (Z.pow_le_mono_r 2 0 k); lia). nia. }
  destruct (Z.leb_spec min_int64 (initial * 2 ^ k));
    [| unfold min_int64 in *; lia].
  cbn [andb]. f_equal.
  match goal with |- (if ?x >? ?y then _ else _) = _ =>
    destruct (Z.gtb_spec x y); lia end.
Qed.

(** C7 (the failing input). Without jitter, with an initial backoff of
    10ms, a backoff factor of 2 and a maximum of one minute, on a platform
    that converts an out-of-range double to the smallest [int64]: the
    backoff for write-times 40 is the maximum, one minute, and the backoff
    for write-times 41, where 10ms times 2^40 no longer fits an [int64], is
    the smallest [int64], a negative number. *)
Lemma doubling_backoff_overflows :
  Jitter exNoJitter = false /\
  MaxBackoff exNoJitter = 60000000000 /\
  NextRetryNanosFn exAmd64 exNoJitter 40 = Some 60000000000 /\
  NextRetryNanosFn exAmd64 exNoJitter 41 = Some (- 2 ^ 63).
Proof. vm_compute. repeat split; reflexivity. Qed.

(** C7. With a backoff factor of 2, no jitter and an initial backoff below
    2^53 ns, on a platform that computes the powers of two exactly: as
    long as the initial backoff times [2^n] fits an [int64], the backoffs
    for the write counts [n] and [n + 1] are that product for [n - 1] and
    for [n], each clamped to the maximum, so the second is not below the
    first and stays at the maximum once the first has reached it. At the
    first write count whose product no longer fits, the function returns
    the platform's conversion of the out-of-range double, clamped from
    above only: where that conversion gives the smallest [int64], the
    backoff drops from the maximum to a negative number. *)
Theorem doubling_backoff (rt : platform) (initial maxBackoff n : Z) :
  1 <= initial < 2 ^ 53 ->
  1 <= n <= 971 ->
  math_Pow rt f64_two (F64.of_int (n - 1)) = f64_pow2 (n - 1) ->
  math_Pow rt f64_two (F64.of_int n) = f64_pow2 n ->
  let fn := NextRetryNanosFn rt (RetryOptions false f64_two initial maxBackoff) in
  (initial * 2 ^ n <= max_int64 ->
   fn n = Some (Z.min maxBackoff (initial * 2 ^ (n - 1))) /\
   fn (n + 1) = Some (Z.min maxBackoff (initial * 2 ^ n)) /\
   Z.min maxBackoff (initial * 2 ^ (n - 1)) <= Z.min maxBackoff (initial * 2 ^ n) /\
   (maxBackoff <= initial * 2 ^ (n - 1) ->
    fn n = Some maxBackoff /\ fn (n + 1) = Some maxBackoff)) /\
  (initial * 2 ^ (n - 1) <= max_int64 < initial * 2 ^ n ->
   fn n = Some (Z.min maxBackoff (initial * 2 ^ (n - 1))) /\
   fn (n + 1) =
     Some (Z.min maxBackoff
             (int64_of_unrepresentable rt
                (F64.mul (F64.of_int initial) (f64_pow2 n)))) /\
   (int64_of_unrepresentable rt (F64.mul (F64.of_int initial) (f64_pow2 n))
      = min_int64 ->
    min_int64 <= maxBackoff ->
    fn (n + 1) = Some min_int64)).
Proof.
  intros Hi Hn Hpow1 Hpow2. cbv zeta.
  assert (Hk1 : 0 <= n - 1 <= 971) by lia.
  assert (Hk2 : 0 <= n <= 971) by lia.
  pose proof (doubling_backoff_value rt initial maxBackoff (n - 1) Hi Hk1 Hpow1)
    as H1.
  pose proof (doubling_backoff_value rt initial maxBackoff n Hi Hk2 Hpow2)
    as H2.
  replace (n - 1 + 1) with n in H1 by lia.
  assert (Hstep : initial * 2 ^ (n - 1) <= initial * 2 ^ n).
  { assert (2 ^ (n - 1) <= 2 ^ n) by (apply Z.pow_le_mono_r; lia). nia. }
  split.
  - intros Hfit.
    destruct (Z.leb_spec (initial * 2 ^ (n - 1)) max_int64); [| lia].
    destruct (Z.leb_spec (initial * 2 ^ n) max_int64); [| lia].
    split; [exact H1 |]. split; [exact H2 |]. split; [lia |].
    intros Hreach. rewrite H1, H2. split; f_equal; lia.
  - intros [Hfit Hover].
    destruct (Z.leb_spec (initial * 2 ^ (n - 1)) max_int64); [| lia].
    destruct (Z.leb_spec (initial * 2 ^ n) max_int64); [lia |].
    split; [exact H1 |]. split; [exact H2 |].
    intros Hconv Hmin. rewrite H2, Hconv. f_equal. lia.
Qed.

Lemma doubling_backoff_witness :
  NextRetryNanosFn exAmd64 (RetryOptions false f64_two 10000000 60000000000) 40
    = Some (Z.min 60000000000 (10000000 * 2 ^ (40 - 1))) /\
  NextRetryNanosFn exAmd64 (RetryOptions false f64_two 10000000 60000000000)
    (40 + 1) = Some min_int64.
Proof.
  assert (Hi : 1 <= 10000000 < 2 ^ 53) by (split; [lia | reflexivity]).
  assert (Hn : 1 <= 40 <= 971) by lia.
  assert (Hp1 : math_Pow exAmd64 f64_two (F64.of_int (40 - 1)) = f64_pow2 (40 - 1))
    by (vm_compute; reflexivity).
  assert (Hp2 : math_Pow exAmd64 f64_two (F64.of_int 40) = f64_pow2 40)
    by (vm_compute; reflexivity).
  destruct (doubling_backoff exAmd64 10000000 60000000000 40 Hi Hn Hp1 Hp2)
    as [_ Hover].
  destruct Hover as (H40 & _ & H41).
  - split; vm_compute; [discriminate | reflexivity].
  - split; [exact H40 |]. apply H41; [reflexivity |].
    vm_compute. discriminate.
Defined.
(** ** The ack table, the queue and the queue counters along a trace *)

Lemma getMsg_setMsg_eq (h : handle) (m : message) (s : world) :
  getMsg h (setMsg h m s) = m.
Proof.
  unfold getMsg, setMsg, set_heap. cbn [heap]. rewrite lookup_insert_eq.
  reflexivity.
Qed.

Lemma getMsg_setMsg_ne (h e : handle) (m : message) (s : world) :
  h <> e -> getMsg h (setMsg e m s) = getMsg h s.
Proof.
  intros Hne. unfold getMsg, setMsg, set_heap. cbn [heap].
  rewrite lookup_insert_ne by congruence. reflexivity.
Qed.

(** The invariant reads the queue, the ack table, the two queue counters
    and, of the envelopes, the id and the ack flag. *)
Lemma table_inv_same (s s' : world) :
  queue (mw s') = queue (mw s) ->
  mw_acks (mw s') = mw_acks (mw s) ->
  enqueuedMessages (metrics s') = enqueuedMessages (metrics s) ->
  dequeuedMessages (metrics s') = dequeuedMessages (metrics s) ->
  (forall h, h ∈ queue (mw s) ->
     meta (getMsg h s') = meta (getMsg h s) /\
     isAcked (getMsg h s') = isAcked (getMsg h s)) ->
  table_inv s -> table_inv s'.
Proof.
  intros Hq Ha He Hd Hh (T1 & T3 & T2). unfold table_inv.
  rewrite Hq, Ha, He, Hd. split; [| split; [| exact T2]].
  - intros k h Hl. destruct (T1 k h Hl) as (Hin & Hid & Hack).
    destruct (Hh h Hin) as [-> ->]. auto.
  - intros Hlt h Hin Hack. destruct (Hh h Hin) as [Hm Hi].
    rewrite Hm. apply T3; [exact Hlt | exact Hin | congruence].
Qed.

Lemma Remove_elem (e h : handle) (l : list handle) :
  h ∈ Remove e l <-> h ∈ l /\ h <> e.
Proof.
  unfold Remove. rewrite list_elem_of_filter. tauto.
Qed.

Lemma Remove_length (e : handle) (l : list handle) :
  NoDup l -> e ∈ l -> length l = S (length (Remove e l)).
Proof.
  intros Hnd Hin. apply list_elem_of_split in Hin. destruct Hin as (l1 & l2 & ->).
  rewrite Remove_middle by exact Hnd. rewrite !length_app. simpl. lia.
Qed.

(** [acks.ack] keeps the invariant, and its id is not in the table
    afterwards. *)
Lemma acks_ack_table (mt : metadata) (s : world) :
  table_inv s ->
  let s1 := snd (acks_ack mt s) in
  table_inv s1 /\
  acks_map (mw_acks (mw s1)) !! id mt = None /\
  queue (mw s1) = queue (mw s) /\
  (forall h, meta (getMsg h s1) = meta (getMsg h s)).
Proof.
  intros (T1 & T3 & T2). cbv zeta. rewrite acks_ack_eq. cbv zeta.
  destruct (acks_map (mw_acks (mw s)) !! id mt) as [m |] eqn:Hl; cbn [snd].
  2: { split; [split; [exact T1 | split; [exact T3 | exact T2]] |].
       split; [exact Hl |]. split; reflexivity. }
  destruct (T1 _ _ Hl) as (Hmin & Hmid & Hmack).
  assert (Hget : forall h,
    getMsg h (World (with_acks (Acks (delete (id mt) (acks_map (mw_acks (mw s))))
                                  (hist_added (mw_acks (mw s)))
                                  (S (hist_acked (mw_acks (mw s))))
                                  (hist_removed (mw_acks (mw s)))) (mw s))
                (<[m := message_Ack (getMsg m s)]> (heap s))
                (payloads s) (mPool s) (metrics s)) =
    if decide (h = m) then message_Ack (getMsg m s) else getMsg h s).
  { intros h. destruct (decide (h = m)) as [-> | Hne].
    - unfold getMsg at 1. cbn [heap]. rewrite lookup_insert_eq. reflexivity.
    - rewrite getMsg_insert_ne by exact Hne. reflexivity. }
  split; [| split; [| split]].
  - unfold table_inv. cbn [mw metrics].
    assert (Hmw : queue (with_acks (Acks (delete (id mt) (acks_map (mw_acks (mw s))))
                                  (hist_added (mw_acks (mw s)))
                                  (S (hist_acked (mw_acks (mw s))))
                                  (hist_removed (mw_acks (mw s)))) (mw s)) = queue (mw s) /\
                  mw_acks (with_acks (Acks (delete (id mt) (acks_map (mw_acks (mw s))))
                                  (hist_added (mw_acks (mw s)))
                                  (S (hist_acked (mw_acks (mw s))))
                                  (hist_removed (mw_acks (mw s)))) (mw s)) =
                    Acks (delete (id mt) (acks_map (mw_acks (mw s))))
                                  (hist_added (mw_acks (mw s)))
                                  (S (hist_acked (mw_acks (mw s))))
                                  (hist_removed (mw_acks (mw s))))
      by (destruct (mw s); split; reflexivity).
    destruct Hmw as [-> ->]. cbn [acks_map hist_added].
    split; [| split; [| exact T2]].
    + intros k h Hk. apply lookup_delete_Some in Hk. destruct Hk as [Hne Hk].
      destruct (T1 _ _ Hk) as (Hin & Hid & Hack).
      rewrite Hget. destruct (decide (h = m)) as [-> | Hnm]; [congruence |].
      auto.
    + intros Hlt h Hin Hack. rewrite Hget in Hack |- *.
      destruct (decide (h = m)) as [-> | Hnm]; [discriminate |].
      specialize (T3 Hlt h Hin Hack).
      rewrite lookup_delete_ne; [exact T3 |].
      intros Heq. rewrite <- Heq in T3. congruence.
  - cbn [mw]. destruct (mw s). cbn [with_acks mw_acks acks_map].
    apply lookup_delete_eq.
  - cbn [mw]. destruct (mw s). reflexivity.
  - intros h. rewrite Hget. destruct (decide (h = m)) as [-> | Hnm]; reflexivity.
Qed.

(** Taking an element out of the queue that no table entry points to. *)
Lemma removeFromQueueWithLock_table (e : handle) (s : world) :
  NoDup (queue (mw s)) ->
  e ∈ queue (mw s) ->
  (forall k h, acks_map (mw_acks (mw s)) !! k = Some h ->
     h ∈ queue (mw s) /\ h <> e /\ id (meta (getMsg h s)) = k /\
     isAcked (getMsg h s) = false) ->
  (Z.of_nat (hist_added (mw_acks (mw s))) < 2 ^ 64 ->
   forall h, h ∈ queue (mw s) -> h <> e -> isAcked (getMsg h s) = false ->
     acks_map (mw_acks (mw s)) !! id (meta (getMsg h s)) = Some h) ->
  enqueuedMessages (metrics s) - dequeuedMessages (metrics s) =
    Z.of_nat (length (queue (mw s))) ->
  table_inv (removeFromQueueWithLock e s).
Proof.
  intros Hnd Hin T1 T3 T2. rewrite removeFromQueueWithLock_eq.
  unfold table_inv. cbn [mw metrics enqueuedMessages dequeuedMessages].
  assert (Hmw : queue (with_queue (Remove e (queue (mw s))) (mw s)) =
                  Remove e (queue (mw s)) /\
                mw_acks (with_queue (Remove e (queue (mw s))) (mw s)) =
                  mw_acks (mw s))
    by (destruct (mw s); split; reflexivity).
  destruct Hmw as [-> ->].
  split; [| split].
  - intros k h Hk. destruct (T1 k h Hk) as (Hq & Hne & Hid & Hack).
    rewrite getMsg_insert_ne by exact Hne.
    split; [apply Remove_elem; split; assumption |]. split; assumption.
  - intros Hlt h Hq Hack. apply Remove_elem in Hq. destruct Hq as [Hq Hne].
    rewrite getMsg_insert_ne in Hack |- * by exact Hne.
    apply T3; assumption.
  - rewrite (Remove_length e (queue (mw s)) Hnd Hin) in T2. lia.
Qed.

(** What the loop body does to the shape of the queue. *)
Lemma scanElement_queue (e : handle) (pre rest : list handle) (nowNanos : Z)
    (fullScan : bool) (a : scanAcc) (c : control) (a' : scanAcc) :
  queue (mw (sa_world a)) = pre ++ e :: rest ->
  NoDup (pre ++ e :: rest) ->
  scanElement e nowNanos fullScan a = Some (c, a') ->
  (queue (mw (sa_world a')) = pre ++ rest /\ NoDup (pre ++ rest)) \/
  (queue (mw (sa_world a')) = (pre ++ [e]) ++ rest /\
   NoDup ((pre ++ [e]) ++ rest)).
Proof.
  intros Hq Hnd Hel.
  pose proof (scanElement_effect _ _ _ _ _ _ Hel) as Heff.
  unfold element_effect in Heff. cbv zeta in Heff.
  destruct Heff as (_ & _ & _ & _ & Hqueue).
  destruct Hqueue as [[Hrem _] | [Hsame _]].
  - left. rewrite Hrem, Hq. split; [apply Remove_middle; exact Hnd |].
    apply (NoDup_remove_middle e). exact Hnd.
  - right. rewrite Hsame, Hq, <- app_assoc. split; [reflexivity | exact Hnd].
Qed.

Lemma scanElement_table (e : handle) (nowNanos : Z) (fullScan : bool)
    (a : scanAcc) (c : control) (a' : scanAcc) :
  NoDup (queue (mw (sa_world a))) ->
  e ∈ queue (mw (sa_world a)) ->
  table_inv (sa_world a) ->
  scanElement e nowNanos fullScan a = Some (c, a') ->
  table_inv (sa_world a').
Proof.
  unfold scanElement. cbv zeta.
  destruct a as [s sm msgs]. cbn [sa_world sa_metrics sa_msgsToWrite].
  intros Hnd Hin Hinv.
  (* the branches that ack the element's id and take the element out *)
  assert (Hackrm : forall b z s1,
    acks_ack (meta (getMsg e s)) s = ((b, z), s1) ->
    table_inv (removeFromQueueWithLock e s1)).
  { intros b z s1 Heq.
    pose proof (acks_ack_table (meta (getMsg e s)) s Hinv) as Hack.
    cbv zeta in Hack. rewrite Heq in Hack. cbn [snd] in Hack.
    destruct Hack as ((T1 & T3 & T2) & Hnone & Hq1 & Hmeta).
    apply removeFromQueueWithLock_table.
    - rewrite Hq1. exact Hnd.
    - rewrite Hq1. exact Hin.
    - intros k h Hk. destruct (T1 k h Hk) as (Hhq & Hid & Hack).
      split; [exact Hhq |]. split; [| split; assumption].
      intros ->. rewrite Hmeta in Hid. rewrite <- Hid in Hk. congruence.
    - intros Hlt h Hhq _ Hack. apply T3; assumption.
    - exact T2. }
  destruct (isClosed (mw s)).
  { destruct (acks_ack (meta (getMsg e s)) s) as [[b z] s1] eqn:Heq.
    intros [= <- <-]. cbn [sa_world]. apply (Hackrm b z). reflexivity. }
  destruct (retryAtNanos (getMsg e s) >=? nowNanos).
  { destruct (negb fullScan); intros [= <- <-]; exact Hinv. }
  destruct (andb _ _).
  { destruct (acks_ack (meta (getMsg e s)) s) as [[b z] s1] eqn:Heq.
    intros [= <- <-]. cbn [sa_world]. apply (Hackrm b z). reflexivity. }
  destruct Hinv as (T1 & T3 & T2).
  destruct (isAcked (getMsg e s)) eqn:Hacked.
  { intros [= <- <-]. cbn [sa_world].
    apply removeFromQueueWithLock_table; try assumption.
    - intros k h Hk. destruct (T1 k h Hk) as (Hhq & Hid & Hack).
      split; [exact Hhq |]. split; [| split; assumption].
      intros ->. congruence.
    - intros Hlt h Hhq _ Hack. apply T3; assumption. }
  destruct (IsDroppedOrConsumed e s) as [[|] |] eqn:Hdrop; [| | discriminate].
  { intros [= <- <-]. cbn [sa_world].
    set (s1 := set_mw (fun w => with_acks (acks_remove (meta (getMsg e s)) (mw_acks w)) w) s).
    assert (Hq1 : queue (mw s1) = queue (mw s))
      by (subst s1; destruct s as [[] ? ? ? ?]; reflexivity).
    assert (Ha1 : mw_acks (mw s1) = acks_remove (meta (getMsg e s)) (mw_acks (mw s)))
      by (subst s1; destruct s as [[] ? ? ? ?]; reflexivity).
    assert (Hg1 : forall h, getMsg h s1 = getMsg h s)
      by (intros h; subst s1; destruct s as [[] ? ? ? ?]; reflexivity).
    assert (Hm1 : metrics s1 = metrics s)
      by (subst s1; destruct s as [[] ? ? ? ?]; reflexivity).
    apply removeFromQueueWithLock_table.
    - rewrite Hq1. exact Hnd.
    - rewrite Hq1. exact Hin.
    - intros k h. rewrite Ha1, Hq1, Hg1. cbn [acks_remove acks_map].
      intros Hk. apply lookup_delete_Some in Hk. destruct Hk as [Hne Hk].
      destruct (T1 k h Hk) as (Hhq & Hid & Hack).
      split; [exact Hhq |]. split; [| split; assumption].
      intros ->. congruence.
    - rewrite Ha1, Hq1. cbn [acks_remove acks_map hist_added].
      intros Hlt h Hhq Hne. rewrite Hg1. intros Hack.
      rewrite lookup_delete_ne; [apply T3; assumption |].
      intros Heq. specialize (T3 Hlt).
      pose proof (T3 e Hin Hacked) as He. pose proof (T3 h Hhq Hack) as Hh.
      rewrite Heq in He. congruence.
    - rewrite Hm1, Hq1. exact T2. }
  set (s1 := setMsg e (message_IncWriteTimes (getMsg e s)) s).
  destruct (nextRetryAfterNanos (mw s1) (writeTimes (getMsg e s1))) as [backoff |];
    [| discriminate].
  intros [= <- <-]. cbn [sa_world].
  apply (table_inv_same s); try (subst s1; destruct s as [[] ? ? ? ?]; reflexivity).
  - intros h _. destruct (decide (h = e)) as [-> | Hne].
    + rewrite getMsg_setMsg_eq. subst s1. rewrite getMsg_setMsg_eq.
      split; reflexivity.
    + rewrite getMsg_setMsg_ne by exact Hne. subst s1.
      rewrite getMsg_setMsg_ne by exact Hne. split; reflexivity.
  - split; [exact T1 | split; [exact T3 | exact T2]].
Qed.

Lemma scanLoop_table (es : list handle) :
  forall (pre : list handle) (a : scanAcc) (iterated : Z) (nx : option handle)
         (nowNanos batchSize : Z) (fullScan : bool)
         (next : option handle) (a' : scanAcc),
  queue (mw (sa_world a)) = pre ++ es ->
  NoDup (pre ++ es) ->
  table_inv (sa_world a) ->
  scanLoop es iterated nx nowNanos batchSize fullScan a = Some (next, a') ->
  table_inv (sa_world a').
Proof.
  induction es as [| e rest0 IH];
    intros pre a iterated nx nowNanos batchSize fullScan next a' Hq Hnd Hinv Hloop.
  - simpl in Hloop. injection Hloop as <- <-. exact Hinv.
  - simpl in Hloop.
    destruct (wrap64 (iterated + 1) >? batchSize).
    { injection Hloop as <- <-. exact Hinv. }
    destruct (scanElement e nowNanos fullScan a) as [[c a1] |] eqn:Hel;
      [| discriminate].
    assert (Hinv1 : table_inv (sa_world a1)).
    { apply (scanElement_table e nowNanos fullScan a c a1); try assumption.
      - rewrite Hq. exact Hnd.
      - rewrite Hq. apply elem_of_app. right. apply elem_of_cons. left. reflexivity. }
    destruct c; [| injection Hloop as <- <-; exact Hinv1].
    destruct (scanElement_queue e pre rest0 _ _ _ _ _ Hq Hnd Hel)
      as [[Hq1 Hnd1] | [Hq1 Hnd1]].
    + exact (IH pre a1 _ _ _ _ _ _ _ Hq1 Hnd1 Hinv1 Hloop).
    + exact (IH (pre ++ [e]) a1 _ _ _ _ _ _ _ Hq1 Hnd1 Hinv1 Hloop).
Qed.

Lemma scanBatchWithLock_table (start : option handle) (nowNanos batchSize : Z)
    (fullScan : bool) (sm : list Z) (s : world) (next : option handle)
    (a' : scanAcc) :
  NoDup (queue (mw s)) ->
  (forall c, start = Some c -> c ∈ queue (mw s)) ->
  table_inv s ->
  scanBatchWithLock start nowNanos batchSize fullScan sm s = Some (next, a') ->
  table_inv (sa_world a').
Proof.
  intros Hnd Hc Hinv. unfold scanBatchWithLock.
  destruct start as [c |].
  - destruct (elementsFrom_in c (queue (mw s)) (Hc c eq_refl))
      as (l1 & l2 & Hq & ->).
    apply (scanLoop_table (c :: l2) l1 (ScanAcc s sm [])); cbn [sa_world];
      [exact Hq | rewrite <- Hq; exact Hnd | exact Hinv].
  - simpl. intros [= <- <-]. exact Hinv.
Qed.

(** Sending touches neither the id nor the ack flag of an envelope. *)
Lemma write_table (io : ioEnv) (h : handle) (s : world) (err : bool)
    (s' : world) :
  write io h s = Some (err, s') -> table_inv s -> table_inv s'.
Proof.
  unfold write. cbv zeta.
  set (s1 := setMsg h _ s).
  assert (H1 : table_inv s -> table_inv s1).
  { apply table_inv_same; try (subst s1; destruct s as [[] ? ? ? ?]; reflexivity).
    intros h' _. subst s1. destruct (decide (h' = h)) as [-> | Hne].
    - rewrite getMsg_setMsg_eq. split; reflexivity.
    - rewrite getMsg_setMsg_ne by exact Hne. split; reflexivity. }
  destruct (IsDroppedOrConsumed h s1) as [[|] |]; [| | discriminate];
    intros [= <- <-]; exact H1.
Qed.

Lemma writeMessages_table (io : ioEnv) (messages : list handle) :
  forall (s : world) (err : bool) (s' : world),
  writeMessages io messages s = Some (err, s') -> table_inv s -> table_inv s'.
Proof.
  induction messages as [| h rest IH]; intros s err s'; simpl.
  - intros [= <- <-]. auto.
  - destruct (write io h s) as [[[|] s1] |] eqn:Hw; [| | discriminate].
    + intros [= <- <-]. exact (write_table _ _ _ _ _ Hw).
    + intros Hrest Hinv. apply (IH _ _ _ Hrest). exact (write_table _ _ _ _ _ Hw Hinv).
Qed.

Lemma scanIteration_table (io : ioEnv) (nowNanos : Z) (sc sc' : scanner)
    (s s' : world) :
  NoDup (queue (mw s)) ->
  (forall c, sc_e sc = Some c -> c ∈ queue (mw s)) ->
  table_inv s ->
  scanIteration io nowNanos sc s = Some (sc', s') ->
  table_inv s'.
Proof.
  intros Hnd Hc Hinv. unfold scanIteration.
  destruct (scanBatchWithLock (sc_e sc) (sc_beforeBatchNanos sc)
              (MessageQueueScanBatchSize (opts (mw s))) (sc_fullScan sc)
              (sc_scanMetrics sc) s) as [[e a] |] eqn:Hb; [| discriminate].
  pose proof (scanBatchWithLock_table _ _ _ _ _ _ _ _ Hnd Hc Hinv Hb) as Hinv1.
  destruct (andb _ _); [intros [= <- <-]; exact Hinv1 |].
  destruct (sc_skipWrites sc); [intros [= <- <-]; exact Hinv1 |].
  unfold writeBatch. destruct (io_noWriters io); [intros [= <- <-]; exact Hinv1 |].
  destruct (writeMessages io (sa_msgsToWrite a) (sa_world a)) as [[err s2] |] eqn:Hw;
    [| discriminate].
  intros [= <- <-]. exact (writeMessages_table _ _ _ _ _ Hw Hinv1).
Qed.

Lemma isValidWriteWithLock_counters (nowNanos : Z) (w : messageWriter)
    (mt : messageWriterMetrics) :
  enqueuedMessages (snd (isValidWriteWithLock nowNanos w mt)) =
    enqueuedMessages mt /\
  dequeuedMessages (snd (isValidWriteWithLock nowNanos w mt)) =
    dequeuedMessages mt.
Proof.
  unfold isValidWriteWithLock.
  destruct (IgnoreCutoffCutover (opts w)); [split; reflexivity |].
  destruct (andb _ _); [split; reflexivity |].
  destruct (andb _ _); split; reflexivity.
Qed.

Lemma Write_table (K : Z) (block : list handle) (cursor : option handle)
    (r : payloadRef) (nowNanos : Z) (s : world) :
  queue_inv K block cursor s -> ack_inv s -> table_inv s ->
  table_inv (Write r nowNanos s).
Proof.
  intros (old & Hq & Hlnw & Hnd & _ & Hok) Hack (T1 & T3 & T2).
  rewrite Write_eq. cbv zeta.
  destruct (isValidWriteWithLock_counters nowNanos (mw s) (metrics s)) as [Henq Hdeq].
  assert (Hfresh : forall h, h ∈ queue (mw s) -> h <> poolNext (mPool s)).
  { intros h Hin. destruct (Hok h Hin) as (Hlt & _). lia. }
  destruct (fst (isValidWriteWithLock nowNanos (mw s) (metrics s))).
  - unfold table_inv.
    cbn [mw metrics queue mw_acks acks_add acks_map hist_added
         enqueuedMessages dequeuedMessages id].
    rewrite Hq, Hlnw, (enqueued_block _ _ _ Hnd). cbn [fst].
    rewrite Hq in *.
    split; [| split].
    + intros k h Hk. apply lookup_insert_Some in Hk.
      destruct Hk as [[<- <-] | [Hne Hk]].
      * split; [rewrite !elem_of_app, list_elem_of_singleton; auto |].
        unfold getMsg. cbn [heap]. rewrite lookup_insert_eq. split; reflexivity.
      * destruct (T1 k h Hk) as (Hin & Hid & Hacked).
        rewrite getMsg_insert_ne by (apply Hfresh; exact Hin).
        split; [| split; assumption].
        rewrite !elem_of_app in *. tauto.
    + intros Hlt h Hin Hacked.
      destruct (decide (h = poolNext (mPool s))) as [-> | Hne].
      * unfold getMsg. cbn [heap]. rewrite lookup_insert_eq.
        cbn [default from_option Datatypes.id message_Set meta id].
        apply lookup_insert_eq.
      * rewrite getMsg_insert_ne in Hacked |- * by exact Hne.
        assert (Hin' : h ∈ block ++ old).
        { rewrite !elem_of_app, list_elem_of_singleton in Hin.
          rewrite elem_of_app. tauto. }
        assert (Hlt' : Z.of_nat (hist_added (mw_acks (mw s))) < 2 ^ 64) by lia.
        specialize (T3 Hlt' h Hin' Hacked).
        unfold ack_inv in Hack. cbv zeta in Hack.
        destruct (Hack Hlt') as (Hm & Hkeys & _).
        destruct (Hkeys _ _ T3) as [_ Hle].
        rewrite lookup_insert_ne; [exact T3 |].
        rewrite wrapu64_id by (unfold in_uint64, max_uint64; lia).
        change (default zeroMessage (heap s !! h)) with (getMsg h s). lia.
    + rewrite Henq, Hdeq. rewrite !length_app in *. simpl. lia.
  - apply (table_inv_same s); try reflexivity; try assumption.
    + intros h Hin. rewrite getMsg_insert_ne by (apply Hfresh; exact Hin).
      split; reflexivity.
    + split; [exact T1 | split; [exact T3 | exact T2]].
Qed.

Lemma Ack_table (mt : metadata) (s : world) :
  table_inv s -> table_inv (snd (Ack mt s)).
Proof.
  intros Hinv. pose proof (acks_ack_table mt s Hinv) as Hack. cbv zeta in Hack.
  unfold Ack. destruct (acks_ack mt s) as [[[|] z] s1]; cbn [snd] in *;
    [| apply Hack].
  destruct Hack as (Hinv1 & _).
  apply (table_inv_same s1); try (destruct s1 as [? ? ? ? []]; reflexivity).
  - intros h _. split; destruct s1 as [? ? ? ? []]; reflexivity.
  - exact Hinv1.
Qed.

(** The steps that touch neither the queue, the table, the counters nor an
    envelope. *)
Lemma world_updates_keep_table (n : Z) (r : payloadRef) (sc : scanner)
    (s : world) :
  table_inv s ->
  table_inv (payload_Drop r s) /\ table_inv (SetCutoffNanos n s) /\
  table_inv (SetCutoverNanos n s) /\ table_inv (SetMessageTTLNanos n s) /\
  table_inv (snd (scanStart n s)) /\ table_inv (scanEnd n sc s) /\
  table_inv (set_mw (with_isClosed true) s).
Proof.
  intros Hinv.
  assert (H : forall s', queue (mw s') = queue (mw s) ->
                         mw_acks (mw s') = mw_acks (mw s) ->
                         metrics s' = metrics s ->
                         heap s' = heap s -> table_inv s').
  { intros s' Hq Ha Hm Hh. apply (table_inv_same s); try assumption;
      try (rewrite Hm; reflexivity).
    intros h _. unfold getMsg. rewrite Hh. split; reflexivity. }
  split; [| split; [| split; [| split; [| split; [| split]]]]];
    try (apply H; destruct s as [[] ? ? ? ?]; reflexivity).
  unfold scanEnd. destruct (sc_fullScan sc); [| exact Hinv].
  apply H; destruct s as [[] ? ? ? ?]; reflexivity.
Qed.

Lemma step_table (K : Z) (block : list handle) (a : action) (σ σ' : system) :
  sys_inv K block σ ->
  table_inv (sys_world σ) ->
  step a σ = Ok σ' ->
  table_inv (sys_world σ').
Proof.
  intros (HK & Hqinv & Hack & _) Hinv.
  assert (Hkeep := fun n r sc => world_updates_keep_table n r sc (sys_world σ) Hinv).
  destruct a as [r nowNanos | mt | r | n | n | n | | beforeScan | io nowNanos
                 | afterScan | | | i]; cbn [step].
  - intros [= <-]. unfold set_world. cbn [sys_world].
    exact (Write_table K block _ r nowNanos _ Hqinv Hack Hinv).
  - intros [= <-]. unfold set_world. cbn [sys_world]. apply Ack_table. exact Hinv.
  - intros [= <-]. apply (Hkeep 0 r (Scanner None false 0 false [])).
  - intros [= <-]. apply (Hkeep n 0%nat (Scanner None false 0 false [])).
  - intros [= <-]. apply (Hkeep n 0%nat (Scanner None false 0 false [])).
  - intros [= <-]. apply (Hkeep n 0%nat (Scanner None false 0 false [])).
  - destruct (sys_worker σ); intros [= <-]. exact Hinv.
  - destruct (sys_worker σ); try discriminate.
    intros [= <-]. unfold set_world, set_worker. cbn [sys_world].
    apply (Hkeep beforeScan 0%nat (Scanner None false 0 false [])).
  - destruct (sys_worker σ) as [| | sc |] eqn:Hwk; try discriminate.
    destruct (sc_e sc) eqn:Hc; [| discriminate].
    destruct (scanIteration io nowNanos sc (sys_world σ)) as [[sc' s1] |] eqn:Hit;
      [| discriminate].
    intros [= <-]. unfold set_world, set_worker. cbn [sys_world].
    cbn [cursor_of] in Hqinv.
    destruct Hqinv as (old & Hq & _ & Hnd & Hcur & _).
    apply (scanIteration_table io nowNanos sc sc' (sys_world σ) s1);
      [rewrite Hq; exact Hnd | | exact Hinv | exact Hit].
    intros c Hsc. rewrite Hq. apply elem_of_app. right. apply Hcur. exact Hsc.
  - destruct (sys_worker σ) as [| | sc |]; try discriminate.
    destruct (sc_e sc); [discriminate |].
    intros [= <-]. unfold set_world, set_worker. cbn [sys_world].
    apply (Hkeep afterScan 0%nat sc).
  - destruct (sys_worker σ); try discriminate.
    destruct (sys_doneCh σ); [| discriminate].
    intros [= <-]. exact Hinv.
  - intros [= <-]. unfold closeLock.
    destruct (isClosed (mw (sys_world σ))); unfold set_closers, set_world;
      cbn [sys_world]; [exact Hinv |].
    apply (Hkeep 0 0%nat (Scanner None false 0 false [])).
  - intros Hstep. unfold closeStep in Hstep.
    destruct (sys_closers σ !! i) as [[| | | early] |]; try discriminate.
    + destruct (isEmpty (sys_world σ)); injection Hstep as <-; exact Hinv.
    + destruct (sys_doneCh σ); [discriminate |]. injection Hstep as <-.
      exact Hinv.
    + destruct (sys_worker σ); try discriminate; injection Hstep as <-;
        exact Hinv.
Qed.

Lemma newSystem_table (replicatedShardID : Z) (o : Options) :
  table_inv (sys_world (newSystem replicatedShardID o)).
Proof.
  unfold table_inv, newSystem, newWorld, newMessageWriter. cbn.
  split; [| split; [| reflexivity]].
  - intros k h Hl. rewrite lookup_empty in Hl. discriminate.
  - intros _ h Hin. inversion Hin.
Qed.

Lemma run_table (tr : list action) :
  forall (K : Z) (block : list handle) (σ σ' : system),
  sys_inv K block σ ->
  table_inv (sys_world σ) ->
  run tr σ = Ok σ' ->
  table_inv (sys_world σ').
Proof.
  induction tr as [| a tr IH]; intros K block σ σ' Hsys Hinv Hrun.
  - simpl in Hrun. injection Hrun as <-. exact Hinv.
  - simpl in Hrun.
    pose proof (step_inv K block a σ Hsys) as Hst.
    destruct (step a σ) as [σ1 | | p] eqn:Hstep; try discriminate.
    destruct Hst as (Hsys1 & _).
    apply (IH (K + 1) _ σ1 σ' Hsys1); [| exact Hrun].
    exact (step_table K block a σ σ1 Hsys Hinv Hstep).
Qed.

(** ** A scan on its own *)


(** * Further properties of the writer *)

(** ** The scan *)



(** X2. Once the closed flag is set, one scan with a batch size of at least
    one, run without interleaved calls, takes every message out of the
    queue, whatever its state: the scan returns, the queue is empty when it
    does, and the writer is still closed. *)
Theorem closed_scan_empties_queue (replicatedShardID : Z) (o : Options)
    (tr : list action) (σ : system) (io : nat -> ioEnv) (beforeScan : Z)
    (clock : nat -> Z) (afterScan : Z) :
  run tr (newSystem replicatedShardID o) = Ok σ ->
  isClosed (mw (sys_world σ)) = true ->
  1 <= MessageQueueScanBatchSize (opts (mw (sys_world σ))) ->
  Z.of_nat (length (queue (mw (sys_world σ)))) <= max_int64 ->
  exists s',
    scanMessageQueue io beforeScan clock afterScan (sys_world σ) = Some s' /\
    queue (mw s') = [] /\ isClosed (mw s') = true.
Proof.
  intros Hrun Hcl HB Hlen.
  pose proof (run_inv tr 0 [] _ (newSystem_inv replicatedShardID o)) as Hinv.
  rewrite Hrun in Hinv. destruct Hinv as ((_ & Hq & _) & _).
  destruct Hq as (old & Hold & _ & Hnd & _). rewrite <- Hold in Hnd.
  destruct (scanMessageQueue_closed io beforeScan clock afterScan (sys_world σ)
              Hcl Hnd HB Hlen) as (s' & Hscan & Hempty & Hcl').
  exists s'. split; [exact Hscan |]. split; [exact Hempty | exact Hcl'].
Qed.

Lemma closed_scan_empties_queue_witness :
  exists s',
    scanMessageQueue (fun _ => exIo) 200 (fun _ => 201) 202
      (sys_world (closeLock (System exWritten false WNotStarted []))) = Some s' /\
    queue (mw s') = [] /\ isClosed (mw s') = true.
Proof.
  apply (closed_scan_empties_queue 7 exOptions [ActWrite 1%nat 100; ActCloseLock]).
  - vm_compute. reflexivity.
  - vm_compute. reflexivity.
  - vm_compute. discriminate.
  - vm_compute. discriminate.
Defined.

(** ** The ack table and the queue *)



(** X5. As long as fewer than 2^64 writes were admitted, every queued
    envelope that is not flagged acked is registered in the ack table under
    its own id: an [Ack] with its metadata returns true. No message waiting
    in the queue has lost its entry. *)
Theorem queued_message_can_be_acked (replicatedShardID : Z) (o : Options)
    (tr : list action) (σ : system) (h : handle) :
  run tr (newSystem replicatedShardID o) = Ok σ ->
  Z.of_nat (admittedWrites tr (newSystem replicatedShardID o)) < 2 ^ 64 ->
  h ∈ queue (mw (sys_world σ)) ->
  isAcked (getMsg h (sys_world σ)) = false ->
  acks_map (mw_acks (mw (sys_world σ))) !! id (meta (getMsg h (sys_world σ)))
    = Some h /\
  fst (Ack (meta (getMsg h (sys_world σ))) (sys_world σ)) = true.
Proof.
  intros Hrun Hlt Hin Hacked.
  pose proof (run_table tr 0 [] _ σ (newSystem_inv replicatedShardID o)
                (newSystem_table replicatedShardID o) Hrun) as (_ & T3 & _).
  pose proof (run_inv tr 0 [] _ (newSystem_inv replicatedShardID o)) as Hinv.
  rewrite Hrun in Hinv. destruct Hinv as (_ & _ & Hadd). cbn in Hadd.
  assert (Hl : acks_map (mw_acks (mw (sys_world σ)))
                 !! id (meta (getMsg h (sys_world σ))) = Some h)
    by (apply T3; [rewrite Hadd; exact Hlt | exact Hin | exact Hacked]).
  split; [exact Hl |]. apply (Ack_present _ _ h Hl).
Qed.

Lemma queued_message_can_be_acked_witness :
  acks_map (mw_acks (mw (sys_world (System exWritten false WNotStarted []))))
    !! id (meta (getMsg 0%nat (sys_world (System exWritten false WNotStarted []))))
    = Some 0%nat /\
  fst (Ack (meta (getMsg 0%nat (sys_world (System exWritten false WNotStarted []))))
         (sys_world (System exWritten false WNotStarted []))) = true.
Proof.
  apply (queued_message_can_be_acked 7 exOptions [ActWrite 1%nat 100]).
  - vm_compute. reflexivity.
  - vm_compute. reflexivity.
  - vm_compute. apply list_elem_of_here.
  - vm_compute. reflexivity.
Defined.

(** ** The consumer writers *)

Lemma identityIndexes_length (n : nat) : length (identityIndexes n) = n.
Proof. unfold identityIndexes. rewrite length_map, length_seq. reflexivity. Qed.

Lemma identityIndexes_lookup (n i : nat) :
  (i < n)%nat -> identityIndexes n !! i = Some (Z.of_nat i).
Proof.
  intros Hi. unfold identityIndexes. rewrite list_lookup_fmap.
  rewrite lookup_seq_lt by exact Hi. reflexivity.
Qed.

Lemma filter_all {A : Type} (P : A -> Prop) `{!forall x, Decision (P x)}
    (l : list A) :
  (forall x, x ∈ l -> P x) -> filter P l = l.
Proof.
  induction l as [| x l IH]; intros Hall; [reflexivity |].
  rewrite filter_cons_True by (apply Hall; apply list_elem_of_here).
  f_equal. apply IH. intros y Hy. apply Hall. apply list_elem_of_further. exact Hy.
Qed.

(** X6. [RemoveConsumerWriter] panics exactly when the writer has no
    consumer writer at all. Otherwise it keeps, in their order, exactly the
    consumer writers whose address differs from the given one (all of them
    if none has that address), and numbers the iteration indexes
    0, 1, ... as many as are left. *)
Theorem RemoveConsumerWriter_spec (addr : string) (w : writerSet) :
  (RemoveConsumerWriter addr w = None <-> consumerWriters w = []) /\
  (forall w', RemoveConsumerWriter addr w = Some w' ->
     (forall cw, cw ∈ consumerWriters w' <->
                 cw ∈ consumerWriters w /\ Address cw <> addr) /\
     consumerWriters w' `sublist_of` consumerWriters w /\
     ((forall cw, cw ∈ consumerWriters w -> Address cw <> addr) ->
      consumerWriters w' = consumerWriters w) /\
     length (iterationIndexes w') = length (consumerWriters w') /\
     (forall i, (i < length (consumerWriters w'))%nat ->
                iterationIndexes w' !! i = Some (Z.of_nat i))).
Proof.
  unfold RemoveConsumerWriter. split.
  - destruct (consumerWriters w) as [| c l]; simpl length.
    + split; reflexivity.
    + destruct (Z.ltb_spec (Z.of_nat (S (length l)) - 1) 0); [lia |].
      split; discriminate.
  - intros w'.
    destruct (Z.of_nat (length (consumerWriters w)) - 1 <? 0); [discriminate |].
    intros [= <-]. cbn [consumerWriters iterationIndexes].
    split; [| split; [| split; [| split]]].
    + intros cw. rewrite list_elem_of_filter. tauto.
    + apply sublist_filter.
    + intros Hall. apply filter_all. exact Hall.
    + apply identityIndexes_length.
    + intros i Hi. apply identityIndexes_lookup. exact Hi.
Qed.

Lemma RemoveConsumerWriter_spec_witness :
  RemoveConsumerWriter "a" newWriterSet = None /\
  consumerWriters (WriterSet [exWriterB] [0])
    `sublist_of` consumerWriters exWriters /\
  iterationIndexes (WriterSet [exWriterB] [0]) !! 0%nat = Some 0.
Proof.
  destruct (RemoveConsumerWriter_spec "a" newWriterSet) as [[_ Hnone] _].
  split; [apply Hnone; reflexivity |].
  destruct (RemoveConsumerWriter_spec "a" exWriters) as [_ Hsome].
  destruct (Hsome (WriterSet [exWriterB] [0]) eq_refl)
    as (_ & Hsub & _ & _ & Hidx).
  split; [exact Hsub | apply (Hidx 0%nat); simpl; lia].
Defined.

(** X7. [AddConsumerWriter] appends the consumer writer and renumbers the
    iteration indexes; the writers that were there stay, in their order.
    Removing the address just added, when no other consumer writer has it,
    gives back the consumer writers as they were, and never panics. *)
Theorem AddConsumerWriter_then_Remove (cw : consumerWriter) (w : writerSet) :
  consumerWriters (AddConsumerWriter cw w) = consumerWriters w ++ [cw] /\
  iterationIndexes (AddConsumerWriter cw w) =
    identityIndexes (S (length (consumerWriters w))) /\
  RemoveConsumerWriter (Address cw) (AddConsumerWriter cw w) <> None /\
  ((forall c, c ∈ consumerWriters w -> Address c <> Address cw) ->
   RemoveConsumerWriter (Address cw) (AddConsumerWriter cw w) =
     Some (WriterSet (consumerWriters w)
                     (identityIndexes (length (consumerWriters w))))).
Proof.
  unfold AddConsumerWriter, RemoveConsumerWriter. cbv zeta.
  cbn [consumerWriters iterationIndexes].
  rewrite !length_app. cbn [length].
  replace (length (consumerWriters w) + 1)%nat with (S (length (consumerWriters w)))
    by lia.
  split; [reflexivity |]. split; [reflexivity |].
  destruct (Z.ltb_spec (Z.of_nat (S (length (consumerWriters w))) - 1) 0); [lia |].
  split; [discriminate |].
  intros Hfresh. rewrite filter_app.
  rewrite (filter_all _ (consumerWriters w)) by exact Hfresh.
  rewrite filter_cons_False by (intros Hne; apply Hne; reflexivity).
  rewrite filter_nil, app_nil_r. reflexivity.
Qed.

Lemma AddConsumerWriter_then_Remove_witness :
  RemoveConsumerWriter (Address exWriterB)
    (AddConsumerWriter exWriterB (AddConsumerWriter exWriterA newWriterSet)) =
  Some (WriterSet (consumerWriters (AddConsumerWriter exWriterA newWriterSet))
          (identityIndexes
             (length (consumerWriters (AddConsumerWriter exWriterA newWriterSet))))).
Proof.
  destruct (AddConsumerWriter_then_Remove exWriterB
              (AddConsumerWriter exWriterA newWriterSet)) as (_ & _ & _ & H).
  apply H. intros c Hc. vm_compute in Hc.
  apply list_elem_of_singleton in Hc. subst c. discriminate.
Defined.

Lemma maxBufferLoop_spec (rest : list consumerWriter) (connIndex : Z) :
  forall (l1 l2 : list consumerWriter) (max : consumerWriter) (b : Z),
  b = AvailableBuffer max connIndex ->
  (forall c, c ∈ l1 -> AvailableBuffer c connIndex < b) ->
  (forall c, c ∈ l2 -> AvailableBuffer c connIndex <= b) ->
  exists l1' l2',
    l1 ++ max :: l2 ++ rest =
      l1' ++ fst (maxBufferLoop rest connIndex max b) :: l2' /\
    snd (maxBufferLoop rest connIndex max b) =
      AvailableBuffer (fst (maxBufferLoop rest connIndex max b)) connIndex /\
    (forall c, c ∈ l1' ->
       AvailableBuffer c connIndex < snd (maxBufferLoop rest connIndex max b)) /\
    (forall c, c ∈ l2' ->
       AvailableBuffer c connIndex <= snd (maxBufferLoop rest connIndex max b)).
Proof.
  induction rest as [| c rest IH]; intros l1 l2 max b Hb H1 H2; simpl.
  - exists l1, l2. rewrite app_nil_r. auto.
  - destruct (Z.gtb_spec (AvailableBuffer c connIndex) b) as [Hgt | Hle].
    + destruct (IH (l1 ++ max :: l2) [] c (AvailableBuffer c connIndex) eq_refl)
        as (l1' & l2' & Heq & Hrest).
      * intros x Hx. apply elem_of_app in Hx. destruct Hx as [Hx | Hx].
        -- specialize (H1 x Hx). lia.
        -- apply elem_of_cons in Hx. destruct Hx as [-> | Hx]; [lia |].
           specialize (H2 x Hx). lia.
      * intros x Hx. inversion Hx.
      * exists l1', l2'. split; [| exact Hrest].
        rewrite <- Heq. rewrite <- app_assoc. reflexivity.
    + destruct (IH l1 (l2 ++ [c]) max b Hb H1) as (l1' & l2' & Heq & Hrest).
      * intros x Hx. apply elem_of_app in Hx. destruct Hx as [Hx | Hx].
        -- apply H2. exact Hx.
        -- apply list_elem_of_singleton in Hx. subst x. exact Hle.
      * exists l1', l2'. split; [| exact Hrest].
        rewrite <- Heq. rewrite <- app_assoc. reflexivity.
Qed.

(** X8. [getConsumerWriterWithMaxBuffer] panics exactly on an empty slice;
    otherwise it returns a consumer writer of the slice together with its
    own available buffer, which is the largest of all, and among the
    writers with that buffer it returns the first. *)
Theorem getConsumerWriterWithMaxBuffer_spec
    (cws : list consumerWriter) (connIndex : Z) :
  (getConsumerWriterWithMaxBuffer cws connIndex = None <-> cws = []) /\
  (forall max maxBuf,
     getConsumerWriterWithMaxBuffer cws connIndex = Some (max, maxBuf) ->
     maxBuf = AvailableBuffer max connIndex /\
     exists l1 l2,
       cws = l1 ++ max :: l2 /\
       (forall c, c ∈ l1 -> AvailableBuffer c connIndex < maxBuf) /\
       (forall c, c ∈ l2 -> AvailableBuffer c connIndex <= maxBuf)).
Proof.
  unfold getConsumerWriterWithMaxBuffer. split.
  - destruct cws; split; try reflexivity; discriminate.
  - intros max maxBuf. destruct cws as [| cw0 rest]; [discriminate |].
    intros [= Heq].
    destruct (maxBufferLoop_spec rest connIndex [] [] cw0
                (AvailableBuffer cw0 connIndex) eq_refl)
      as (l1 & l2 & Hsplit & Hbuf & H1 & H2).
    + intros c Hc. inversion Hc.
    + intros c Hc. inversion Hc.
    + rewrite Heq in *. cbn [fst snd app] in *.
      split; [exact Hbuf |]. exists l1, l2. auto.
Qed.

Lemma getConsumerWriterWithMaxBuffer_spec_witness :
  getConsumerWriterWithMaxBuffer [] 0 = None /\
  (300 = AvailableBuffer exWriterB 0 /\
   exists l1 l2,
     consumerWriters exWriters = l1 ++ exWriterB :: l2 /\
     (forall c, c ∈ l1 -> AvailableBuffer c 0 < 300) /\
     (forall c, c ∈ l2 -> AvailableBuffer c 0 <= 300)).
Proof.
  destruct (getConsumerWriterWithMaxBuffer_spec [] 0) as [[_ Hnone] _].
  split; [apply Hnone; reflexivity |].
  destruct (getConsumerWriterWithMaxBuffer_spec (consumerWriters exWriters) 0)
    as [_ Hsome].
  apply Hsome. reflexivity.
Defined.

Lemma at_index_elem {A : Type} (s : list A) (i : Z) (x : A) :
  at_index s i = Some x -> x ∈ s.
Proof.
  unfold at_index. destruct (i <? 0); [discriminate |].
  apply list_elem_of_lookup_2.
Qed.

Lemma at_index_in_range {A : Type} (s : list A) (i : Z) :
  0 <= i < Z.of_nat (length s) -> is_Some (at_index s i).
Proof.
  intros Hi. unfold at_index.
  destruct (Z.ltb_spec i 0); [lia |].
  apply lookup_lt_is_Some. lia.
Qed.

(** The wait loop returns the writer named by the first value on the done
    channel that is not -1, unless the ticker or the end of the passes
    comes first. *)
Lemma waitLoop_spec (n : nat) (events : nat -> flushEvent)
    (cws : list consumerWriter) (m : flushMetrics) :
  forall k : nat,
  match waitLoop n events k cws m with
  | Some (Some cw, m') =>
      m' = m /\
      exists j idx,
        (j < n)%nat /\ events (k + j)%nat = FlushDone idx /\ idx <> -1 /\
        at_index cws idx = Some cw /\
        forall i, (i < j)%nat -> events (k + i)%nat = FlushDone (-1)
  | Some (None, m') =>
      (m' = m /\
       forall i, (i < n)%nat -> events (k + i)%nat = FlushDone (-1)) \/
      (exists j,
         (j < n)%nat /\ events (k + j)%nat = FlushTick /\
         (forall i, (i < j)%nat -> events (k + i)%nat = FlushDone (-1)) /\
         m' = FlushMetrics (forcedFlushSingleConsumer m) (forcedFlush m)
                (forcedFlushNotEnoughBuffer m) (forcedFlushTimeout m + 1)
                (forcedFlushFailedAll m))
  | None =>
      exists j idx,
        (j < n)%nat /\ events (k + j)%nat = FlushDone idx /\ idx <> -1 /\
        at_index cws idx = None /\
        forall i, (i < j)%nat -> events (k + i)%nat = FlushDone (-1)
  end.
Proof.
  induction n as [| n IH]; intros k; simpl.
  - left. split; [reflexivity |]. intros i Hi. lia.
  - destruct (events k) as [idx |] eqn:Hev.
    + destruct (Z.eqb_spec idx (-1)) as [-> | Hne].
      * assert (Hshift : forall i, (i < S n)%nat ->
                  (forall i', (i' < n)%nat -> events (S k + i')%nat = FlushDone (-1)) ->
                  events (k + i)%nat = FlushDone (-1)).
        { intros i Hi Hall. destruct i as [| i'].
          - rewrite Nat.add_0_r. exact Hev.
          - replace (k + S i')%nat with (S k + i')%nat by lia. apply Hall. lia. }
        assert (Hpre : forall j i, (i < S j)%nat ->
                  (forall i', (i' < j)%nat -> events (S k + i')%nat = FlushDone (-1)) ->
                  events (k + i)%nat = FlushDone (-1)).
        { intros j i Hi Hall. destruct i as [| i'].
          - rewrite Nat.add_0_r. exact Hev.
          - replace (k + S i')%nat with (S k + i')%nat by lia. apply Hall. lia. }
        specialize (IH (S k)).
        destruct (waitLoop n events (S k) cws m) as [[[cw |] m'] |].
        -- destruct IH as (-> & j & idx & Hj & Hej & Hidx & Hat & Hbefore).
           split; [reflexivity |]. exists (S j), idx.
           replace (k + S j)%nat with (S k + j)%nat by lia.
           split; [lia |]. split; [exact Hej |]. split; [exact Hidx |].
           split; [exact Hat |]. intros i Hi. exact (Hpre j i Hi Hbefore).
        -- destruct IH as [[-> Hall] | (j & Hj & Hej & Hbefore & ->)].
           ++ left. split; [reflexivity |]. intros i Hi. exact (Hshift i Hi Hall).
           ++ right. exists (S j).
              replace (k + S j)%nat with (S k + j)%nat by lia.
              split; [lia |]. split; [exact Hej |]. split; [| reflexivity].
              intros i Hi. exact (Hpre j i Hi Hbefore).
        -- destruct IH as (j & idx & Hj & Hej & Hidx & Hat & Hbefore).
           exists (S j), idx.
           replace (k + S j)%nat with (S k + j)%nat by lia.
           split; [lia |]. split; [exact Hej |]. split; [exact Hidx |].
           split; [exact Hat |]. intros i Hi. exact (Hpre j i Hi Hbefore).
      * destruct (at_index cws idx) as [cw |] eqn:Hat.
        -- split; [reflexivity |]. exists 0%nat, idx. rewrite Nat.add_0_r.
           split; [lia |]. split; [exact Hev |]. split; [exact Hne |].
           split; [exact Hat |]. intros i Hi. lia.
        -- exists 0%nat, idx. rewrite Nat.add_0_r.
           split; [lia |]. split; [exact Hev |]. split; [exact Hne |].
           split; [exact Hat |]. intros i Hi. lia.
    + right. exists 0%nat. rewrite Nat.add_0_r.
      split; [lia |]. split; [exact Hev |]. split; [| reflexivity].
      intros i Hi. lia.
Qed.

(** X9. [waitForForcedFlush], with a positive timeout, returns the consumer
    writer named by the first value on the done channel that is not -1, if
    that value arrives within as many receives as there are consumer
    writers and before the ticker: the counters are then left alone. If the
    ticker comes first it returns nil and counts both a forced-flush
    timeout and a failed-all; if all the values are -1 it returns nil and
    counts a failed-all. With a timeout that is not positive it panics. *)
Theorem waitForForcedFlush_spec (timeout : Z) (events : nat -> flushEvent)
    (cws : list consumerWriter) (m : flushMetrics) (j : nat) :
  (timeout <= 0 -> waitForForcedFlush timeout events cws m = None) /\
  (0 < timeout ->
   (forall i, (i < j)%nat -> events i = FlushDone (-1)) ->
   (j < length cws)%nat ->
   (forall idx cw,
      events j = FlushDone idx -> idx <> -1 -> at_index cws idx = Some cw ->
      waitForForcedFlush timeout events cws m = Some (Some cw, m)) /\
   (events j = FlushTick ->
    waitForForcedFlush timeout events cws m =
      Some (None,
            FlushMetrics (forcedFlushSingleConsumer m) (forcedFlush m)
              (forcedFlushNotEnoughBuffer m) (forcedFlushTimeout m + 1)
              (forcedFlushFailedAll m + 1)))) /\
  (0 < timeout ->
   (forall i, (i < length cws)%nat -> events i = FlushDone (-1)) ->
   waitForForcedFlush timeout events cws m =
     Some (None,
           FlushMetrics (forcedFlushSingleConsumer m) (forcedFlush m)
             (forcedFlushNotEnoughBuffer m) (forcedFlushTimeout m)
             (forcedFlushFailedAll m + 1))).
Proof.
  unfold waitForForcedFlush.
  pose proof (waitLoop_spec (length cws) events cws m 0%nat) as Hspec.
  cbn [Nat.add] in Hspec.
  split; [| split].
  - intros Hle. destruct (Z.leb_spec timeout 0); [reflexivity | lia].
  - intros Hpos Hbefore Hj.
    destruct (Z.leb_spec timeout 0); [lia |].
    split.
    + intros idx cw Hev Hidx Hat.
      destruct (waitLoop (length cws) events 0 cws m) as [[[cw' |] m'] |].
      * destruct Hspec as (-> & j' & idx' & Hj' & Hev' & Hidx' & Hat' & Hbefore').
        destruct (Nat.lt_trichotomy j j') as [Hlt | [<- | Hgt]].
        -- rewrite (Hbefore' j Hlt) in Hev. congruence.
        -- congruence.
        -- rewrite (Hbefore j' Hgt) in Hev'. congruence.
      * destruct Hspec as [[_ Hall] | (j' & Hj' & Hev' & Hbefore' & _)].
        -- rewrite (Hall j Hj) in Hev. congruence.
        -- destruct (Nat.lt_trichotomy j j') as [Hlt | [<- | Hgt]].
           ++ rewrite (Hbefore' j Hlt) in Hev. congruence.
           ++ congruence.
           ++ rewrite (Hbefore j' Hgt) in Hev'. congruence.
      * destruct Hspec as (j' & idx' & Hj' & Hev' & Hidx' & Hat' & Hbefore').
        destruct (Nat.lt_trichotomy j j') as [Hlt | [<- | Hgt]].
        -- rewrite (Hbefore' j Hlt) in Hev. congruence.
        -- congruence.
        -- rewrite (Hbefore j' Hgt) in Hev'. congruence.
    + intros Hev.
      destruct (waitLoop (length cws) events 0 cws m) as [[[cw' |] m'] |].
      * destruct Hspec as (-> & j' & idx' & Hj' & Hev' & Hidx' & Hat' & Hbefore').
        destruct (Nat.lt_trichotomy j j') as [Hlt | [<- | Hgt]].
        -- rewrite (Hbefore' j Hlt) in Hev. congruence.
        -- congruence.
        -- rewrite (Hbefore j' Hgt) in Hev'. congruence.
      * destruct Hspec as [[_ Hall] | (j' & Hj' & Hev' & Hbefore' & ->)].
        -- rewrite (Hall j Hj) in Hev. congruence.
        -- reflexivity.
      * destruct Hspec as (j' & idx' & Hj' & Hev' & Hidx' & Hat' & Hbefore').
        destruct (Nat.lt_trichotomy j j') as [Hlt | [<- | Hgt]].
        -- rewrite (Hbefore' j Hlt) in Hev. congruence.
        -- congruence.
        -- rewrite (Hbefore j' Hgt) in Hev'. congruence.
  - intros Hpos Hall.
    destruct (Z.leb_spec timeout 0); [lia |].
    destruct (waitLoop (length cws) events 0 cws m) as [[[cw' |] m'] |].
    + destruct Hspec as (_ & j' & idx' & Hj' & Hev' & Hidx' & _).
      rewrite (Hall j' Hj') in Hev'. congruence.
    + destruct Hspec as [[-> _] | (j' & Hj' & Hev' & _)]; [reflexivity |].
      rewrite (Hall j' Hj') in Hev'. congruence.
    + destruct Hspec as (j' & idx' & Hj' & Hev' & Hidx' & _).
      rewrite (Hall j' Hj') in Hev'. congruence.
Qed.

Lemma waitForForcedFlush_spec_witness :
  waitForForcedFlush 0 (fl_events exFlush) (consumerWriters exWriters)
    zeroFlushMetrics = None /\
  waitForForcedFlush 100 (fl_events exFlush) (consumerWriters exWriters)
    zeroFlushMetrics = Some (Some exWriterB, zeroFlushMetrics).
Proof.
  destruct (waitForForcedFlush_spec 0 (fl_events exFlush)
              (consumerWriters exWriters) zeroFlushMetrics 0%nat) as (H0 & _).
  split; [apply H0; lia |].
  destruct (waitForForcedFlush_spec 100 (fl_events exFlush)
              (consumerWriters exWriters) zeroFlushMetrics 1%nat)
    as (_ & H1 & _).
  destruct H1 as [Hdone _].
  - lia.
  - intros i Hi. destruct i as [| i]; [reflexivity | lia].
  - simpl. lia.
  - apply (Hdone 1); [reflexivity | discriminate | reflexivity].
Defined.

(** X10. [chooseConsumerWriter] panics on an empty slice and otherwise,
    with a positive forced-flush timeout and done-channel values that are
    -1 or indexes into the slice, returns one of the consumer writers it
    was given. It returns the only one without asking for buffers; with
    several it returns the writer with the largest available buffer,
    without a forced flush and with the counters untouched, whenever that
    buffer holds the write. *)
Theorem chooseConsumerWriter_spec (timeout : Z) (env : flushEnv)
    (cws : list consumerWriter) (connIndex writeLen : Z) (m : flushMetrics) :
  (cws = [] -> chooseConsumerWriter timeout env cws connIndex writeLen m = None) /\
  (forall cw m',
     chooseConsumerWriter timeout env cws connIndex writeLen m = Some (cw, m') ->
     cw ∈ cws) /\
  (cws <> [] -> 0 < timeout ->
   (forall k idx, fl_events env k = FlushDone idx ->
                  idx = -1 \/ 0 <= idx < Z.of_nat (length cws)) ->
   is_Some (chooseConsumerWriter timeout env cws connIndex writeLen m)) /\
  (forall cw, cws = [cw] ->
     chooseConsumerWriter timeout env cws connIndex writeLen m =
       Some (cw, FlushMetrics (forcedFlushSingleConsumer m + 1) (forcedFlush m)
                   (forcedFlushNotEnoughBuffer m) (forcedFlushTimeout m)
                   (forcedFlushFailedAll m))) /\
  (forall max maxBuf,
     (2 <= length cws)%nat ->
     getConsumerWriterWithMaxBuffer cws connIndex = Some (max, maxBuf) ->
     writeLen <= maxBuf ->
     chooseConsumerWriter timeout env cws connIndex writeLen m = Some (max, m)).
Proof.
  split; [| split; [| split; [| split]]].
  - intros ->. reflexivity.
  - intros cw m'. unfold chooseConsumerWriter.
    destruct (length cws =? 1)%nat.
    { destruct (at_index cws 0) as [c |] eqn:Hat; [| discriminate].
      intros [= <- <-]. exact (at_index_elem _ _ _ Hat). }
    destruct (getConsumerWriterWithMaxBuffer cws connIndex) as [[max maxBuf] |] eqn:Hmax;
      [| discriminate].
    assert (Hin : max ∈ cws).
    { destruct (getConsumerWriterWithMaxBuffer_spec cws connIndex) as [_ Hs].
      destruct (Hs max maxBuf Hmax) as (_ & l1 & l2 & -> & _).
      apply elem_of_app. right. apply list_elem_of_here. }
    destruct (maxBuf >=? writeLen); [intros [= <- <-]; exact Hin |].
    unfold waitForForcedFlush. destruct (timeout <=? 0); [discriminate |].
    match goal with
    | |- context [waitLoop ?n ?ev ?k ?c ?mm] =>
        pose proof (waitLoop_spec n ev c mm k) as Hspec;
        destruct (waitLoop n ev k c mm) as [[[c' |] m1] |]
    end; [| intros [= <- <-]; exact Hin | discriminate].
    destruct Hspec as (_ & j & idx & _ & _ & _ & Hat & _).
    intros [= <- <-]. exact (at_index_elem _ _ _ Hat).
  - intros Hne Hpos Hev. unfold chooseConsumerWriter.
    destruct cws as [| c0 rest]; [congruence |].
    destruct (length (c0 :: rest) =? 1)%nat; [cbn; eauto |].
    cbn [getConsumerWriterWithMaxBuffer].
    destruct (maxBufferLoop rest connIndex c0 (AvailableBuffer c0 connIndex))
      as [max maxBuf].
    destruct (maxBuf >=? writeLen); [eauto |].
    unfold waitForForcedFlush. destruct (Z.leb_spec timeout 0); [lia |].
    match goal with
    | |- context [waitLoop ?n ?ev ?k ?c ?mm] =>
        pose proof (waitLoop_spec n ev c mm k) as Hspec;
        destruct (waitLoop n ev k c mm) as [[[c' |] m1] |]
    end; [eauto | eauto |].
    destruct Hspec as (j & idx & _ & Hej & Hidx & Hat & _).
    destruct (Hev _ _ Hej) as [-> | Hrange]; [congruence |].
    destruct (at_index_in_range (c0 :: rest) idx Hrange) as [x Hx]. congruence.
  - intros cw ->. reflexivity.
  - intros max maxBuf Hlen Hmax Hfit. unfold chooseConsumerWriter.
    destruct (Nat.eqb_spec (length cws) 1); [lia |].
    rewrite Hmax. destruct (Z.geb_spec maxBuf writeLen); [reflexivity | lia].
Qed.

Lemma chooseConsumerWriter_spec_witness :
  chooseConsumerWriter 100 exFlush (consumerWriters exWriters) 0 200
    zeroFlushMetrics = Some (exWriterB, zeroFlushMetrics) /\
  is_Some (chooseConsumerWriter 100 exFlush (consumerWriters exWriters) 0 500
             zeroFlushMetrics).
Proof.
  destruct (chooseConsumerWriter_spec 100 exFlush (consumerWriters exWriters)
              0 200 zeroFlushMetrics) as (_ & _ & _ & _ & Hfit).
  split.
  - apply (Hfit exWriterB 300); [simpl; lia | reflexivity | lia].
  - destruct (chooseConsumerWriter_spec 100 exFlush (consumerWriters exWriters)
                0 500 zeroFlushMetrics) as (_ & _ & Hsome & _).
    apply Hsome; [discriminate | lia |].
    intros k idx Hk. destruct k as [| k]; cbn in Hk; injection Hk as <-.
    + left. reflexivity.
    + right. simpl. lia.
Defined.

(** X11. The connection index of [write]: with between 1 and 2^63-1
    connections it is the shard id modulo their number, so it is a valid
    index that depends on the shard alone; with no connection at all the
    remainder panics. *)
Theorem connIndex_spec (replicatedShardID numConnections : Z) :
  0 <= replicatedShardID < 2 ^ 64 ->
  (numConnections = 0 -> connIndex replicatedShardID numConnections = None) /\
  (1 <= numConnections <= max_int64 ->
   connIndex replicatedShardID numConnections =
     Some (replicatedShardID mod numConnections) /\
   0 <= replicatedShardID mod numConnections < numConnections).
Proof.
  intros Hshard. unfold connIndex. cbv zeta. split.
  - intros ->. reflexivity.
  - intros Hn. unfold max_int64 in Hn.
    rewrite (wrapu64_id numConnections) by (unfold in_uint64, max_uint64; lia).
    destruct (Z.eqb_spec numConnections 0); [lia |].
    pose proof (Z.mod_pos_bound replicatedShardID numConnections ltac:(lia)) as Hb.
    split; [| exact Hb].
    rewrite wrap64_id by (unfold in_int64, min_int64, max_int64; lia).
    reflexivity.
Qed.

Lemma connIndex_spec_witness :
  connIndex 7 0 = None /\
  connIndex 7 4 = Some (7 mod 4) /\ 0 <= 7 mod 4 < 4.
Proof.
  destruct (connIndex_spec 7 0) as [H0 _]; [lia |].
  destruct (connIndex_spec 7 4) as [_ H4]; [lia |].
  split; [apply H0; reflexivity |]. apply H4. vm_compute. split; discriminate.
Defined.

(** ** The exponential retry function with jitter *)

(** X12. [NextRetryNanosFn] never returns more than the maximum backoff,
    whatever the options, the write count and the platform. When the jitter
    applies to a backoff [b] (jitter enabled, [b] at least 2ns and half of
    it below 2^32-1 microseconds) and the draws of [Fastrandn] are below
    their bound, the value before the clamp is half of [b] in whole
    microseconds plus a draw below that half: it lies between that half and
    [b], and it is 0 for every [b] below 2000ns. *)
Theorem NextRetryNanosFn_jitter_range (rt : platform) (retryOpts : retryOptions)
    (writeTimes : Z) :
  let b := if writeTimes >=? 1 then floatBackoff rt retryOpts writeTimes
           else InitialBackoff retryOpts in
  let h := Z.quot (Z.quot b 2) 1000 in
  (forall r, NextRetryNanosFn rt retryOpts writeTimes = Some r ->
             r <= MaxBackoff retryOpts) /\
  (jitterApplies retryOpts b = true ->
   Fastrandn rt 0 = 0 ->
   (forall n, 0 < n -> 0 <= Fastrandn rt n < n) ->
   NextRetryNanosFn rt retryOpts writeTimes =
     Some (Z.min (MaxBackoff retryOpts) (1000 * (h + Fastrandn rt h))) /\
   1000 * h <= 1000 * (h + Fastrandn rt h) <= b /\
   (b < 2000 -> 1000 * (h + Fastrandn rt h) = 0)).
Proof.
  cbv zeta. rewrite NextRetryNanosFn_jitterAndClamp.
  set (b := if writeTimes >=? 1 then floatBackoff rt retryOpts writeTimes
            else InitialBackoff retryOpts).
  split.
  - intros r [= <-]. unfold jitterAndClamp. cbv zeta.
    match goal with |- (if ?x >? ?y then _ else _) <= _ =>
      destruct (Z.gtb_spec x y); lia end.
  - intros Happ H0 Hdraw.
    destruct (jitterAndClamp_jitter rt retryOpts b Happ H0 Hdraw)
      as (Hv & Hh & Hd & Hlt).
    split; [rewrite Hv; reflexivity |]. split; [lia |].
    intros Hsmall.
    assert (Hb : 2 <= b).
    { unfold jitterApplies in Happ.
      apply andb_prop in Happ. destruct Happ as [Happ _].
      apply andb_prop in Happ. destruct Happ as [_ Happ].
      apply Z.geb_le in Happ. exact Happ. }
    assert (Hz : Z.quot (Z.quot b 2) 1000 = 0)
      by (rewrite Hh; apply Z.div_small; lia).
    rewrite Hz in Hd |- *. lia.
Qed.

Lemma NextRetryNanosFn_jitter_range_witness :
  NextRetryNanosFn exPlatform exJitter 0 =
    Some (Z.min (MaxBackoff exJitter)
            (1000 * (Z.quot (Z.quot (InitialBackoff exJitter) 2) 1000
                     + Fastrandn exPlatform
                         (Z.quot (Z.quot (InitialBackoff exJitter) 2) 1000)))).
Proof.
  destruct (NextRetryNanosFn_jitter_range exPlatform exJitter 0) as [_ H].
  apply H.
  - reflexivity.
  - reflexivity.
  - intros n Hn. simpl. lia.
Defined.

(** ** One batch under the lock *)




